(** * Shallow embedding of the macro-roto game: collision, weapons,
      player progression and the game-state pipeline.

    Conventions of the embedding.
    - [f32] values are modelled as real numbers [R]: the arithmetic is the
      ideal one, rounding is not modelled.  glam's [normalize] divides by the
      length; on the zero vector glam yields NaN, here [/ 0 = 0].
    - [u32] / [u64] values are modelled as [Z]; every [+] / [+=] of the source
      is checked as Rust does in a debug build: an overflow panics, written
      [None].
    - [Vec] is a [list], [HashSet<EntityId>] is a duplicate-free [list Z]
      updated through [hs_insert]. *)

From Stdlib Require Import Reals Psatz Lra ZArith List Bool Btauto Permutation.
From Stdlib Require String.
Import ListNotations.

Open Scope R_scope.

(** ** glam's [Vec2] *)

Record Vec2 := mkVec2 { vx : R; vy : R }.

Definition Vec2_ZERO : Vec2 := mkVec2 0 0.

Definition vadd (a b : Vec2) : Vec2 := mkVec2 (vx a + vx b) (vy a + vy b).
Definition vsub (a b : Vec2) : Vec2 := mkVec2 (vx a - vx b) (vy a - vy b).
Definition vneg (a : Vec2) : Vec2 := mkVec2 (- vx a) (- vy a).
Definition vscale (a : Vec2) (k : R) : Vec2 := mkVec2 (vx a * k) (vy a * k).
Definition vdiv (a : Vec2) (k : R) : Vec2 := mkVec2 (vx a / k) (vy a / k).
Definition length_squared (a : Vec2) : R := vx a * vx a + vy a * vy a.
Definition vlength (a : Vec2) : R := sqrt (length_squared a).
Definition normalize (a : Vec2) : Vec2 := vdiv a (vlength a).
Definition vdot (a b : Vec2) : R := vx a * vx b + vy a * vy b.

(** [f32::clamp]; it asserts [min <= max], which holds for every collider of
    the game (non-negative widths and heights). *)
Definition clamp (x lo hi : R) : R :=
  if Rlt_dec x lo then lo else if Rlt_dec hi x then hi else x.

(** [f32::abs] and [f32::min]. *)
Definition fabs (x : R) : R := Rabs x.
Definition fmin (a b : R) : R := if Rle_dec a b then a else b.

(** ** collision.rs *)

Module Collision.

Inductive Collider :=
| Circle (radius : R)
| Rect (width height : R).

Record CollisionData := mkCollisionData {
  collided : bool;
  penetration_depth : R;
  normal : Vec2 (* points from object 2 to object 1 *)
}.

Definition none : CollisionData := mkCollisionData false 0 Vec2_ZERO.
Definition new (penetration_depth : R) (normal : Vec2) : CollisionData :=
  mkCollisionData true penetration_depth normal.

Definition EPS : R := 1 / 10000.

Definition circle_circle (pos1 : Vec2) (r1 : R) (pos2 : Vec2) (r2 : R)
  : CollisionData :=
  let delta := vsub pos1 pos2 in
  let distance_sq := length_squared delta in
  let radii_sum := r1 + r2 in
  let radii_sum_sq := radii_sum * radii_sum in
  if Rlt_dec distance_sq radii_sum_sq then
    let distance := sqrt distance_sq in
    let penetration := radii_sum - distance in
    let normal :=
      if Rlt_dec EPS distance then vdiv delta distance
      else mkVec2 1 0 in
    new penetration normal
  else none.

Definition circle_rect (circle_pos : Vec2) (radius : R) (rect_pos : Vec2)
  (width height : R) : CollisionData :=
  let half_width := width / 2 in
  let half_height := height / 2 in
  let closest_x := clamp (vx circle_pos) (vx rect_pos - half_width)
                         (vx rect_pos + half_width) in
  let closest_y := clamp (vy circle_pos) (vy rect_pos - half_height)
                         (vy rect_pos + half_height) in
  let closest_point := mkVec2 closest_x closest_y in
  let delta := vsub circle_pos closest_point in
  let distance_sq := length_squared delta in
  if Rlt_dec distance_sq (radius * radius) then
    let distance := sqrt distance_sq in
    let penetration := radius - distance in
    let normal :=
      if Rlt_dec EPS distance then vdiv delta distance
      else
        let dx_left := fabs (vx circle_pos - (vx rect_pos - half_width)) in
        let dx_right := fabs ((vx rect_pos + half_width) - vx circle_pos) in
        let dy_top := fabs (vy circle_pos - (vy rect_pos - half_height)) in
        let dy_bottom := fabs ((vy rect_pos + half_height) - vy circle_pos) in
        let min_dist := fmin (fmin (fmin dx_left dx_right) dy_top) dy_bottom in
        if Req_dec_T min_dist dx_left then mkVec2 (-1) 0
        else if Req_dec_T min_dist dx_right then mkVec2 1 0
        else if Req_dec_T min_dist dy_top then mkVec2 0 (-1)
        else mkVec2 0 1 in
    new penetration normal
  else none.

Definition rect_rect (pos1 : Vec2) (w1 h1 : R) (pos2 : Vec2) (w2 h2 : R)
  : CollisionData :=
  let half_w1 := w1 / 2 in
  let half_h1 := h1 / 2 in
  let half_w2 := w2 / 2 in
  let half_h2 := h2 / 2 in
  let delta := vsub pos1 pos2 in
  let overlap_x := (half_w1 + half_w2) - fabs (vx delta) in
  let overlap_y := (half_h1 + half_h2) - fabs (vy delta) in
  if Rlt_dec 0 overlap_x then
    if Rlt_dec 0 overlap_y then
      if Rlt_dec overlap_x overlap_y then
        let normal_x := if Rlt_dec 0 (vx delta) then 1 else -1 in
        new overlap_x (mkVec2 normal_x 0)
      else
        let normal_y := if Rlt_dec 0 (vy delta) then 1 else -1 in
        new overlap_y (mkVec2 0 normal_y)
    else none
  else none.

Definition check_collision (collider1 : Collider) (pos1 : Vec2)
  (collider2 : Collider) (pos2 : Vec2) : CollisionData :=
  match collider1, collider2 with
  | Circle r1, Circle r2 => circle_circle pos1 r1 pos2 r2
  | Circle radius, Rect width height =>
      circle_rect pos1 radius pos2 width height
  | Rect width height, Circle radius =>
      let result := circle_rect pos2 radius pos1 width height in
      mkCollisionData (collided result) (penetration_depth result)
        (vneg (normal result))
  | Rect w1 h1, Rect w2 h2 => rect_rect pos1 w1 h1 pos2 w2 h2
  end.

End Collision.

(** ** Checked unsigned arithmetic (debug-build Rust: overflow panics) *)

Open Scope Z_scope.

Definition U32_MAX : Z := 2 ^ 32 - 1.
Definition U64_MAX : Z := 2 ^ 64 - 1.

Definition add_u32 (a b : Z) : option Z :=
  if a + b <=? U32_MAX then Some (a + b) else None.
Definition mul_u32 (a b : Z) : option Z :=
  if a * b <=? U32_MAX then Some (a * b) else None.
Definition add_u64 (a b : Z) : option Z :=
  if a + b <=? U64_MAX then Some (a + b) else None.

(** [usize as u32] truncates. *)
Definition as_u32 (n : nat) : Z := Z.of_nat n mod 2 ^ 32.

Definition obind {A B} (m : option A) (f : A -> option B) : option B :=
  match m with Some a => f a | None => None end.
Notation "x <- m ;; k" := (obind m (fun x => k))
  (at level 61, m at next level, right associativity).

Close Scope Z_scope.

(** ** projectile.rs and enemy.rs *)

Inductive ProjectileType := PEnergyBall | PPulse | PHomingMissile.

Record ProjectileStats := mkProjectileStats {
  damage : R;
  speed : R;
  pradius : R;
  width : R;
  height : R;
  time_to_live : R;
  turning_rate : R
}.

Definition energy_ball_default : ProjectileStats :=
  mkProjectileStats 10 300 8 0 0 2 0.
Definition pulse_default : ProjectileStats :=
  mkProjectileStats 15 0 0 100 100 (3 / 10) 0.
Definition homing_missile_default : ProjectileStats :=
  mkProjectileStats 20 250 6 0 0 3 3.

(** Modelled from the spec: the [From<ProjectileType>] impl of
    [ProjectileStats] called by [WeaponStats::from] and
    [GameState::spawn_projectile] is not among the sources; it is taken to
    return the per-type default bundle defined next to it in projectile.rs. *)
Definition ProjectileStats_from (t : ProjectileType) : ProjectileStats :=
  match t with
  | PEnergyBall => energy_ball_default
  | PPulse => pulse_default
  | PHomingMissile => homing_missile_default
  end.

Record ColorConfig := mkColorConfig { cr : R; cg : R; cb : R; ca : R }.

Record ProjectileVisualConfig := mkProjectileVisualConfig {
  primary_color : ColorConfig;
  secondary_color : ColorConfig;
  pv_indicator_color : ColorConfig
}.

Record Projectile := mkProjectile {
  p_id : Z;
  p_pos : Vec2;
  p_vel : Vec2;
  projectile_type : ProjectileType;
  p_stats : ProjectileStats;
  time_remaining : R;
  source_pos : Vec2;
  p_visual_config : ProjectileVisualConfig
}.

Inductive EnemyType := Basic | Chaser.

(** [EntityStats] of entity.rs / enemy.rs. *)
Record EntityStats := mkEntityStats {
  eradius : R;
  max_speed : R;
  acceleration : R;
  friction : R
}.

Record EnemyVisualConfig := mkEnemyVisualConfig {
  ev_circle_color : ColorConfig;
  ev_indicator_color : ColorConfig;
  ev_indicator_size : R
}.

Record Enemy := mkEnemy {
  e_id : Z;
  e_pos : Vec2;
  e_vel : Vec2;
  enemy_type : EnemyType;
  e_stats : EntityStats;
  e_visual_config : EnemyVisualConfig
}.

Definition Enemy_override_stats (e : Enemy) (s : EntityStats) : Enemy :=
  mkEnemy (e_id e) (e_pos e) (e_vel e) (enemy_type e) s (e_visual_config e).

(** ** entity.rs *)

Inductive SpawnCommand :=
| SpawnProjectile (projectile_type : ProjectileType) (pos vel : Vec2)
    (stats : ProjectileStats)
| SpawnEnemy (enemy_type : EnemyType) (pos : Vec2).

(** ** enemy.rs: movement and collider *)

Module enemy.

Definition set_vel (e : Enemy) (v : Vec2) : Enemy :=
  mkEnemy (e_id e) (e_pos e) v (enemy_type e) (e_stats e) (e_visual_config e).
Definition set_pos (e : Enemy) (p : Vec2) : Enemy :=
  mkEnemy (e_id e) p (e_vel e) (enemy_type e) (e_stats e) (e_visual_config e).

Definition clamp_velocity (e : Enemy) : Enemy :=
  let speed := vlength (e_vel e) in
  if Rlt_dec (max_speed (e_stats e)) speed
  then set_vel e (vscale (normalize (e_vel e)) (max_speed (e_stats e)))
  else e.

Definition update_basic (e : Enemy) : Enemy :=
  let acc_dir := mkVec2 (if Rlt_dec (vx (e_vel e)) 0 then -1 else 1)
                        (if Rlt_dec (vy (e_vel e)) 0 then -1 else 1) in
  let e := set_vel e (vadd (e_vel e) (vscale acc_dir (acceleration (e_stats e)))) in
  clamp_velocity e.

Definition update_chaser (e : Enemy) (player_pos : Vec2) : Enemy :=
  let to_player := vsub player_pos (e_pos e) in
  let distance := vlength to_player in
  let e :=
    if Rlt_dec 1 distance then
      let desired_dir := vdiv to_player distance in
      let desired_vel := vscale desired_dir (max_speed (e_stats e)) in
      let steering :=
        vscale (vsub desired_vel (e_vel e)) (acceleration (e_stats e)) in
      set_vel e (vadd (e_vel e) steering)
    else e in
  clamp_velocity e.

Definition update (e : Enemy) (player_pos : option Vec2) : Enemy :=
  let e := match enemy_type e with
           | Basic => update_basic e
           | Chaser => match player_pos with
                       | Some target => update_chaser e target
                       | None => update_basic e
                       end
           end in
  set_pos e (vadd (e_pos e) (e_vel e)).

(** [impl Collidable for Enemy]. *)
Definition collider (e : Enemy) : Collision.Collider :=
  Collision.Circle (eradius (e_stats e)).

End enemy.

(** ** projectile.rs: movement, homing and collider *)

Module projectile.

Definition set_pos (p : Projectile) (v : Vec2) : Projectile :=
  mkProjectile (p_id p) v (p_vel p) (projectile_type p) (p_stats p)
    (time_remaining p) (source_pos p) (p_visual_config p).
Definition set_vel (p : Projectile) (v : Vec2) : Projectile :=
  mkProjectile (p_id p) (p_pos p) v (projectile_type p) (p_stats p)
    (time_remaining p) (source_pos p) (p_visual_config p).
Definition set_time_remaining (p : Projectile) (t : R) : Projectile :=
  mkProjectile (p_id p) (p_pos p) (p_vel p) (projectile_type p) (p_stats p)
    t (source_pos p) (p_visual_config p).

Definition update (p : Projectile) (dt : R) : Projectile :=
  let p := set_time_remaining p (time_remaining p - dt) in
  match projectile_type p with
  | PEnergyBall => set_pos p (vadd (p_pos p) (vscale (p_vel p) dt))
  | PPulse => set_pos p (source_pos p)
  | PHomingMissile => set_pos p (vadd (p_pos p) (vscale (p_vel p) dt))
  end.

(** [f32::atan2] (no signed zeros: [atan2 0 x] is [PI] for [x < 0]). *)
Definition atan2 (y x : R) : R :=
  if Rlt_dec 0 x then atan (y / x)
  else if Rlt_dec x 0 then
    (if Rle_dec 0 y then atan (y / x) + PI else atan (y / x) - PI)
  else if Rlt_dec 0 y then PI / 2
  else if Rlt_dec y 0 then - (PI / 2)
  else 0.

(** [enemies.iter().min_by(..)] on the squared distance to [pos]:
    [Iterator::min_by] keeps the earlier element unless the later one is
    strictly closer. *)
Definition min_by_distance (pos : Vec2) (enemies : list Enemy) : option Enemy :=
  let dist (e : Enemy) := length_squared (vsub (e_pos e) pos) in
  match enemies with
  | [] => None
  | e :: es =>
      Some (fold_left (fun a b => if Rlt_dec (dist b) (dist a) then b else a) es e)
  end.

(** [update_homing]; [f32::clamp] asserts [-max_turn <= max_turn], which
    holds for the game's turning rates (0 or positive) and [dt = DT]. *)
Definition update_homing (p : Projectile) (dt : R) (enemies : list Enemy)
  : Projectile :=
  match projectile_type p with
  | PHomingMissile =>
      match min_by_distance (p_pos p) enemies with
      | Some target =>
          let to_target := normalize (vsub (e_pos target) (p_pos p)) in
          let current_dir := normalize (p_vel p) in
          let cross := vx current_dir * vy to_target - vy current_dir * vx to_target in
          let dot := vdot current_dir to_target in
          let angle_diff := atan2 cross dot in
          let max_turn := turning_rate (p_stats p) * dt in
          let turn_angle := clamp angle_diff (- max_turn) max_turn in
          let cos_turn := cos turn_angle in
          let sin_turn := sin turn_angle in
          let rotated_vel :=
            mkVec2 (vx (p_vel p) * cos_turn - vy (p_vel p) * sin_turn)
                   (vx (p_vel p) * sin_turn + vy (p_vel p) * cos_turn) in
          set_vel p (vscale (normalize rotated_vel) (speed (p_stats p)))
      | None => p
      end
  | _ => p
  end.

Definition is_expired (p : Projectile) : bool :=
  if Rle_dec (time_remaining p) 0 then true else false.

(** [impl Collidable for Projectile]. *)
Definition collider (p : Projectile) : Collision.Collider :=
  match projectile_type p with
  | PEnergyBall | PHomingMissile => Collision.Circle (pradius (p_stats p))
  | PPulse => Collision.Rect (width (p_stats p)) (height (p_stats p))
  end.

End projectile.

(** ** weapon.rs *)

Module Weapon.

Inductive WeaponType := EnergyBall | Pulse | HomingMissile.

Definition WeaponType_eq_dec (a b : WeaponType) : {a = b} + {a <> b}.
Proof. decide equality. Defined.

Definition WeaponType_eqb (a b : WeaponType) : bool :=
  if WeaponType_eq_dec a b then true else false.

Record WeaponStats := mkWeaponStats {
  cooldown : R;
  projectile_count : Z;  (* u32 *)
  spread_angle : R;      (* degrees *)
  projectile_stats : ProjectileStats
}.

Definition WeaponStats_from (t : WeaponType) : WeaponStats :=
  match t with
  | EnergyBall => mkWeaponStats (3 / 2) 1 0 (ProjectileStats_from PEnergyBall)
  | Pulse => mkWeaponStats 3 1 0 (ProjectileStats_from PPulse)
  | HomingMissile => mkWeaponStats 2 1 0 (ProjectileStats_from PHomingMissile)
  end.

Record Weapon := mkWeapon {
  weapon_type : WeaponType;
  level : Z;  (* u32 *)
  cooldown_remaining : R;
  stats : WeaponStats
}.

Definition new (t : WeaponType) : Weapon := mkWeapon t 1 0 (WeaponStats_from t).

Definition set_cooldown_remaining (w : Weapon) (c : R) : Weapon :=
  mkWeapon (weapon_type w) (level w) c (stats w).

Definition update (w : Weapon) (dt : R) : Weapon :=
  if Rlt_dec 0 (cooldown_remaining w)
  then set_cooldown_remaining w (cooldown_remaining w - dt)
  else w.

Definition can_fire (w : Weapon) : bool :=
  if Rle_dec (cooldown_remaining w) 0 then true else false.

Definition to_radians (deg : R) : R := deg * (PI / 180).

Definition rotate_vector (v : Vec2) (angle_rad : R) : Vec2 :=
  let cos_a := cos angle_rad in
  let sin_a := sin angle_rad in
  mkVec2 (vx v * cos_a - vy v * sin_a) (vx v * sin_a + vy v * cos_a).

(** The fan of [fire_energy_ball] / [fire_homing_missile] for
    [projectile_count <> 1]: [for i in 0..projectile_count]. *)
Definition fan (t : ProjectileType) (w : Weapon) (player_pos player_facing : Vec2)
  : list SpawnCommand :=
  let s := stats w in
  let spread_rad := to_radians (spread_angle s) in
  let angle_step :=
    if (1 <? projectile_count s)%Z
    then spread_rad * 2 / IZR (projectile_count s - 1)
    else 0 in
  map (fun i =>
         let angle_offset := - spread_rad + INR i * angle_step in
         let direction := rotate_vector player_facing angle_offset in
         let vel := vscale (normalize direction) (speed (projectile_stats s)) in
         SpawnProjectile t player_pos vel (projectile_stats s))
      (seq 0 (Z.to_nat (projectile_count s))).

Definition fire_energy_ball (w : Weapon) (player_pos player_facing : Vec2)
  : list SpawnCommand :=
  let s := stats w in
  if (projectile_count s =? 1)%Z then
    let vel := vscale (normalize player_facing) (speed (projectile_stats s)) in
    [SpawnProjectile PEnergyBall player_pos vel (projectile_stats s)]
  else fan PEnergyBall w player_pos player_facing.

Definition fire_pulse (w : Weapon) (player_pos : Vec2) : list SpawnCommand :=
  [SpawnProjectile PPulse player_pos Vec2_ZERO (projectile_stats (stats w))].

Definition fire_homing_missile (w : Weapon) (player_pos player_facing : Vec2)
  : list SpawnCommand :=
  let s := stats w in
  if (projectile_count s =? 1)%Z then
    let vel := vscale (normalize player_facing) (speed (projectile_stats s)) in
    [SpawnProjectile PHomingMissile player_pos vel (projectile_stats s)]
  else fan PHomingMissile w player_pos player_facing.

(** [fire(&mut self, ..)]: the updated weapon and the spawn commands. *)
Definition fire (w : Weapon) (player_pos player_facing : Vec2)
  : Weapon * list SpawnCommand :=
  if negb (can_fire w) then (w, [])
  else
    let w := set_cooldown_remaining w (cooldown (stats w)) in
    (w, match weapon_type w with
        | EnergyBall => fire_energy_ball w player_pos player_facing
        | Pulse => fire_pulse w player_pos
        | HomingMissile => fire_homing_missile w player_pos player_facing
        end).

(** [level_up]; [level += 1] and [projectile_count += k] are u32 additions. *)
Definition level_up (w : Weapon) : option Weapon :=
  lvl <- add_u32 (level w) 1 ;;
  let s := stats w in
  let ps := projectile_stats s in
  match weapon_type w with
  | EnergyBall =>
      if (5 <=? lvl)%Z then
        cnt <- add_u32 (projectile_count s) 3 ;;
        Some (mkWeapon EnergyBall lvl (cooldown_remaining w)
          (mkWeaponStats (Rmax (cooldown s * (85 / 100)) (1 / 10)) cnt 75
             (mkProjectileStats (damage ps + 2) (speed ps * (125 / 100))
                (pradius ps) (width ps) (height ps) (time_to_live ps)
                (turning_rate ps))))
      else
        cnt <- add_u32 (projectile_count s) 1 ;;
        Some (mkWeapon EnergyBall lvl (cooldown_remaining w)
          (mkWeaponStats (Rmax (cooldown s * (95 / 100)) (3 / 10)) cnt 30
             (mkProjectileStats (damage ps + 2) (speed ps * (105 / 100))
                (pradius ps) (width ps) (height ps) (time_to_live ps)
                (turning_rate ps))))
  | Pulse =>
      if (5 <=? lvl)%Z then
        Some (mkWeapon Pulse lvl (cooldown_remaining w)
          (mkWeaponStats (Rmax (cooldown s * (80 / 100)) (1 / 2))
             (projectile_count s) (spread_angle s)
             (mkProjectileStats (damage ps + 3) (speed ps) (pradius ps)
                (width ps + 25) (height ps + 25) (time_to_live ps + 1 / 10)
                (turning_rate ps))))
      else
        Some (mkWeapon Pulse lvl (cooldown_remaining w)
          (mkWeaponStats (Rmax (cooldown s * (95 / 100)) 1)
             (projectile_count s) (spread_angle s)
             (mkProjectileStats (damage ps + 3) (speed ps) (pradius ps)
                (width ps + 15) (height ps + 15) (time_to_live ps + 5 / 100)
                (turning_rate ps))))
  | HomingMissile =>
      if (5 <=? lvl)%Z then
        cnt <- add_u32 (projectile_count s) 2 ;;
        Some (mkWeapon HomingMissile lvl (cooldown_remaining w)
          (mkWeaponStats (Rmax (cooldown s * (85 / 100)) (1 / 10)) cnt 30
             (mkProjectileStats (damage ps) (speed ps * (135 / 100))
                (pradius ps) (width ps) (height ps) (time_to_live ps)
                (turning_rate ps * (125 / 100)))))
      else
        Some (mkWeapon HomingMissile lvl (cooldown_remaining w)
          (mkWeaponStats (Rmax (cooldown s * (92 / 100)) (4 / 10))
             (projectile_count s) (spread_angle s)
             (mkProjectileStats (damage ps + 4) (speed ps * (110 / 100))
                (pradius ps) (width ps) (height ps) (time_to_live ps)
                (turning_rate ps * (115 / 100)))))
  end.

End Weapon.

(** ** visual_config.rs (the data only) *)

Record PlayerVisualConfig := mkPlayerVisualConfig {
  pl_circle_color : ColorConfig;
  pl_indicator_color : ColorConfig;
  pl_indicator_size : R
}.

Record BlendConfig := mkBlendConfig {
  inner_color : ColorConfig;
  outer_color : ColorConfig
}.

Record GameVisualConfig := mkGameVisualConfig {
  gv_player : PlayerVisualConfig;
  gv_basic_enemy : EnemyVisualConfig;
  gv_chaser_enemy : EnemyVisualConfig;
  gv_energy_ball : ProjectileVisualConfig;
  gv_pulse : ProjectileVisualConfig;
  gv_homing_missile : ProjectileVisualConfig;
  gv_pulse_blend : BlendConfig
}.

(** ** player.rs *)

Module Player.
Import Weapon.

Record Player := mkPlayer {
  pos : Vec2;
  vel : Vec2;
  facing : Vec2;
  stats : EntityStats;
  weapons : list Weapon;
  visual_config : PlayerVisualConfig;
  xp : Z;    (* u32 *)
  level : Z  (* u32 *)
}.

(** [for i in 1..=level { total += 5 * i; }], [i] running from [i0]. *)
Fixpoint xp_loop (i : Z) (n : nat) (total : Z) : option Z :=
  match n with
  | O => Some total
  | S n' =>
      m <- mul_u32 5 i ;;
      t <- add_u32 total m ;;
      xp_loop (i + 1)%Z n' t
  end.

Definition xp_for_level (lvl : Z) : option Z :=
  if (lvl =? 0)%Z then Some 0%Z else xp_loop 1 (Z.to_nat lvl) 0.

Definition xp_for_next_level (p : Player) : option Z :=
  l <- add_u32 (level p) 1 ;; xp_for_level l.

Definition set_xp_level (p : Player) (x l : Z) : Player :=
  mkPlayer (pos p) (vel p) (facing p) (stats p) (weapons p) (visual_config p) x l.

Definition set_weapons (p : Player) (ws : list Weapon) : Player :=
  mkPlayer (pos p) (vel p) (facing p) (stats p) ws (visual_config p) (xp p)
    (level p).

(** [add_xp]: the updated player and whether a level-up occurred. *)
Definition add_xp (p : Player) (amount : Z) : option (Player * bool) :=
  x <- add_u32 (xp p) amount ;;
  let p := set_xp_level p x (level p) in
  th <- xp_for_next_level p ;;
  if (th <=? xp p)%Z then
    l <- add_u32 (level p) 1 ;;
    Some (set_xp_level p (xp p) l, true)
  else Some (p, false).

Definition add_weapon (p : Player) (t : WeaponType) : Player :=
  set_weapons p (weapons p ++ [Weapon.new t]).

Fixpoint replace_nth {A} (l : list A) (n : nat) (a : A) : list A :=
  match l, n with
  | [], _ => []
  | _ :: l', O => a :: l'
  | x :: l', S n' => x :: replace_nth l' n' a
  end.

Definition level_up_weapon (p : Player) (index : nat) : option Player :=
  match nth_error (weapons p) index with
  | Some w => w' <- Weapon.level_up w ;;
              Some (set_weapons p (replace_nth (weapons p) index w'))
  | None => Some p
  end.

Definition override_stats (p : Player) (s : EntityStats) : Player :=
  mkPlayer (pos p) (vel p) (facing p) s (weapons p) (visual_config p) (xp p)
    (level p).

Definition override_visual_config (p : Player) (v : PlayerVisualConfig) : Player :=
  mkPlayer (pos p) (vel p) (facing p) (stats p) (weapons p) v (xp p) (level p).

Definition set_pos (p : Player) (v : Vec2) : Player :=
  mkPlayer v (vel p) (facing p) (stats p) (weapons p) (visual_config p) (xp p)
    (level p).
Definition set_vel (p : Player) (v : Vec2) : Player :=
  mkPlayer (pos p) v (facing p) (stats p) (weapons p) (visual_config p) (xp p)
    (level p).
Definition set_facing (p : Player) (v : Vec2) : Player :=
  mkPlayer (pos p) (vel p) v (stats p) (weapons p) (visual_config p) (xp p)
    (level p).

Definition reset (p : Player) (x y : R) : Player :=
  mkPlayer (mkVec2 x y) Vec2_ZERO (mkVec2 1 0) (stats p) [] (visual_config p)
    0%Z 0%Z.

Definition clamp_velocity (p : Player) : Player :=
  let speed := vlength (vel p) in
  if Rlt_dec (max_speed (stats p)) speed
  then set_vel p (vscale (normalize (vel p)) (max_speed (stats p)))
  else p.

(** What [input] reads from macroquad: the four arrow keys and the mouse. *)
Record Input := mkInput {
  key_left : bool;
  key_right : bool;
  key_up : bool;
  key_down : bool;
  mouse_position : Vec2
}.

Definition input (p : Player) (i : Input) : Player :=
  let a := acceleration (stats p) in
  let ax := if key_left i then 0 - a else 0 in
  let ax := if key_right i then ax + a else ax in
  let ay := if key_up i then 0 - a else 0 in
  let ay := if key_down i then ay + a else ay in
  let p := set_vel p (vadd (vel p) (mkVec2 ax ay)) in
  let to_mouse := vsub (mouse_position i) (pos p) in
  let p := if Rlt_dec 1 (vlength to_mouse)
           then set_facing p (normalize to_mouse) else p in
  clamp_velocity p.

(** [for weapon in &mut self.weapons { weapon.update(dt);
    spawn_commands.extend(weapon.fire(self.pos, self.facing)); }] *)
Fixpoint update_weapons (ws : list Weapon) (dt : R) (pos facing : Vec2)
  : list Weapon * list SpawnCommand :=
  match ws with
  | [] => ([], [])
  | w :: ws' =>
      let w := Weapon.update w dt in
      let '(w, commands) := Weapon.fire w pos facing in
      let '(ws'', rest) := update_weapons ws' dt pos facing in
      (w :: ws'', commands ++ rest)
  end.

Definition update (p : Player) (dt : R) : Player * list SpawnCommand :=
  let p := set_pos p (vadd (pos p) (vel p)) in
  let p := set_vel p (vscale (vel p) (friction (stats p))) in
  let '(ws, spawn_commands) := update_weapons (weapons p) dt (pos p) (facing p) in
  (set_weapons p ws, spawn_commands).

(** [impl Collidable for Player]. *)
Definition collider (p : Player) : Collision.Collider :=
  Collision.Circle (eradius (stats p)).

End Player.

(** ** roto_script.rs: the configuration provider *)

Inductive result (A : Type) : Type :=
| Ok (a : A)
| Err (e : String.string).
Arguments Ok {A} a.
Arguments Err {A} e.

Record WaveConfig := mkWaveConfig {
  basic_enemy_count : Z;  (* u32 *)
  chaser_enemy_count : Z  (* u32 *)
}.

Record GameConstants := mkGameConstants {
  out_of_bounds_margin : R;
  spawn_target_offset : R
}.

(** [RotoScriptManager]: every getter compiles [waves.roto] and calls one of
    its functions; the manager is modelled by what each getter answers for
    the script currently on disk ([reload] takes the new one). *)
Record RotoScriptManager := mkRotoScriptManager {
  get_player_stats : result EntityStats;
  get_game_constants : result GameConstants;
  get_enemy_stats : EnemyType -> result EntityStats;
  get_visual_config : result GameVisualConfig;
  get_wave_config : Z -> result WaveConfig
}.

(** ** gamestate/mod.rs *)

(** What the game reads from macroquad: the screen size and quad-rand's
    generator, a stream of draws in [0, 1) indexed by the generator state. *)
Record Env := mkEnv {
  screen_width : R;
  screen_height : R;
  rand_draw : nat -> R
}.

Module GameState.
Import Weapon Player.

Inductive GameStateEnum := WeaponSelection | Playing | GameOver | ScriptError.

(** The fields of [GameState]; the frame-timing fields ([t_frame], [t_prev],
    [t_passed], [n_logic_updates]) are left out, none of the functions below
    reads them; [rng] is quad-rand's global generator state. *)
Record GameState := mkGameState {
  player : Player;
  enemies : list Enemy;
  projectiles : list Projectile;
  state : GameStateEnum;
  next_state : option GameStateEnum;
  wave : Z;  (* u32 *)
  roto_manager : RotoScriptManager;
  error_message : option String.string;
  paused : bool;
  visual_config : GameVisualConfig;
  game_constants : GameConstants;
  basic_enemy_stats : EntityStats;
  chaser_enemy_stats : EntityStats;
  next_entity_id : Z;  (* u64 *)
  enemies_to_despawn : list Z;      (* HashSet<EntityId> *)
  projectiles_to_despawn : list Z;  (* HashSet<EntityId> *)
  rng : nat
}.

Definition set_player gs v := let 'mkGameState _ a b c d e f g h i j k l m n o p := gs in
  mkGameState v a b c d e f g h i j k l m n o p.
Definition set_enemies gs v := let 'mkGameState z _ b c d e f g h i j k l m n o p := gs in
  mkGameState z v b c d e f g h i j k l m n o p.
Definition set_projectiles gs v := let 'mkGameState z a _ c d e f g h i j k l m n o p := gs in
  mkGameState z a v c d e f g h i j k l m n o p.
Definition set_state gs v := let 'mkGameState z a b _ d e f g h i j k l m n o p := gs in
  mkGameState z a b v d e f g h i j k l m n o p.
Definition set_next_state gs v := let 'mkGameState z a b c _ e f g h i j k l m n o p := gs in
  mkGameState z a b c (Some v) e f g h i j k l m n o p.
Definition set_wave gs v := let 'mkGameState z a b c d _ f g h i j k l m n o p := gs in
  mkGameState z a b c d v f g h i j k l m n o p.
Definition set_roto_manager gs v := let 'mkGameState z a b c d e _ g h i j k l m n o p := gs in
  mkGameState z a b c d e v g h i j k l m n o p.
Definition set_error_message gs v := let 'mkGameState z a b c d e f _ h i j k l m n o p := gs in
  mkGameState z a b c d e f v h i j k l m n o p.
Definition set_visual_config gs v := let 'mkGameState z a b c d e f g h _ j k l m n o p := gs in
  mkGameState z a b c d e f g h v j k l m n o p.
Definition set_game_constants gs v := let 'mkGameState z a b c d e f g h i _ k l m n o p := gs in
  mkGameState z a b c d e f g h i v k l m n o p.
Definition set_basic_enemy_stats gs v := let 'mkGameState z a b c d e f g h i j _ l m n o p := gs in
  mkGameState z a b c d e f g h i j v l m n o p.
Definition set_chaser_enemy_stats gs v := let 'mkGameState z a b c d e f g h i j k _ m n o p := gs in
  mkGameState z a b c d e f g h i j k v m n o p.
Definition set_next_entity_id gs v := let 'mkGameState z a b c d e f g h i j k l _ n o p := gs in
  mkGameState z a b c d e f g h i j k l v n o p.
Definition set_enemies_to_despawn gs v := let 'mkGameState z a b c d e f g h i j k l m _ o p := gs in
  mkGameState z a b c d e f g h i j k l m v o p.
Definition set_projectiles_to_despawn gs v := let 'mkGameState z a b c d e f g h i j k l m n _ p := gs in
  mkGameState z a b c d e f g h i j k l m n v p.
Definition set_rng gs v := let 'mkGameState z a b c d e f g h i j k l m n o _ := gs in
  mkGameState z a b c d e f g h i j k l m n o v.

(** [HashSet<EntityId>]: [insert] and [contains]. *)
Definition hs_contains (s : list Z) (x : Z) : bool := existsb (Z.eqb x) s.
Definition hs_insert (s : list Z) (x : Z) : list Z :=
  if hs_contains s x then s else s ++ [x].

(** [rand::gen_range] on [f32] and on integers [0..2]; both consume one draw. *)
Definition gen_range (env : Env) (gs : GameState) (lo hi : R) : R * GameState :=
  (lo + (hi - lo) * rand_draw env (rng gs), set_rng gs (S (rng gs))).
Definition gen_range_0_2 (env : Env) (gs : GameState) : Z * GameState :=
  ((if Rlt_dec (rand_draw env (rng gs)) (1 / 2) then 0 else 1)%Z,
   set_rng gs (S (rng gs))).

Definition is_in_bounds (env : Env) (p : Vec2) (margin : R) : bool :=
  let w := screen_width env in
  let h := screen_height env in
  if Rle_dec (- margin) (vx p) then
    if Rle_dec (vx p) (w + margin) then
      if Rle_dec (- margin) (vy p) then
        if Rle_dec (vy p) (h + margin) then true else false
      else false
    else false
  else false.

Definition despawn_projectiles_out_of_bounds (env : Env) (gs : GameState)
  : GameState :=
  let margin := out_of_bounds_margin (game_constants gs) in
  let marked :=
    fold_left (fun s (p : Projectile) =>
      match projectile_type p with
      | PEnergyBall | PHomingMissile =>
          if negb (is_in_bounds env (p_pos p) margin) then hs_insert s (p_id p)
          else s
      | PPulse => s
      end) (projectiles gs) (projectiles_to_despawn gs) in
  set_projectiles_to_despawn gs marked.

Definition reload_roto_script_internal (gs : GameState) : GameState * result unit :=
  let m := roto_manager gs in
  match get_player_stats m with
  | Err e => (gs, Err e)
  | Ok ps =>
  let gs := set_player gs (override_stats (player gs) ps) in
  match get_game_constants m with
  | Err e => (gs, Err e)
  | Ok gc =>
  let gs := set_game_constants gs gc in
  match get_enemy_stats m Basic with
  | Err e => (gs, Err e)
  | Ok bs =>
  let gs := set_basic_enemy_stats gs bs in
  match get_enemy_stats m Chaser with
  | Err e => (gs, Err e)
  | Ok cs =>
  let gs := set_chaser_enemy_stats gs cs in
  let gs := set_enemies gs
    (map (fun e => Enemy_override_stats e
            (match enemy_type e with
             | Basic => basic_enemy_stats gs
             | Chaser => chaser_enemy_stats gs
             end)) (enemies gs)) in
  match get_visual_config m with
  | Err e => (gs, Err e)
  | Ok vc =>
  let gs := set_visual_config gs vc in
  let gs := set_player gs (override_visual_config (player gs) (gv_player vc)) in
  (gs, Ok tt)
  end end end end end.

(** [reload_roto_scripts]; [reloaded] is the manager after
    [self.roto_manager.reload()], i.e. the script now on disk. *)
Definition reload_roto_scripts (gs : GameState) (reloaded : RotoScriptManager)
  : GameState :=
  let gs := set_roto_manager gs reloaded in
  match reload_roto_script_internal gs with
  | (gs, Ok _) => set_error_message (set_next_state gs Playing) None
  | (gs, Err err) => set_error_message (set_next_state gs ScriptError) (Some err)
  end.

Definition spawn_projectile (gs : GameState) (t : ProjectileType) (pos vel : Vec2)
  : option GameState :=
  let id := next_entity_id gs in
  nid <- add_u64 id 1 ;;
  let gs := set_next_entity_id gs nid in
  let stats := ProjectileStats_from t in
  let vc := match t with
            | PEnergyBall => gv_energy_ball (visual_config gs)
            | PPulse => gv_pulse (visual_config gs)
            | PHomingMissile => gv_homing_missile (visual_config gs)
            end in
  let projectile :=
    match t with
    | PEnergyBall =>
        mkProjectile id pos (vscale (normalize vel) (speed stats)) PEnergyBall
          stats (time_to_live stats) pos vc
    | PPulse =>
        mkProjectile id pos Vec2_ZERO PPulse stats (time_to_live stats) pos vc
    | PHomingMissile =>
        mkProjectile id pos (vscale (normalize vel) (speed stats)) PHomingMissile
          stats (time_to_live stats) pos vc
    end in
  Some (set_projectiles gs (projectiles gs ++ [projectile])).

Definition spawn_enemy (env : Env) (gs : GameState) (t : EnemyType) (pos : Vec2)
  : option (GameState * result unit) :=
  let id := next_entity_id gs in
  nid <- add_u64 id 1 ;;
  let gs := set_next_entity_id gs nid in
  let stats := match t with
               | Basic => basic_enemy_stats gs
               | Chaser => chaser_enemy_stats gs
               end in
  let vc := match t with
            | Basic => gv_basic_enemy (visual_config gs)
            | Chaser => gv_chaser_enemy (visual_config gs)
            end in
  let off := spawn_target_offset (game_constants gs) in
  let '(rx, gs) := gen_range env gs (- off) off in
  let tx := screen_width env / 2 + rx in
  let '(ry, gs) := gen_range env gs (- off) off in
  let ty := screen_height env / 2 + ry in
  let target := mkVec2 tx ty in
  let dir := normalize (vsub target pos) in
  let '(spd, gs) := gen_range env gs 1 (max_speed stats) in
  let vel := vscale dir spd in
  let enemy := mkEnemy id pos vel t stats vc in
  Some (set_enemies gs (enemies gs ++ [enemy]), Ok tt).

Definition execute_spawn_commands (env : Env) (gs : GameState)
  (commands : list SpawnCommand) : option GameState :=
  fold_left (fun ogs command =>
    gs <- ogs ;;
    match command with
    | SpawnProjectile projectile_type pos vel _ =>
        spawn_projectile gs projectile_type pos vel
    | SpawnEnemy enemy_type pos =>
        r <- spawn_enemy env gs enemy_type pos ;;
        Some (fst r)  (* an [Err] is only printed *)
    end) commands (Some gs).

Definition process_despawns (gs : GameState) : option GameState :=
  let enemies_killed := as_u32 (List.length (enemies_to_despawn gs)) in
  gs <- (if (0 <? enemies_killed)%Z then
           r <- add_xp (player gs) enemies_killed ;;
           let gs := set_player gs (fst r) in
           Some (if snd r then set_next_state gs WeaponSelection else gs)
         else Some gs) ;;
  let gs := set_enemies gs
    (filter (fun e => negb (hs_contains (enemies_to_despawn gs) (e_id e)))
       (enemies gs)) in
  let gs := set_projectiles gs
    (filter (fun p => negb (hs_contains (projectiles_to_despawn gs) (p_id p)))
       (projectiles gs)) in
  Some (set_projectiles_to_despawn (set_enemies_to_despawn gs []) []).

(** [self.next_state.take()]. *)
Definition take_next_state (gs : GameState) : GameState :=
  let 'mkGameState z a b c _ e f g h i j k l m n o p := gs in
  mkGameState z a b c None e f g h i j k l m n o p.

(** The player-enemy part of [check_collisions]. *)
Definition check_player_enemy_collisions (gs : GameState) : GameState :=
  let pc := Player.collider (player gs) in
  let pp := pos (player gs) in
  let '(game_over, s) :=
    fold_left (fun '(go, s) (e : Enemy) =>
      if Collision.collided
           (Collision.check_collision pc pp (enemy.collider e) (e_pos e))
      then (true, hs_insert s (e_id e)) else (go, s))
      (enemies gs) (false, enemies_to_despawn gs) in
  let gs := set_enemies_to_despawn gs s in
  if game_over then set_next_state gs GameOver else gs.

Definition check_projectile_enemy_collisions (gs : GameState) : GameState :=
  let '(es, ps) :=
    fold_left (fun acc (p : Projectile) =>
      fold_left (fun '(es, ps) (e : Enemy) =>
        if Collision.collided
             (Collision.check_collision (projectile.collider p) (p_pos p)
                (enemy.collider e) (e_pos e))
        then (hs_insert es (e_id e),
              match projectile_type p with
              | PEnergyBall | PHomingMissile => hs_insert ps (p_id p)
              | PPulse => ps
              end)
        else (es, ps)) (enemies gs) acc)
      (projectiles gs) (enemies_to_despawn gs, projectiles_to_despawn gs) in
  set_projectiles_to_despawn (set_enemies_to_despawn gs es) ps.

(** The body of the double loop of [check_enemy_collisions] for the pair
    [(i, j)], [i < j < len]: both indexings are in range. *)
Definition resolve_enemy_pair (es : list Enemy) (i j : nat) : list Enemy :=
  match nth_error es i, nth_error es j with
  | Some enemy1, Some enemy2 =>
      let pos1 := e_pos enemy1 in
      let vel1 := e_vel enemy1 in
      let pos2 := e_pos enemy2 in
      let vel2 := e_vel enemy2 in
      let collision_data :=
        Collision.check_collision (enemy.collider enemy1) pos1
          (enemy.collider enemy2) pos2 in
      if Collision.collided collision_data then
        let normal := Collision.normal collision_data in
        let rel_vel := vsub vel1 vel2 in
        let vel_along_normal := vdot rel_vel normal in
        if Rlt_dec vel_along_normal 0 then
          let impulse := vscale normal vel_along_normal in
          let es := replace_nth es i (enemy.set_vel enemy1 (vsub vel1 impulse)) in
          replace_nth es j (enemy.set_vel enemy2 (vadd vel2 impulse))
        else es
      else es
  | _, _ => es
  end.

Definition enemy_collision_loop (es : list Enemy) : list Enemy :=
  let num_enemies := List.length es in
  fold_left (fun es i =>
    fold_left (fun es j => resolve_enemy_pair es i j)
      (seq (S i) (num_enemies - S i)) es)
    (seq 0 num_enemies) es.

Definition check_enemy_collisions (gs : GameState) : GameState :=
  set_enemies gs (enemy_collision_loop (enemies gs)).

Definition check_collisions (gs : GameState) : GameState :=
  check_enemy_collisions
    (check_projectile_enemy_collisions (check_player_enemy_collisions gs)).

Definition check_player_bounds (env : Env) (gs : GameState) : GameState :=
  let w := screen_width env in
  let h := screen_height env in
  let p := pos (player gs) in
  if Rlt_dec (vx p) 0 then set_next_state gs GameOver
  else if Rlt_dec w (vx p) then set_next_state gs GameOver
  else if Rlt_dec (vy p) 0 then set_next_state gs GameOver
  else if Rlt_dec h (vy p) then set_next_state gs GameOver
  else gs.

Definition despawn_enemies_out_of_bounds (env : Env) (gs : GameState)
  : GameState :=
  let margin := out_of_bounds_margin (game_constants gs) in
  set_enemies_to_despawn gs
    (fold_left (fun s (e : Enemy) =>
       if negb (is_in_bounds env (e_pos e) margin) then hs_insert s (e_id e)
       else s) (enemies gs) (enemies_to_despawn gs)).

(** [apply_next_state]; [t_prev] is the frame-timing field it writes, [now]
    what [get_time()] answers. *)
Definition apply_next_state (env : Env) (now : R) (gs : GameState) (t_prev : R)
  : GameState * R :=
  match next_state gs with
  | Some ns =>
      let gs := take_next_state gs in
      let t_prev := match ns with Playing => now | _ => t_prev end in
      let gs := match ns with
                | GameOver =>
                    set_player gs (Player.reset (player gs)
                      (screen_width env / 2) (screen_height env / 2))
                | _ => gs
                end in
      (set_state gs ns, t_prev)
  | None => (gs, t_prev)
  end.

(** [crate::DT] of main.rs. *)
Definition DT : R := 1 / 30.

(** The frame-timing fields of [GameState]. *)
Record Timing := mkTiming {
  t_frame : R;
  t_prev : R;
  t_passed : R;
  n_logic_updates : Z  (* u32 *)
}.

(** [while self.t_passed >= DT { self.t_passed -= DT;
    self.n_logic_updates += 1; }], [None] for the overflow panic. *)
Inductive logic_steps : R -> Z -> option (R * Z) -> Prop :=
| ls_done t n : t < DT -> logic_steps t n (Some (t, n))
| ls_step t n r : DT <= t -> (n + 1 <= U32_MAX)%Z ->
    logic_steps (t - DT) (n + 1) r -> logic_steps t n r
| ls_overflow t n : DT <= t -> (U32_MAX < n + 1)%Z -> logic_steps t n None.

(** [update_time_for_logic] with [now = get_time()]: the new timing fields
    and the returned count. *)
Inductive update_time_for_logic (now : R) : Timing -> option (Timing * Z) -> Prop :=
| ut_done tm t' n :
    logic_steps (t_passed tm + (now - t_prev tm)) (n_logic_updates tm) (Some (t', n)) ->
    update_time_for_logic now tm
      (Some (mkTiming now now t' (if (0 <? n)%Z then 0%Z else n), n))
| ut_panic tm :
    logic_steps (t_passed tm + (now - t_prev tm)) (n_logic_updates tm) None ->
    update_time_for_logic now tm None.

End GameState.

(** ** gamestate/weapon_selection.rs *)

Module weapon_selection.
Import Weapon Player GameState.

(** [Iterator::position]. *)
Fixpoint position {A} (f : A -> bool) (l : list A) : option nat :=
  match l with
  | [] => None
  | x :: l' => if f x then Some O
               else match position f l' with
                    | Some i => Some (S i)
                    | None => None
                    end
  end.

Definition handle_weapon_selection (gs : GameState) (weapon_type : WeaponType)
  : option GameState :=
  let weapons := weapons (player gs) in
  match position (fun w => WeaponType_eqb (Weapon.weapon_type w) weapon_type)
          weapons with
  | Some index =>
      p <- level_up_weapon (player gs) index ;;
      Some (set_next_state (set_player gs p) Playing)
  | None =>
      if (List.length weapons <? 3)%nat then
        Some (set_next_state (set_player gs (add_weapon (player gs) weapon_type))
                Playing)
      else Some gs
  end.

End weapon_selection.

(** ** gamestate/playing.rs *)

Module playing.
Import GameState.

Definition get_spawn_position (env : Env) (gs : GameState) : (R * R) * GameState :=
  let w := screen_width env in
  let h := screen_height env in
  let '(k, gs) := gen_range_0_2 env gs in
  let '(x, gs) :=
    if (k =? 0)%Z then
      let '(k2, gs) := gen_range_0_2 env gs in
      ((if (k2 =? 0)%Z then 0 else w), gs)
    else gen_range env gs 0 w in
  let '(y, gs) :=
    if Req_dec_T x 0 then gen_range env gs 0 h
    else if Req_dec_T x w then gen_range env gs 0 h
    else
      let '(k3, gs) := gen_range_0_2 env gs in
      ((if (k3 =? 0)%Z then 0 else h), gs) in
  ((x, y), gs).

(** [for _ in 0..n { let (x, y) = get_spawn_position(w, h);
    gs.spawn_enemy(t, Vec2::new(x, y))?; }] *)
Fixpoint spawn_n (env : Env) (gs : GameState) (t : EnemyType) (n : nat)
  : option (GameState * result unit) :=
  match n with
  | O => Some (gs, Ok tt)
  | S n' =>
      let '((x, y), gs) := get_spawn_position env gs in
      r <- spawn_enemy env gs t (mkVec2 x y) ;;
      match r with
      | (gs, Err e) => Some (gs, Err e)
      | (gs, Ok _) => spawn_n env gs t n'
      end
  end.

Definition spawn_wave (env : Env) (gs : GameState) (config : WaveConfig)
  : option (GameState * result unit) :=
  r <- spawn_n env gs Basic (Z.to_nat (basic_enemy_count config)) ;;
  match r with
  | (gs, Err e) => Some (gs, Err e)
  | (gs, Ok _) => spawn_n env gs Chaser (Z.to_nat (chaser_enemy_count config))
  end.

(** The wave part of [playing::process]. *)
Definition process_wave (env : Env) (gs : GameState) : option GameState :=
  match enemies gs with
  | [] =>
      match get_wave_config (roto_manager gs) (wave gs) with
      | Ok config =>
          r <- spawn_wave env gs config ;;
          match r with
          | (gs, Err err) =>
              Some (set_error_message (set_state gs ScriptError) (Some err))
          | (gs, Ok _) =>
              w <- add_u32 (wave gs) 1 ;; Some (set_wave gs w)
          end
      | Err err => Some (set_error_message (set_state gs ScriptError) (Some err))
      end
  | _ => Some gs
  end.

(** The expiry pass of [update_logic]. *)
Definition mark_expired (gs : GameState) : GameState :=
  set_projectiles_to_despawn gs
    (fold_left (fun s (p : Projectile) =>
       if projectile.is_expired p then hs_insert s (p_id p) else s)
       (projectiles gs) (projectiles_to_despawn gs)).

Definition update_logic (env : Env) (gs : GameState) : option GameState :=
  let dt := DT in
  let '(p, spawn_commands) := Player.update (player gs) dt in
  let gs := set_player gs p in
  gs <- execute_spawn_commands env gs spawn_commands ;;
  let player_pos := Player.pos (player gs) in
  let gs := set_enemies gs
    (map (fun e => enemy.update e (Some player_pos)) (enemies gs)) in
  let gs := set_projectiles gs
    (map (fun p => projectile.update_homing (projectile.update p dt) dt (enemies gs))
       (projectiles gs)) in
  let gs := mark_expired gs in
  let gs := despawn_projectiles_out_of_bounds env gs in
  let gs := despawn_enemies_out_of_bounds env gs in
  let gs := check_collisions gs in
  let gs := check_player_bounds env gs in
  process_despawns gs.

End playing.

(** ** Contacts where the two argument orders give the same fixed normal,
    read off the branches of [circle_circle] and [rect_rect]: two circles
    that touch with centres at most [EPS] apart (both calls answer
    [(1, 0)]), and two rectangles that touch and resolve along an axis on
    which their centres agree (a zero offset gives [-1] both ways). *)


(** ** Weapons the program can build: created by [Weapon::new], then
    levelled up, updated and fired. *)

Inductive reachable_weapon : Weapon.Weapon -> Prop :=
| rw_new t : reachable_weapon (Weapon.new t)
| rw_level_up w w' : reachable_weapon w -> Weapon.level_up w = Some w' ->
    reachable_weapon w'
| rw_update w dt : reachable_weapon w -> reachable_weapon (Weapon.update w dt)
| rw_fire w p f : reachable_weapon w ->
    reachable_weapon (fst (Weapon.fire w p f)).

(** ** Quantities the properties speak of *)

(** Sums over a list of velocities: the total velocity (momentum for equal
    masses) and the sum of squared speeds (twice the kinetic energy). *)
Definition vsum (l : list Vec2) : Vec2 := fold_right vadd Vec2_ZERO l.
Definition kinetic (l : list Vec2) : R := fold_right Rplus 0 (map length_squared l).

(** Colliders with non-negative sizes, as [f32::clamp] in [circle_rect]
    requires. *)
Definition collider_nonneg (c : Collision.Collider) : Prop :=
  match c with
  | Collision.Circle r => 0 <= r
  | Collision.Rect w h => 0 <= w /\ 0 <= h
  end.

(** The entity ids of a game state are distinct and below the counter
    [next_entity_id]. *)
Definition entity_ids (gs : GameState.GameState) : list Z :=
  map e_id (GameState.enemies gs) ++ map p_id (GameState.projectiles gs).
Definition fresh_ids (gs : GameState.GameState) : Prop :=
  NoDup (entity_ids gs) /\
  Forall (fun x => (x < GameState.next_entity_id gs)%Z) (entity_ids gs).

(** ** Sample values (the screen and a game state at the start of a run) *)

Module Samples.
Import Weapon Player GameState String.

Definition c0 : ColorConfig := mkColorConfig 0 0 0 1.
Definition pvc0 : ProjectileVisualConfig := mkProjectileVisualConfig c0 c0 c0.
Definition evc0 : EnemyVisualConfig := mkEnemyVisualConfig c0 c0 1.
Definition plvc0 : PlayerVisualConfig := mkPlayerVisualConfig c0 c0 1.
Definition gvc0 : GameVisualConfig :=
  mkGameVisualConfig plvc0 evc0 evc0 pvc0 pvc0 pvc0 (mkBlendConfig c0 c0).

Definition player_stats0 : EntityStats := mkEntityStats 20 5 1 (9 / 10).
Definition basic_stats0 : EntityStats := mkEntityStats 15 3 (1 / 2) (95 / 100).
Definition chaser_stats0 : EntityStats := mkEntityStats 12 4 (8 / 10) (95 / 100).
Definition constants0 : GameConstants := mkGameConstants 50 100.

Definition roto0 : RotoScriptManager :=
  mkRotoScriptManager (Ok player_stats0) (Ok constants0)
    (fun t => Ok (match t with Basic => basic_stats0 | Chaser => chaser_stats0 end))
    (Ok gvc0) (fun _ => Ok (mkWaveConfig 2 1)).

Definition env0 : Env := mkEnv 800 600 (fun _ => 1 / 4).

Definition player0 : Player :=
  mkPlayer (mkVec2 400 300) Vec2_ZERO (mkVec2 1 0) player_stats0 [] plvc0 0 0.

Definition gs0 : GameState :=
  mkGameState player0 [] [] Playing None 0 roto0 None false gvc0 constants0
    basic_stats0 chaser_stats0 0 [] [] 0.

(** A player owning an energy ball and a pulse weapon. *)
Definition player_two_weapons : Player :=
  mkPlayer (mkVec2 400 300) Vec2_ZERO (mkVec2 1 0) player_stats0
    [Weapon.new EnergyBall; Weapon.new Pulse] plvc0 0 0.
Definition gs_two_weapons : GameState := set_player gs0 player_two_weapons.

(** A player left of the screen, one experience point short of level 1,
    touching a Basic enemy. *)
Definition player_off : Player :=
  mkPlayer (mkVec2 (-10) 300) Vec2_ZERO (mkVec2 1 0) player_stats0 [] plvc0 4 0.
Definition enemy_at_player : Enemy :=
  mkEnemy 0 (mkVec2 (-10) 300) Vec2_ZERO Basic basic_stats0 evc0.
Definition gs_off_kill : GameState :=
  mkGameState player_off [enemy_at_player] [] Playing None 0 roto0 None false gvc0
    constants0 basic_stats0 chaser_stats0 1 [] [] 0.

(** An energy ball and a pulse, both 100 units left of the screen. *)
Definition ball_out : Projectile :=
  mkProjectile 0 (mkVec2 (-100) 0) Vec2_ZERO PEnergyBall energy_ball_default 2
    (mkVec2 (-100) 0) pvc0.
Definition pulse_out : Projectile :=
  mkProjectile 1 (mkVec2 (-100) 0) Vec2_ZERO PPulse pulse_default (3 / 10)
    (mkVec2 (-100) 0) pvc0.
Definition gs_oob : GameState := set_projectiles gs0 [ball_out; pulse_out].

(** A script whose [get_game_constants] function is missing, with other
    player stats than [gs0]'s. *)
Definition player_stats1 : EntityStats := mkEntityStats 25 6 1 (9 / 10).
Definition err_missing_constants : String.string :=
  "ERROR: get_game_constants function not found"%string.
Definition roto_missing_constants : RotoScriptManager :=
  mkRotoScriptManager (Ok player_stats1) (Err err_missing_constants)
    (get_enemy_stats roto0) (get_visual_config roto0) (get_wave_config roto0).

(** Fifteen enemies despawned in one batch. *)
Definition gs_fifteen_kills : GameState :=
  set_enemies_to_despawn gs0 (map Z.of_nat (seq 0 15)).

(** The damage a spawn request carries. *)
Definition cmd_damage (c : SpawnCommand) : R :=
  match c with
  | SpawnProjectile _ _ _ s => damage s
  | SpawnEnemy _ _ => 0
  end.

End Samples.

(** * Properties *)

(** ** Field access through the setters of [GameState] *)

Module Setters.
Import Player GameState.

Lemma player_set_next_state gs v : player (set_next_state gs v) = player gs.
Proof. destruct gs; reflexivity. Qed.
Lemma player_set_player gs v : player (set_player gs v) = v.
Proof. destruct gs; reflexivity. Qed.

End Setters.

(** ** Player progression *)

Module PlayerFacts.
Import Weapon Player GameState Samples.
Open Scope Z_scope.

Lemma xp_loop_sum (n : nat) : forall i total,
  0 <= total -> 1 <= i ->
  2 * total + 5 * (2 * Z.of_nat n * i + Z.of_nat n * (Z.of_nat n - 1))
    <= 2 * U32_MAX ->
  exists t, xp_loop i n total = Some t /\
    2 * t = 2 * total + 5 * (2 * Z.of_nat n * i + Z.of_nat n * (Z.of_nat n - 1)).
Proof.
  induction n as [|n IH]; intros i total Ht Hi Hb.
  - exists total. simpl. split; [reflexivity | lia].
  - rewrite Nat2Z.inj_succ in *. cbn [xp_loop]. unfold mul_u32, add_u32, obind.
    destruct (Z.leb_spec (5 * i) U32_MAX) as [H5|H5]; [|nia].
    destruct (Z.leb_spec (total + 5 * i) U32_MAX) as [H6|H6]; [|nia].
    destruct (IH (i + 1) (total + 5 * i)) as [t [Ht1 Ht2]]; [lia | lia | nia |].
    exists t. split; [exact Ht1 | nia].
Qed.

Lemma xp_for_level_closed (L : Z) :
  0 <= L <= 41448 -> xp_for_level L = Some (5 * L * (L + 1) / 2).
Proof.
  intros HL. unfold xp_for_level.
  destruct (Z.eqb_spec L 0) as [->|H0]; [reflexivity|].
  destruct (xp_loop_sum (Z.to_nat L) 1 0) as [t [Ht1 Ht2]];
    rewrite ?Z2Nat.id by lia; [lia | lia | unfold U32_MAX; nia |].
  rewrite Ht1. f_equal.
  rewrite Z2Nat.id in Ht2 by lia.
  replace (5 * L * (L + 1)) with (t * 2) by lia.
  rewrite Z.div_mul by lia. reflexivity.
Qed.

Lemma xp_loop_add (a : nat) : forall b i total,
  xp_loop i (a + b) total = (t <- xp_loop i a total ;; xp_loop (i + Z.of_nat a) b t).
Proof.
  induction a as [|a IH]; intros b i total.
  - cbn. rewrite Z.add_0_r. reflexivity.
  - cbn [Nat.add xp_loop obind].
    destruct (mul_u32 5 i) as [m|]; cbn [obind]; [|reflexivity].
    destruct (add_u32 total m) as [t|]; cbn [obind]; [|reflexivity].
    rewrite IH. replace (i + Z.of_nat (S a)) with (i + 1 + Z.of_nat a) by lia.
    reflexivity.
Qed.

Lemma xp_for_level_above (L : Z) : 41448 < L -> xp_for_level L = None.
Proof.
  intros HL. unfold xp_for_level.
  destruct (Z.eqb_spec L 0) as [H0|_]; [lia|].
  replace (Z.to_nat L) with (Z.to_nat 41449 + Z.to_nat (L - 41449))%nat
    by (rewrite <- Z2Nat.inj_add by lia; f_equal; lia).
  rewrite xp_loop_add.
  assert (H : xp_loop 1 (Z.to_nat 41449) 0 = None) by (vm_compute; reflexivity).
  rewrite H. reflexivity.
Qed.

(** C5 (amended): for every level [L] whose threshold fits in a [u32]
    ([L <= 41448]), [xp_for_level L] is the closed form [5 * L * (L + 1) / 2];
    for every larger [L] the running sum overflows [u32] (a panic, [None]);
    the thresholds of levels 1, 2 and 3 are 5, 15 and 30. *)
Theorem xp_for_level_triangular (L : Z) (HL : 0 <= L) :
  (L <= 41448 -> xp_for_level L = Some (5 * L * (L + 1) / 2)) /\
  (41448 < L -> xp_for_level L = None) /\
  xp_for_level 1 = Some 5 /\ xp_for_level 2 = Some 15 /\
  xp_for_level 3 = Some 30.
Proof.
  split; [intros H; apply xp_for_level_closed; lia|].
  split; [apply xp_for_level_above|].
  repeat split; reflexivity.
Qed.

Lemma xp_for_level_triangular_witness :
  (0 <= 3) /\ xp_for_level 3 = Some (5 * 3 * (3 + 1) / 2) /\
  (0 <= 50000) /\ xp_for_level 50000 = None.
Proof.
  split; [lia|].
  split; [apply (proj1 (xp_for_level_triangular 3 ltac:(lia))); lia|].
  split; [lia|].
  apply (proj1 (proj2 (xp_for_level_triangular 50000 ltac:(lia)))); lia.
Defined.

(** C5 (counterexample): at level 41449 the loop of [xp_for_level]
    overflows [u32] (a panic), so the closed form is not returned. *)
Lemma xp_for_level_overflow :
  xp_for_level 41449 = None /\ xp_for_level 41449 <> Some (5 * 41449 * 41450 / 2).
Proof.
  assert (H : xp_for_level 41449 = None) by (vm_compute; reflexivity).
  split; [exact H|]. rewrite H. discriminate.
Qed.

Lemma add_xp_level (p : Player) (amount : Z) (p' : Player) (b : bool) :
  add_xp p amount = Some (p', b) ->
  level p' = level p + (if b then 1 else 0).
Proof.
  unfold add_xp, obind.
  destruct (add_u32 (xp p) amount) as [x|]; [|discriminate].
  destruct (xp_for_next_level _) as [th|]; [|discriminate].
  cbn [xp level set_xp_level].
  destruct (th <=? x).
  - unfold add_u32. destruct (level p + 1 <=? U32_MAX); [|discriminate].
    intros H; injection H as <- <-. reflexivity.
  - intros H; injection H as <- <-. cbn. lia.
Qed.

(** C6: one [add_xp] call raises the level by at most one, whatever the
    amount; so one despawn batch ([process_despawns]) raises the player's
    level by at most one and requests at most the single transition to
    [WeaponSelection]. *)
Theorem process_despawns_single_level_up (gs gs' : GameState)
  (H : process_despawns gs = Some gs') :
  (forall p amount p' b, add_xp p amount = Some (p', b) ->
     level p <= level p' <= level p + 1) /\
  level (player gs) <= level (player gs') <= level (player gs) + 1 /\
  (next_state gs' = next_state gs \/ next_state gs' = Some WeaponSelection).
Proof.
  split.
  { intros p amount p' b Hx. apply add_xp_level in Hx. destruct b; lia. }
  revert H. unfold process_despawns, obind.
  destruct (0 <? as_u32 _).
  - destruct (add_xp (player gs) _) as [[p' b]|] eqn:E; [|discriminate].
    apply add_xp_level in E.
    intros H; injection H as <-.
    destruct gs; destruct b; cbn in *; split; try lia; auto.
  - intros H; injection H as <-. destruct gs; cbn. split; [lia | auto].
Qed.

Lemma process_despawns_single_level_up_witness :
  exists gs', process_despawns gs_fifteen_kills = Some gs' /\
    xp (player gs') = 15 /\ level (player gs') = 1 /\
    level (player gs') <= level (player gs_fifteen_kills) + 1.
Proof.
  destruct (process_despawns gs_fifteen_kills) as [gs'|] eqn:E.
  - exists gs'. split; [reflexivity|].
    pose proof (proj1 (proj2 (process_despawns_single_level_up _ _ E))) as Hl.
    vm_compute in E. injection E as <-. vm_compute. repeat split; congruence.
  - vm_compute in E. discriminate E.
Defined.

End PlayerFacts.

(** ** Weapon selection *)

Module WeaponSelectionFacts.
Import Weapon Player GameState weapon_selection Samples Setters.

Lemma level_up_weapon_type (w w' : Weapon) :
  Weapon.level_up w = Some w' -> Weapon.weapon_type w' = Weapon.weapon_type w.
Proof.
  destruct w as [t l c s]. unfold Weapon.level_up, obind. cbn.
  destruct (add_u32 l 1) as [lvl|]; [|discriminate].
  destruct t; destruct (5 <=? lvl)%Z;
    repeat match goal with
           | |- context [add_u32 ?a ?b] => destruct (add_u32 a b)
           end;
    try discriminate; intros H; injection H as <-; reflexivity.
Qed.

Lemma position_some {A} (f : A -> bool) (l : list A) (i : nat) :
  position f l = Some i -> exists x, nth_error l i = Some x /\ f x = true.
Proof.
  revert i. induction l as [|x l IH]; intros i; cbn; [discriminate|].
  destruct (f x) eqn:Fx.
  - intros H; injection H as <-. exists x. auto.
  - destruct (position f l) as [j|] eqn:E; [|discriminate].
    intros H; injection H as <-. exact (IH j eq_refl).
Qed.

Lemma position_none {A} (f : A -> bool) (l : list A) :
  position f l = None -> forall x, In x l -> f x = false.
Proof.
  induction l as [|y l IH]; cbn; [tauto|].
  destruct (f y) eqn:Fy; [discriminate|].
  destruct (position f l); [discriminate|].
  intros _ x [<-|Hx]; [exact Fy | exact (IH eq_refl x Hx)].
Qed.

Lemma map_replace_nth {A B} (g : A -> B) (l : list A) (i : nat) (x a : A) :
  nth_error l i = Some x -> g a = g x -> map g (replace_nth l i a) = map g l.
Proof.
  revert i. induction l as [|y l IH]; intros [|i]; cbn; try discriminate.
  - intros H; injection H as ->. intros ->. reflexivity.
  - intros H Hg. f_equal. exact (IH i H Hg).
Qed.

Lemma WeaponType_eqb_true (a b : WeaponType) : WeaponType_eqb a b = true <-> a = b.
Proof. unfold WeaponType_eqb. destruct (WeaponType_eq_dec a b); split; congruence. Qed.

(** C9: from a weapons list of length at most 3 without a repeated
    [WeaponType], a selection either upgrades the owned weapon of that type
    (the list of types is unchanged) or appends a new weapon when the type
    is absent and fewer than 3 are owned; the list keeps length at most 3
    and no repeated type. *)
Theorem handle_weapon_selection_invariant (gs gs' : GameState) (t : WeaponType)
  (H : handle_weapon_selection gs t = Some gs')
  (Hlen : (List.length (weapons (player gs)) <= 3)%nat)
  (Hnd : NoDup (map Weapon.weapon_type (weapons (player gs)))) :
  let ts := map Weapon.weapon_type (weapons (player gs)) in
  let ts' := map Weapon.weapon_type (weapons (player gs')) in
  (List.length (weapons (player gs')) <= 3)%nat /\ NoDup ts' /\
  (ts' = ts \/
   (~ In t ts /\ (List.length (weapons (player gs)) < 3)%nat /\ ts' = ts ++ [t])).
Proof.
  cbv zeta. revert H. unfold handle_weapon_selection.
  destruct (position _ _) as [i|] eqn:Ep.
  - destruct (position_some _ _ _ Ep) as [w [Hw Ht]].
    apply WeaponType_eqb_true in Ht.
    unfold level_up_weapon. rewrite Hw. cbn.
    destruct (Weapon.level_up w) as [w'|] eqn:El; [|discriminate].
    apply level_up_weapon_type in El.
    intros H; injection H as <-.
    rewrite player_set_next_state, player_set_player. cbn.
    rewrite (map_replace_nth _ _ _ _ _ Hw El).
    assert (Hl : List.length (replace_nth (weapons (player gs)) i w')
                 = List.length (weapons (player gs))).
    { clear. revert i. induction (weapons (player gs)); intros [|i]; cbn; auto. }
    rewrite Hl. auto.
  - pose proof (position_none _ _ Ep) as Hn.
    assert (Hnot : ~ In t (map Weapon.weapon_type (weapons (player gs)))).
    { intros Hin. apply in_map_iff in Hin as [w [Hwt Hin]].
      specialize (Hn w Hin). cbn in Hn.
      rewrite <- Hwt in Hn. unfold WeaponType_eqb in Hn.
      destruct (WeaponType_eq_dec _ _); congruence. }
    destruct (Nat.ltb_spec (List.length (weapons (player gs))) 3) as [Hl|Hl].
    + intros H; injection H as <-.
      rewrite player_set_next_state, player_set_player. cbn.
      rewrite length_app, map_app. cbn.
      split; [lia|]. split.
      * apply NoDup_app; [exact Hnd | repeat constructor; auto |].
        intros a Ha [<-|[]]. exact (Hnot Ha).
      * right. auto.
    + intros H; injection H as <-. auto.
Qed.

Lemma handle_weapon_selection_invariant_witness :
  exists gs', handle_weapon_selection gs_two_weapons EnergyBall = Some gs' /\
    (List.length (weapons (player gs')) <= 3)%nat /\
    map Weapon.weapon_type (weapons (player gs')) = [EnergyBall; Pulse] /\
    map Weapon.level (weapons (player gs')) = [2; 1]%Z.
Proof.
  destruct (handle_weapon_selection gs_two_weapons EnergyBall) as [gs'|] eqn:E.
  - exists gs'. split; [reflexivity|].
    assert (Hnd : NoDup (map Weapon.weapon_type (weapons (player gs_two_weapons)))).
    { cbn. constructor; [intros [H|[]]; discriminate H|].
      constructor; [intros []| constructor]. }
    destruct (handle_weapon_selection_invariant gs_two_weapons gs' EnergyBall E
                ltac:(cbn; lia) Hnd) as (Hl & _ & Ht).
    split; [exact Hl|]. split.
    + destruct Ht as [Ht|(Hn & _)]; [rewrite Ht; reflexivity|].
      exfalso. apply Hn. cbn. left. reflexivity.
    + cbn in E. injection E as <-. reflexivity.
  - cbn in E. discriminate E.
Defined.

End WeaponSelectionFacts.

(** ** Enemy spawning and wave creation *)

Module SpawnFacts.
Import GameState playing Samples.

Lemma spawn_enemy_result (env : Env) (gs gs' : GameState) (t : EnemyType)
  (pos : Vec2) (r : result unit) :
  spawn_enemy env gs t pos = Some (gs', r) ->
  r = Ok tt /\ state gs' = state gs /\ error_message gs' = error_message gs.
Proof.
  destruct gs. unfold spawn_enemy, obind. cbn.
  destruct (add_u64 _ 1); [|discriminate].
  cbn. intros H; injection H as <- <-. auto.
Qed.

Lemma spawn_enemy_some (env : Env) (gs : GameState) (t : EnemyType) (pos : Vec2) :
  (next_entity_id gs + 1 <= U64_MAX)%Z ->
  exists gs', spawn_enemy env gs t pos = Some (gs', Ok tt).
Proof.
  intros H. unfold spawn_enemy, obind, add_u64.
  rewrite (proj2 (Z.leb_le _ _) H). eexists. reflexivity.
Qed.

Lemma spawn_n_result (env : Env) (t : EnemyType) (n : nat) :
  forall gs gs' r, spawn_n env gs t n = Some (gs', r) ->
  r = Ok tt /\ state gs' = state gs /\ error_message gs' = error_message gs.
Proof.
  induction n as [|n IH]; intros gs gs' r; cbn [spawn_n].
  - intros H; injection H as <- <-. auto.
  - destruct (get_spawn_position env gs) as [[x y] gs1] eqn:Ep.
    assert (Hp : state gs1 = state gs /\ error_message gs1 = error_message gs).
    { revert Ep. destruct gs. unfold get_spawn_position, gen_range_0_2, gen_range.
      cbn.
      repeat (match goal with
              | |- context [Rlt_dec ?a ?b] => destruct (Rlt_dec a b)
              | |- context [Req_dec_T ?a ?b] => destruct (Req_dec_T a b)
              end; cbn);
        intros E; injection E as _ _ <-; auto. }
    unfold obind.
    destruct (spawn_enemy env gs1 t (mkVec2 x y)) as [[gs2 r2]|] eqn:Es;
      [|discriminate].
    apply spawn_enemy_result in Es as [-> [Hs He]].
    destruct Hp as [Hp1 Hp2].
    intros H. destruct (IH _ _ _ H) as [Hr [Hs' He']].
    split; [exact Hr|]. split; congruence.
Qed.

Lemma spawn_wave_result (env : Env) (gs gs' : GameState) (config : WaveConfig)
  (r : result unit) :
  spawn_wave env gs config = Some (gs', r) ->
  r = Ok tt /\ state gs' = state gs /\ error_message gs' = error_message gs.
Proof.
  unfold spawn_wave, obind.
  destruct (spawn_n env gs Basic _) as [[gs1 r1]|] eqn:E1; [|discriminate].
  destruct (spawn_n_result _ _ _ _ _ _ E1) as [-> [Hs He]].
  intros H. destruct (spawn_n_result _ _ _ _ _ _ H) as [Hr [Hs' He']].
  split; [exact Hr|]. split; congruence.
Qed.

(** C10: [spawn_enemy] never produces its [Err] result, for every enemy
    type and position, and returns [Ok] whenever the entity-id counter does
    not overflow; hence when the wave-config lookup succeeds, wave creation
    in [playing::process] never moves the game to [ScriptError] (nor sets an
    error message): only a failing lookup can. *)
Theorem spawn_enemy_never_err (env : Env) (gs : GameState) (t : EnemyType)
  (pos : Vec2) :
  (match spawn_enemy env gs t pos with
   | Some (_, Err _) => False
   | _ => True
   end) /\
  ((next_entity_id gs + 1 <= U64_MAX)%Z ->
   exists gs', spawn_enemy env gs t pos = Some (gs', Ok tt)) /\
  (forall config, get_wave_config (roto_manager gs) (wave gs) = Ok config ->
   match process_wave env gs with
   | Some gs' => state gs' = state gs /\ error_message gs' = error_message gs
   | None => True
   end).
Proof.
  split; [|split].
  - destruct (spawn_enemy env gs t pos) as [[gs' r]|] eqn:E; [|exact I].
    destruct (spawn_enemy_result _ _ _ _ _ _ E) as [-> _]. exact I.
  - apply spawn_enemy_some.
  - intros config Hc. unfold process_wave.
    destruct (enemies gs); [|auto].
    rewrite Hc. unfold obind.
    destruct (spawn_wave env gs config) as [[gs1 r]|] eqn:Es; [|exact I].
    destruct (spawn_wave_result _ _ _ _ _ Es) as [-> [Hs He]].
    unfold add_u32. destruct (_ <=? U32_MAX)%Z; [|exact I].
    destruct gs1; cbn in *. auto.
Qed.

Lemma spawn_enemy_never_err_witness :
  (next_entity_id gs0 + 1 <= U64_MAX)%Z /\
  exists gs', spawn_enemy env0 gs0 Basic (mkVec2 0 0) = Some (gs', Ok tt).
Proof.
  assert (H : (next_entity_id gs0 + 1 <= U64_MAX)%Z) by (vm_compute; discriminate).
  split; [exact H|].
  exact (proj1 (proj2 (spawn_enemy_never_err env0 gs0 Basic (mkVec2 0 0))) H).
Defined.

End SpawnFacts.

(** ** Weapon firing *)

Module WeaponFacts.
Import Weapon.

Lemma level_up_count (w w' : Weapon) :
  level_up w = Some w' ->
  (projectile_count (stats w) <= projectile_count (stats w'))%Z.
Proof.
  destruct w as [t l c [cd n sp ps]]. unfold level_up, obind, add_u32. cbn.
  destruct t;
    repeat (match goal with
            | |- context [(?a <=? ?b)%Z] => destruct (a <=? b)%Z
            end; cbn);
    try discriminate; intros H; injection H as <-; cbn; lia.
Qed.

Lemma fire_stats (w : Weapon) (p f : Vec2) : stats (fst (fire w p f)) = stats w.
Proof. unfold fire. destruct (negb (can_fire w)); reflexivity. Qed.

Lemma update_stats (w : Weapon) (dt : R) : stats (update w dt) = stats w.
Proof. unfold update. destruct (Rlt_dec 0 _); reflexivity. Qed.

Lemma reachable_count (w : Weapon) :
  reachable_weapon w -> (1 <= projectile_count (stats w))%Z.
Proof.
  induction 1 as [t|w w' _ IH Hl|w dt _ IH|w p f _ IH].
  - destruct t; cbn; lia.
  - apply level_up_count in Hl. lia.
  - rewrite update_stats. exact IH.
  - rewrite fire_stats. exact IH.
Qed.

Lemma fan_nonempty (t : ProjectileType) (w : Weapon) (p f : Vec2) :
  (1 <= projectile_count (stats w))%Z -> fan t w p f <> [].
Proof.
  intros Hc H. apply (f_equal (@List.length _)) in H.
  unfold fan in H. rewrite length_map, length_seq in H. cbn in H. lia.
Qed.

Lemma fire_ready (w : Weapon) (p f : Vec2) :
  (1 <= projectile_count (stats w))%Z -> cooldown_remaining w <= 0 ->
  cooldown_remaining (fst (fire w p f)) = cooldown (stats w) /\
  snd (fire w p f) <> [].
Proof.
  intros Hc Hcd. unfold fire, can_fire.
  destruct (Rle_dec (cooldown_remaining w) 0) as [_|Hn]; [|contradiction].
  cbn. split; [reflexivity|].
  destruct w as [t l c s]; cbn in *.
  destruct t; cbn.
  - unfold fire_energy_ball. cbn. destruct (projectile_count s =? 1)%Z;
      [discriminate | apply fan_nonempty; exact Hc].
  - discriminate.
  - unfold fire_homing_missile. cbn. destruct (projectile_count s =? 1)%Z;
      [discriminate | apply fan_nonempty; exact Hc].
Qed.

Lemma fire_cooling (w : Weapon) (p f : Vec2) :
  0 < cooldown_remaining w -> fire w p f = (w, []).
Proof.
  intros Hcd. unfold fire, can_fire.
  destruct (Rle_dec (cooldown_remaining w) 0) as [Hle|_]; [lra | reflexivity].
Qed.

(** C7: for a weapon of the program, [fire] returns no spawn request and
    leaves the weapon (so its timer) unchanged while the timer is positive;
    with the timer [<= 0] it resets the timer to the current [cooldown]
    stat and returns a non-empty list.  A fresh weapon fires on its first
    call, and [update 0] followed by [fire] then returns no request. *)
Theorem weapon_fire_cooldown (w : Weapon) (p f : Vec2)
  (Hr : reachable_weapon w) :
  (0 < cooldown_remaining w -> fire w p f = (w, [])) /\
  (cooldown_remaining w <= 0 ->
   cooldown_remaining (fst (fire w p f)) = cooldown (stats w) /\
   snd (fire w p f) <> []) /\
  (forall t, snd (fire (new t) p f) <> [] /\
     snd (fire (update (fst (fire (new t) p f)) 0) p f) = []).
Proof.
  pose proof (reachable_count w Hr) as Hc.
  split; [apply fire_cooling|].
  split; [apply fire_ready; exact Hc|].
  intros t.
  assert (Hn : cooldown_remaining (new t) <= 0) by (cbn; lra).
  destruct (fire_ready (new t) p f ltac:(destruct t; cbn; lia) Hn) as [Hcd Hne].
  split; [exact Hne|].
  assert (Hpos : 0 < cooldown_remaining (fst (fire (new t) p f))).
  { rewrite Hcd. destruct t; cbn; lra. }
  assert (Hu : cooldown_remaining (update (fst (fire (new t) p f)) 0)
               = cooldown_remaining (fst (fire (new t) p f))).
  { unfold update. destruct (Rlt_dec 0 _) as [_|Hn']; [cbn; lra | contradiction]. }
  rewrite fire_cooling; [reflexivity | rewrite Hu; exact Hpos].
Qed.

Lemma weapon_fire_cooldown_witness :
  reachable_weapon (new EnergyBall) /\
  snd (fire (new EnergyBall) (mkVec2 400 300) (mkVec2 1 0)) <> [].
Proof.
  split; [apply rw_new|].
  exact (proj1 (proj2 (proj2 (weapon_fire_cooldown (new EnergyBall)
    (mkVec2 400 300) (mkVec2 1 0) (rw_new EnergyBall))) EnergyBall)).
Defined.

End WeaponFacts.

(** ** Out-of-bounds despawn pass *)

Module BoundsFacts.
Import GameState Samples.

Lemma hs_contains_insert (s : list Z) (x y : Z) :
  hs_contains (hs_insert s y) x = hs_contains s x || Z.eqb x y.
Proof.
  unfold hs_insert. destruct (hs_contains s y) eqn:E.
  - destruct (Z.eqb_spec x y) as [->|_]; [rewrite E; reflexivity|].
    rewrite orb_false_r. reflexivity.
  - unfold hs_contains. rewrite existsb_app. cbn. rewrite orb_false_r.
    reflexivity.
Qed.

Lemma despawn_pass_contains (env : Env) (gs : GameState) (x : Z) :
  hs_contains (projectiles_to_despawn (despawn_projectiles_out_of_bounds env gs)) x
  = hs_contains (projectiles_to_despawn gs) x ||
    existsb (fun q => Z.eqb x (p_id q) &&
      match projectile_type q with
      | PPulse => false
      | _ => negb (is_in_bounds env (p_pos q)
                     (out_of_bounds_margin (game_constants gs)))
      end) (projectiles gs).
Proof.
  destruct gs. unfold despawn_projectiles_out_of_bounds.
  cbn -[hs_contains hs_insert is_in_bounds].
  generalize projectiles_to_despawn0 as s.
  induction projectiles0 as [|q l IH]; intros s;
    cbn -[hs_contains hs_insert is_in_bounds].
  - rewrite orb_false_r. reflexivity.
  - rewrite IH. destruct (projectile_type q);
      [destruct (is_in_bounds _ _ _) | | destruct (is_in_bounds _ _ _)];
      cbn -[hs_contains hs_insert is_in_bounds];
      rewrite ?hs_contains_insert, ?andb_true_r, ?andb_false_r;
      destruct (hs_contains s x), (Z.eqb x (p_id q)); reflexivity.
Qed.

Lemma nodup_map_inj {A B} (g : A -> B) (l : list A) (p q : A) :
  NoDup (map g l) -> In p l -> In q l -> g p = g q -> p = q.
Proof.
  induction l as [|a l IH]; cbn; [tauto|].
  intros Hnd Hp Hq Hg. inversion Hnd as [|? ? Hni Hnd']; subst.
  destruct Hp as [<-|Hp], Hq as [<-|Hq]; auto.
  - exfalso. apply Hni. rewrite Hg. apply in_map. exact Hq.
  - exfalso. apply Hni. rewrite <- Hg. apply in_map. exact Hp.
Qed.

Lemma is_in_bounds_spec (env : Env) (p : Vec2) (margin : R) :
  is_in_bounds env p margin = true <->
  (- margin <= vx p <= screen_width env + margin /\
   - margin <= vy p <= screen_height env + margin).
Proof.
  unfold is_in_bounds.
  repeat (destruct (Rle_dec _ _)); split; intros H; try discriminate;
    try reflexivity; lra.
Qed.

(** C8: the out-of-bounds pass never adds a [Pulse] projectile to the
    despawn set, wherever it is; it adds an [EnergyBall] or
    [HomingMissile] exactly when its position lies outside the screen
    rectangle [0, w] x [0, h] widened by the configured margin on every
    side (projectile ids being distinct, as [next_entity_id] makes them). *)
Theorem despawn_projectiles_out_of_bounds_spec (env : Env) (gs : GameState)
  (p : Projectile)
  (Hids : NoDup (map p_id (projectiles gs)))
  (Hin : In p (projectiles gs)) :
  let m := out_of_bounds_margin (game_constants gs) in
  let outside := ~ (- m <= vx (p_pos p) <= screen_width env + m /\
                    - m <= vy (p_pos p) <= screen_height env + m) in
  (hs_contains (projectiles_to_despawn (despawn_projectiles_out_of_bounds env gs))
     (p_id p) = true <->
   hs_contains (projectiles_to_despawn gs) (p_id p) = true \/
   (projectile_type p <> PPulse /\ outside)).
Proof.
  cbv zeta. rewrite despawn_pass_contains, orb_true_iff, existsb_exists.
  rewrite <- is_in_bounds_spec.
  split; intros [H|H]; auto; right.
  - destruct H as [q [Hq Hc]]. apply andb_prop in Hc as [Hx Hc].
    apply Z.eqb_eq in Hx.
    rewrite (nodup_map_inj p_id _ p q Hids Hin Hq Hx).
    destruct (projectile_type q); try discriminate;
      (split; [discriminate|]); destruct (is_in_bounds _ _ _); try discriminate;
      congruence.
  - destruct H as [Ht Ho]. exists p. split; [exact Hin|].
    rewrite Z.eqb_refl. cbn.
    destruct (is_in_bounds _ _ _); [contradiction Ho; reflexivity|].
    destruct (projectile_type p); [reflexivity | congruence | reflexivity].
Qed.

Lemma despawn_projectiles_out_of_bounds_spec_witness :
  NoDup (map p_id (projectiles gs_oob)) /\ In ball_out (projectiles gs_oob) /\
  hs_contains
    (projectiles_to_despawn (despawn_projectiles_out_of_bounds env0 gs_oob))
    (p_id ball_out) = true.
Proof.
  assert (Hnd : NoDup (map p_id (projectiles gs_oob))).
  { cbn. constructor; [cbn; intros [H|[]]; discriminate | ].
    constructor; [intros []| constructor]. }
  assert (Hin : In ball_out (projectiles gs_oob)) by (cbn; left; reflexivity).
  split; [exact Hnd|]. split; [exact Hin|].
  apply (proj2 (despawn_projectiles_out_of_bounds_spec env0 gs_oob ball_out Hnd Hin)).
  right. split; [discriminate|].
  cbn. intros [[H1 _] _]. lra.
Defined.

End BoundsFacts.

(** ** Projectile spawning *)

Module ProjectileSpawnFacts.
Import Weapon GameState Samples.

(** C4 (evaluation at the failing input): an [EnergyBall] weapon levelled
    up once emits two spawn requests carrying damage [10 + 2]; executing
    them creates two projectiles of damage [10], the per-type default:
    [execute_spawn_commands] drops the carried bundle and
    [spawn_projectile] rebuilds the stats from the projectile type. *)
Theorem spawn_projectile_ignores_request_stats :
  match level_up (new EnergyBall) with
  | Some w2 =>
      let cmds := snd (fire w2 (mkVec2 400 300) (mkVec2 1 0)) in
      map cmd_damage cmds = [10 + 2; 10 + 2] /\
      match execute_spawn_commands env0 gs0 cmds with
      | Some gs' =>
          map (fun p => damage (p_stats p)) (projectiles gs') = [10; 10] /\
          map (fun p => damage (p_stats p)) (projectiles gs') <> map cmd_damage cmds
      | None => False
      end
  | None => False
  end.
Proof.
  cbn -[fire execute_spawn_commands].
  unfold fire, can_fire. cbn -[execute_spawn_commands].
  destruct (Rle_dec 0 0) as [_|Hn]; [|lra]. cbn.
  split; [reflexivity|]. split; [reflexivity|].
  intros H. injection H as H _. lra.
Qed.

End ProjectileSpawnFacts.

(** ** Configuration reload *)

Module ReloadFacts.
Import Player GameState Samples.

(** C3 (amended): a failed reload requests [ScriptError] with the error
    message, but it is not all-or-nothing.  The provider calls run in the
    order player stats, game constants, [Basic] stats, [Chaser] stats,
    visual configuration; every value fetched before the failing call has
    already been written (and, once both enemy tables are loaded, every
    live enemy's stats), the values after it are left as they were.  The
    visual configuration is never changed by a failed reload, and a failure
    of the first call leaves every gameplay stat untouched. *)
Theorem reload_roto_scripts_failure (gs : GameState) (m : RotoScriptManager)
  (e : String.string) :
  let gs' := reload_roto_scripts gs m in
  let failed := next_state gs' = Some ScriptError /\ error_message gs' = Some e in
  (get_player_stats m = Err e ->
   failed /\ player gs' = player gs /\ game_constants gs' = game_constants gs /\
   basic_enemy_stats gs' = basic_enemy_stats gs /\
   chaser_enemy_stats gs' = chaser_enemy_stats gs /\
   enemies gs' = enemies gs /\ visual_config gs' = visual_config gs) /\
  (forall ps, get_player_stats m = Ok ps -> get_game_constants m = Err e ->
   failed /\ player gs' = override_stats (player gs) ps /\
   game_constants gs' = game_constants gs /\
   basic_enemy_stats gs' = basic_enemy_stats gs /\
   chaser_enemy_stats gs' = chaser_enemy_stats gs /\
   enemies gs' = enemies gs /\ visual_config gs' = visual_config gs) /\
  (forall ps gc, get_player_stats m = Ok ps -> get_game_constants m = Ok gc ->
   get_enemy_stats m Basic = Err e ->
   failed /\ player gs' = override_stats (player gs) ps /\
   game_constants gs' = gc /\ basic_enemy_stats gs' = basic_enemy_stats gs /\
   chaser_enemy_stats gs' = chaser_enemy_stats gs /\
   enemies gs' = enemies gs /\ visual_config gs' = visual_config gs) /\
  (forall ps gc bs, get_player_stats m = Ok ps -> get_game_constants m = Ok gc ->
   get_enemy_stats m Basic = Ok bs -> get_enemy_stats m Chaser = Err e ->
   failed /\ player gs' = override_stats (player gs) ps /\
   game_constants gs' = gc /\ basic_enemy_stats gs' = bs /\
   chaser_enemy_stats gs' = chaser_enemy_stats gs /\
   enemies gs' = enemies gs /\ visual_config gs' = visual_config gs) /\
  (forall ps gc bs cs, get_player_stats m = Ok ps -> get_game_constants m = Ok gc ->
   get_enemy_stats m Basic = Ok bs -> get_enemy_stats m Chaser = Ok cs ->
   get_visual_config m = Err e ->
   failed /\ player gs' = override_stats (player gs) ps /\
   game_constants gs' = gc /\ basic_enemy_stats gs' = bs /\
   chaser_enemy_stats gs' = cs /\
   enemies gs' = map (fun en => Enemy_override_stats en
                        (match enemy_type en with Basic => bs | Chaser => cs end))
                     (enemies gs) /\
   visual_config gs' = visual_config gs).
Proof.
  cbv zeta. destruct gs. unfold reload_roto_scripts, reload_roto_script_internal.
  cbn -[override_stats override_visual_config].
  repeat split; intros;
    repeat match goal with
           | H : ?x = _ |- context [?x] => rewrite H
           end;
    cbn -[override_stats override_visual_config]; try reflexivity.
Qed.

Lemma reload_roto_scripts_failure_witness :
  get_player_stats roto_missing_constants = Ok player_stats1 /\
  get_game_constants roto_missing_constants = Err err_missing_constants /\
  Player.stats (player (reload_roto_scripts gs0 roto_missing_constants))
    = player_stats1.
Proof.
  split; [reflexivity|]. split; [reflexivity|].
  destruct (proj1 (proj2 (reload_roto_scripts_failure gs0 roto_missing_constants
              err_missing_constants)) player_stats1 eq_refl eq_refl)
    as [_ [Hp _]].
  rewrite Hp. reflexivity.
Defined.

(** C3 (counterexample): with a script whose [get_player_stats] answers but
    whose [get_game_constants] is missing, the reload fails and requests
    [ScriptError], yet the player's stats have already been overwritten. *)
Lemma reload_partial_overwrite :
  let gs' := reload_roto_scripts gs0 roto_missing_constants in
  next_state gs' = Some ScriptError /\
  Player.stats (player gs') <> Player.stats (player gs0).
Proof.
  cbv zeta. split; [reflexivity|].
  cbn. intros H. injection H as H. lra.
Qed.

End ReloadFacts.

(** ** Collision detection *)

Module CollisionFacts.
Import Collision.

Lemma length_squared_nonneg (v : Vec2) : 0 <= length_squared v.
Proof. unfold length_squared. nra. Qed.

Lemma length_squared_vdiv (v : Vec2) (k : R) :
  k <> 0 -> length_squared (vdiv v k) = length_squared v / (k * k).
Proof. intros Hk. unfold length_squared, vdiv. cbn. field. exact Hk. Qed.


(** C1: two circles whose centres are closer than the sum of the radii
    collide; the penetration is [r1 + r2 - distance]; the normal has unit
    length; above [EPS] it is [(p1 - p2) / distance], a positive multiple
    of the vector from [p2] to [p1], and at distance [<= EPS] it is the fixed
    [(1, 0)]. *)
Theorem circle_circle_collision (r1 r2 : R) (p1 p2 : Vec2)
  (H : vlength (vsub p1 p2) < r1 + r2) :
  let res := check_collision (Circle r1) p1 (Circle r2) p2 in
  let d := vlength (vsub p1 p2) in
  collided res = true /\ penetration_depth res = r1 + r2 - d /\
  vlength (normal res) = 1 /\
  (EPS < d -> normal res = vdiv (vsub p1 p2) d /\
              exists k, 0 < k /\ normal res = vscale (vsub p1 p2) k) /\
  (d <= EPS -> normal res = mkVec2 1 0).
Proof.
  cbv zeta. unfold vlength in *.
  set (dsq := length_squared (vsub p1 p2)) in *.
  assert (Hq : 0 <= dsq) by apply length_squared_nonneg.
  pose proof (sqrt_pos dsq) as Hs.
  pose proof (sqrt_sqrt dsq Hq) as Hss.
  assert (Hlt : dsq < (r1 + r2) * (r1 + r2)) by nra.
  unfold check_collision, circle_circle. fold dsq.
  destruct (Rlt_dec dsq ((r1 + r2) * (r1 + r2))) as [_|Hn]; [|contradiction].
  cbn [collided penetration_depth normal new].
  split; [reflexivity|]. split; [reflexivity|].
  destruct (Rlt_dec EPS (sqrt dsq)) as [He|He].
  - assert (Hd : sqrt dsq <> 0) by (unfold EPS in He; lra).
    split; [|split].
    + rewrite length_squared_vdiv by exact Hd. fold dsq.
      rewrite Hss. unfold Rdiv.
      assert (Hp : 0 < dsq) by (unfold EPS in He; nra).
      rewrite Rinv_r by lra. apply sqrt_1.
    + intros _. split; [reflexivity|]. exists (/ sqrt dsq). split.
      * apply Rinv_0_lt_compat. unfold EPS in He. lra.
      * reflexivity.
    + intros Hle. lra.
  - split; [|split].
    + unfold length_squared. cbn. replace (1 * 1 + 0 * 0) with 1 by ring.
      apply sqrt_1.
    + intros Hlt'. contradiction.
    + intros _. reflexivity.
Qed.

Lemma circle_circle_collision_witness :
  vlength (vsub (mkVec2 0 0) (mkVec2 0 0)) < 1 + 1 /\
  normal (check_collision (Circle 1) (mkVec2 0 0) (Circle 1) (mkVec2 0 0))
    = mkVec2 1 0.
Proof.
  assert (H : vlength (vsub (mkVec2 0 0) (mkVec2 0 0)) < 1 + 1).
  { unfold vlength, length_squared, vsub. cbn.
    replace ((0 - 0) * (0 - 0) + (0 - 0) * (0 - 0)) with 0 by ring.
    rewrite sqrt_0. lra. }
  split; [exact H|].
  destruct (circle_circle_collision 1 1 (mkVec2 0 0) (mkVec2 0 0) H)
    as [_ [_ [_ [_ Hfix]]]].
  apply Hfix. unfold vlength, length_squared, vsub, EPS. cbn.
  replace ((0 - 0) * (0 - 0) + (0 - 0) * (0 - 0)) with 0 by ring.
  rewrite sqrt_0. lra.
Defined.





End CollisionFacts.

(** ** Well-formed collision results *)

Module CollisionShapeFacts.
Import Collision.

Lemma sqrt_lt_sq (a b : R) : 0 <= a -> 0 <= b -> a < b * b -> sqrt a < b.
Proof.
  intros Ha Hb H. destruct (Rlt_or_le (sqrt a) b) as [Hl|Hl]; [exact Hl|].
  exfalso. pose proof (sqrt_sqrt a Ha). nra.
Qed.

Lemma vlength_vdiv_self (v : Vec2) :
  0 < sqrt (length_squared v) -> vlength (vdiv v (sqrt (length_squared v))) = 1.
Proof.
  intros Hp. unfold vlength.
  rewrite CollisionFacts.length_squared_vdiv by lra.
  rewrite sqrt_sqrt by apply CollisionFacts.length_squared_nonneg.
  assert (Hn : length_squared v <> 0).
  { intros H0. rewrite H0, sqrt_0 in Hp. lra. }
  unfold Rdiv. rewrite Rinv_r by exact Hn. apply sqrt_1.
Qed.

Lemma vlength_sq1 (a b : R) : a * a + b * b = 1 -> vlength (mkVec2 a b) = 1.
Proof. intros H. unfold vlength, length_squared. cbn. rewrite H. apply sqrt_1. Qed.

Lemma vlength_vneg (v : Vec2) : vlength (vneg v) = vlength v.
Proof. unfold vlength, length_squared, vneg. cbn. f_equal. ring. Qed.

Lemma clamp_id (x lo hi : R) : lo <= x <= hi -> clamp x lo hi = x.
Proof. intros H. unfold clamp. destruct (Rlt_dec x lo); [lra|]. destruct (Rlt_dec hi x); lra. Qed.

Lemma circle_rect_wellformed (cp : Vec2) (r : R) (rp : Vec2) (w h : R) :
  0 <= r ->
  let res := circle_rect cp r rp w h in
  (collided res = true -> 0 < penetration_depth res /\ vlength (normal res) = 1) /\
  (collided res = false -> res = none).
Proof.
  intros Hr. unfold circle_rect. cbv zeta.
  match goal with
  | |- context [Rlt_dec (length_squared ?d) (r * r)] =>
      destruct (Rlt_dec (length_squared d) (r * r)) as [Hlt|Hge];
      pose proof (CollisionFacts.length_squared_nonneg d) as Hnn
  end; cbn [collided penetration_depth normal new none];
    [split; [|discriminate] | split; [discriminate | reflexivity]].
  intros _. split.
  - pose proof (sqrt_lt_sq _ _ Hnn Hr Hlt). lra.
  - match goal with
    | |- context [Rlt_dec EPS ?d] => destruct (Rlt_dec EPS d) as [He|He]
    end.
    + apply vlength_vdiv_self. unfold EPS in He. lra.
    + repeat match goal with
             | |- context [Req_dec_T ?a ?b] => destruct (Req_dec_T a b)
             end; apply vlength_sq1; ring.
Qed.

(** Every contact [check_collision] reports between colliders of
    non-negative size has a positive penetration depth and a unit normal,
    for all four shape pairs; when there is no contact the result is
    [CollisionData::none()]. *)
Theorem check_collision_wellformed (c1 c2 : Collider) (p1 p2 : Vec2)
  (H1 : collider_nonneg c1) (H2 : collider_nonneg c2) :
  let res := check_collision c1 p1 c2 p2 in
  (collided res = true -> 0 < penetration_depth res /\ vlength (normal res) = 1) /\
  (collided res = false -> res = none).
Proof.
  cbv zeta. destruct c1 as [r1|w1 h1], c2 as [r2|w2 h2]; cbn in H1, H2;
    unfold check_collision.
  - unfold circle_circle. cbv zeta.
    match goal with
    | |- context [Rlt_dec (length_squared ?d) ?b] =>
        destruct (Rlt_dec (length_squared d) b) as [Hlt|Hge];
        pose proof (CollisionFacts.length_squared_nonneg d) as Hnn
    end; cbn [collided penetration_depth normal new none];
      [split; [|discriminate] | split; [discriminate | reflexivity]].
    intros _. split.
    + assert (Hs : 0 <= r1 + r2) by lra.
      pose proof (sqrt_lt_sq _ _ Hnn Hs Hlt). lra.
    + match goal with
      | |- context [Rlt_dec EPS ?d] => destruct (Rlt_dec EPS d) as [He|He]
      end.
      * apply vlength_vdiv_self. unfold EPS in He. lra.
      * apply vlength_sq1. ring.
  - exact (circle_rect_wellformed p1 r1 p2 w2 h2 H1).
  - destruct (circle_rect_wellformed p2 r2 p1 w1 h1 H2) as [Ht Hf].
    cbn [collided penetration_depth normal]. split.
    + intros Hc. rewrite vlength_vneg. exact (Ht Hc).
    + intros Hc. rewrite (Hf Hc). unfold none, vneg, Vec2_ZERO. cbn.
      f_equal. f_equal; ring.
  - unfold rect_rect. cbv zeta.
    repeat match goal with
           | |- context [Rlt_dec ?a ?b] => destruct (Rlt_dec a b)
           end; cbn [collided penetration_depth normal new none];
      (split; [intros Hc; try discriminate | intros Hc; try discriminate; reflexivity]);
      (split; [lra | apply vlength_sq1; ring]).
Qed.

Lemma check_collision_wellformed_witness :
  collider_nonneg (Circle 1) /\ collider_nonneg (Rect 2 2) /\
  (collided (check_collision (Circle 1) (mkVec2 0 0) (Rect 2 2) (mkVec2 0 0)) = true ->
   0 < penetration_depth (check_collision (Circle 1) (mkVec2 0 0) (Rect 2 2) (mkVec2 0 0))).
Proof.
  assert (H1 : collider_nonneg (Circle 1)) by (cbn; lra).
  assert (H2 : collider_nonneg (Rect 2 2)) by (cbn; lra).
  split; [exact H1|]. split; [exact H2|].
  intros Hc.
  exact (proj1 (proj1 (check_collision_wellformed (Circle 1) (Rect 2 2)
    (mkVec2 0 0) (mkVec2 0 0) H1 H2) Hc)).
Defined.

(** Two rectangles touch exactly when their centres are closer than the
    half-sum of their widths in x and of their heights in y; the
    penetration is then the smaller of the two overlaps, and the normal is
    an axis-aligned unit vector that never points from the first centre
    towards the second. *)
Theorem rect_rect_overlap (w1 h1 w2 h2 : R) (p1 p2 : Vec2) :
  let res := check_collision (Rect w1 h1) p1 (Rect w2 h2) p2 in
  let overlap_x := (w1 + w2) / 2 - Rabs (vx p1 - vx p2) in
  let overlap_y := (h1 + h2) / 2 - Rabs (vy p1 - vy p2) in
  (collided res = true <-> 0 < overlap_x /\ 0 < overlap_y) /\
  (collided res = true ->
   penetration_depth res = Rmin overlap_x overlap_y /\
   vlength (normal res) = 1 /\
   (vx (normal res) = 0 \/ vy (normal res) = 0) /\
   0 <= vdot (normal res) (vsub p1 p2)).
Proof.
  cbv zeta. unfold check_collision, rect_rect, fabs. cbv zeta. cbn [vx vy vsub].
  unfold Rmin, vdot.
  repeat match goal with
         | |- context [Rlt_dec ?a ?b] => destruct (Rlt_dec a b)
         | |- context [Rle_dec ?a ?b] => destruct (Rle_dec a b)
         end; cbn [collided penetration_depth normal new none vx vy];
    (split; [split; [intros Hc; try discriminate; lra | intros Hc; try reflexivity; lra]|]);
    intros Hc; try discriminate;
    (split; [lra|]); (split; [apply vlength_sq1; ring|]);
    (split; [first [left; reflexivity | right; reflexivity]|]);
    cbn [vx vy vsub]; lra.
Qed.

(** A circle whose centre lies in a rectangle (boundary included) always
    touches it, with a penetration equal to its radius and an axis-aligned
    unit normal (the direction of the nearest edge). *)
Theorem circle_center_in_rect (r w h : R) (p c : Vec2) (Hr : 0 < r)
  (Hx : vx c - w / 2 <= vx p <= vx c + w / 2)
  (Hy : vy c - h / 2 <= vy p <= vy c + h / 2) :
  let res := check_collision (Circle r) p (Rect w h) c in
  collided res = true /\ penetration_depth res = r /\
  (normal res = mkVec2 (-1) 0 \/ normal res = mkVec2 1 0 \/
   normal res = mkVec2 0 (-1) \/ normal res = mkVec2 0 1).
Proof.
  cbv zeta. unfold check_collision, circle_rect. cbv zeta.
  rewrite (clamp_id (vx p)) by exact Hx.
  rewrite (clamp_id (vy p)) by exact Hy.
  replace (length_squared (vsub p (mkVec2 (vx p) (vy p)))) with 0
    by (unfold length_squared, vsub; cbn; ring).
  rewrite sqrt_0.
  destruct (Rlt_dec 0 (r * r)) as [_|Hn]; [|nra].
  destruct (Rlt_dec EPS 0) as [He|_]; [unfold EPS in He; lra|].
  cbn [collided penetration_depth normal new].
  split; [reflexivity|]. split; [ring|].
  repeat match goal with
         | |- context [Req_dec_T ?a ?b] => destruct (Req_dec_T a b)
         end; auto.
Qed.

Lemma circle_center_in_rect_witness :
  0 < 1 /\ collided (check_collision (Circle 1) (mkVec2 0 0) (Rect 4 2) (mkVec2 1 0)) = true.
Proof.
  split; [lra|].
  exact (proj1 (circle_center_in_rect 1 4 2 (mkVec2 0 0) (mkVec2 1 0)
    ltac:(lra) ltac:(cbn; lra) ltac:(cbn; lra))).
Defined.

End CollisionShapeFacts.

(** ** Collision passes of [GameState] *)

Module CollisionPassFacts.
Import Collision GameState.

Lemma fold_preserve {A B T} (P : B -> T) (g : B -> A -> B) (l : list A) :
  (forall b a, In a l -> P (g b a) = P b) -> forall b, P (fold_left g l b) = P b.
Proof.
  induction l as [|a l IH]; intros H b; cbn; [reflexivity|].
  rewrite IH; [apply H; left; reflexivity|].
  intros b' a' Ha. apply H. right. exact Ha.
Qed.

Lemma nth_error_replace_nth_other {A} (l : list A) (i j : nat) (a : A) :
  i <> j -> nth_error (Player.replace_nth l i a) j = nth_error l j.
Proof.
  revert i j. induction l as [|x l IH]; intros [|i] [|j] H; cbn;
    try reflexivity; try lia.
  apply IH. lia.
Qed.

Lemma sum_replace_nth {A} (f : A -> R) (l : list A) (i : nat) (x a : A) :
  nth_error l i = Some x ->
  fold_right Rplus 0 (map f (Player.replace_nth l i a)) =
  fold_right Rplus 0 (map f l) - f x + f a.
Proof.
  revert i. induction l as [|y l IH]; intros [|i]; cbn; try discriminate.
  - intros H; injection H as ->. ring.
  - intros H. rewrite (IH i H). ring.
Qed.

Lemma resolve_enemy_pair_sum (f : Enemy -> R) (es : list Enemy) (i j : nat)
  (Hij : i <> j)
  (Hf : forall e1 e2,
     let cd := check_collision (enemy.collider e1) (e_pos e1)
                 (enemy.collider e2) (e_pos e2) in
     collided cd = true ->
     let k := vdot (vsub (e_vel e1) (e_vel e2)) (normal cd) in
     f (enemy.set_vel e1 (vsub (e_vel e1) (vscale (normal cd) k))) +
     f (enemy.set_vel e2 (vadd (e_vel e2) (vscale (normal cd) k))) = f e1 + f e2) :
  fold_right Rplus 0 (map f (resolve_enemy_pair es i j)) =
  fold_right Rplus 0 (map f es).
Proof.
  unfold resolve_enemy_pair.
  destruct (nth_error es i) as [e1|] eqn:E1; [|reflexivity].
  destruct (nth_error es j) as [e2|] eqn:E2; [|reflexivity].
  cbv zeta.
  destruct (collided _) eqn:Hc; [|reflexivity].
  destruct (Rlt_dec _ _); [|reflexivity].
  rewrite (sum_replace_nth f _ j e2)
    by (rewrite nth_error_replace_nth_other by exact Hij; exact E2).
  rewrite (sum_replace_nth f _ i e1) by exact E1.
  specialize (Hf e1 e2). cbv zeta in Hf. specialize (Hf Hc). lra.
Qed.

Lemma enemy_collision_loop_sum (f : Enemy -> R)
  (Hf : forall e1 e2,
     let cd := check_collision (enemy.collider e1) (e_pos e1)
                 (enemy.collider e2) (e_pos e2) in
     collided cd = true ->
     let k := vdot (vsub (e_vel e1) (e_vel e2)) (normal cd) in
     f (enemy.set_vel e1 (vsub (e_vel e1) (vscale (normal cd) k))) +
     f (enemy.set_vel e2 (vadd (e_vel e2) (vscale (normal cd) k))) = f e1 + f e2)
  (es : list Enemy) :
  fold_right Rplus 0 (map f (enemy_collision_loop es)) =
  fold_right Rplus 0 (map f es).
Proof.
  unfold enemy_collision_loop.
  apply (fold_preserve (fun es => fold_right Rplus 0 (map f es))).
  intros b i _.
  apply (fold_preserve (fun es => fold_right Rplus 0 (map f es))).
  intros b' j Hj. apply in_seq in Hj.
  apply resolve_enemy_pair_sum; [lia | exact Hf].
Qed.

Lemma map_replace_nth_congr {A B} (g : A -> B) (l1 l2 : list A) (j : nat) (a : A) :
  map g l1 = map g l2 ->
  map g (Player.replace_nth l1 j a) = map g (Player.replace_nth l2 j a).
Proof.
  revert l2 j. induction l1 as [|x l1 IH]; intros [|y l2] [|j]; cbn;
    intros H; try discriminate; try reflexivity.
  - injection H as _ H. rewrite H. reflexivity.
  - injection H as H1 H. rewrite H1, (IH l2 j H). reflexivity.
Qed.

Lemma enemy_collision_loop_shape (es : list Enemy) :
  map (fun e => (e_id e, e_pos e, enemy_type e, e_stats e)) (enemy_collision_loop es) =
  map (fun e => (e_id e, e_pos e, enemy_type e, e_stats e)) es.
Proof.
  unfold enemy_collision_loop.
  apply (fold_preserve (map (fun e => (e_id e, e_pos e, enemy_type e, e_stats e)))).
  intros b i _.
  apply (fold_preserve (map (fun e => (e_id e, e_pos e, enemy_type e, e_stats e)))).
  intros es' j _. unfold resolve_enemy_pair.
  destruct (nth_error es' i) as [e1|] eqn:E1; [|reflexivity].
  destruct (nth_error es' j) as [e2|] eqn:E2; [|reflexivity].
  cbv zeta.
  destruct (collided _); [|reflexivity].
  destruct (Rlt_dec _ _); [|reflexivity].
  rewrite (map_replace_nth_congr _ _ es').
  - apply WeaponSelectionFacts.map_replace_nth with (x := e2); [exact E2 | reflexivity].
  - apply WeaponSelectionFacts.map_replace_nth with (x := e1); [exact E1 | reflexivity].
Qed.

Lemma circle_circle_normal_sq (p1 p2 : Vec2) (r1 r2 : R) :
  collided (circle_circle p1 r1 p2 r2) = true ->
  length_squared (normal (circle_circle p1 r1 p2 r2)) = 1.
Proof.
  unfold circle_circle. cbv zeta.
  destruct (Rlt_dec _ _); cbn [collided normal new none]; [|discriminate].
  intros _.
  match goal with
  | |- context [Rlt_dec EPS ?d] => destruct (Rlt_dec EPS d) as [He|He]
  end.
  - pose proof (CollisionShapeFacts.vlength_vdiv_self (vsub p1 p2)) as Hv.
    unfold EPS in He. specialize (Hv ltac:(lra)).
    unfold vlength in Hv.
    rewrite <- (sqrt_sqrt (length_squared _))
      by apply CollisionFacts.length_squared_nonneg.
    rewrite Hv. ring.
  - unfold length_squared. cbn. ring.
Qed.

Lemma vsum_map_vel (l : list Enemy) :
  vsum (map e_vel l) =
  mkVec2 (fold_right Rplus 0 (map (fun e => vx (e_vel e)) l))
         (fold_right Rplus 0 (map (fun e => vy (e_vel e)) l)).
Proof.
  unfold vsum. induction l as [|e l IH]; cbn; [reflexivity|].
  rewrite IH. reflexivity.
Qed.

Lemma enemies_check_player_enemy_collisions (gs : GameState) :
  enemies (check_player_enemy_collisions gs) = enemies gs.
Proof.
  unfold check_player_enemy_collisions.
  destruct (fold_left _ _ _) as [go s]. destruct gs, go; reflexivity.
Qed.

Lemma enemies_check_projectile_enemy_collisions (gs : GameState) :
  enemies (check_projectile_enemy_collisions gs) = enemies gs.
Proof.
  unfold check_projectile_enemy_collisions.
  destruct (fold_left _ _ _) as [es ps]. destruct gs; reflexivity.
Qed.

Lemma enemies_check_collisions (gs : GameState) :
  enemies (check_collisions gs) = enemy_collision_loop (enemies gs).
Proof.
  unfold check_collisions, check_enemy_collisions.
  rewrite <- (enemies_check_player_enemy_collisions gs).
  rewrite <- (enemies_check_projectile_enemy_collisions (check_player_enemy_collisions gs)).
  destruct (check_projectile_enemy_collisions _); reflexivity.
Qed.

(** The enemy-enemy bounce of [check_collisions] conserves the total
    velocity of the enemies (momentum, all masses being equal) and the sum
    of their squared speeds (kinetic energy); it changes no enemy's id,
    position, type or stats, nor their order. *)
Theorem check_collisions_elastic (gs : GameState) :
  let es := enemies gs in
  let es' := enemies (check_collisions gs) in
  vsum (map e_vel es') = vsum (map e_vel es) /\
  kinetic (map e_vel es') = kinetic (map e_vel es) /\
  map (fun e => (e_id e, e_pos e, enemy_type e, e_stats e)) es' =
  map (fun e => (e_id e, e_pos e, enemy_type e, e_stats e)) es.
Proof.
  cbv zeta. rewrite enemies_check_collisions.
  split; [|split].
  - rewrite !vsum_map_vel.
    rewrite (enemy_collision_loop_sum (fun e => vx (e_vel e))).
    2:{ intros e1 e2 cd _ k. cbn. ring. }
    rewrite (enemy_collision_loop_sum (fun e => vy (e_vel e))).
    2:{ intros e1 e2 cd _ k. cbn. ring. }
    reflexivity.
  - unfold kinetic. rewrite !map_map.
    apply (enemy_collision_loop_sum (fun e => length_squared (e_vel e))).
    intros e1 e2 cd Hc k.
    assert (Hn : length_squared (normal cd) = 1).
    { unfold cd, enemy.collider in *. apply circle_circle_normal_sq. exact Hc. }
    revert Hn. unfold k. generalize (normal cd) as n. intros n Hn.
    unfold length_squared in *. cbn.
    destruct (e_vel e1) as [a1 b1], (e_vel e2) as [a2 b2], n as [nx ny].
    unfold vdot, vsub. cbn in *.
    transitivity (a1 * a1 + b1 * b1 + (a2 * a2 + b2 * b2) +
      2 * ((a1 - a2) * nx + (b1 - b2) * ny) * ((a1 - a2) * nx + (b1 - b2) * ny)
        * (nx * nx + ny * ny - 1)); [ring|].
    rewrite Hn. ring.
  - apply enemy_collision_loop_shape.
Qed.

Lemma fold_player_pass {A} (F : bool * list Z -> A -> bool * list Z)
  (hit : A -> bool) (id : A -> Z)
  (HF : forall go s a,
     F (go, s) a = if hit a then (true, hs_insert s (id a)) else (go, s)) :
  forall l go s,
    fst (fold_left F l (go, s)) = go || existsb hit l /\
    (forall x, hs_contains (snd (fold_left F l (go, s))) x =
       hs_contains s x || existsb (fun a => hit a && Z.eqb x (id a)) l).
Proof.
  induction l as [|a l IH]; intros go s; cbn -[hs_contains hs_insert].
  - split; [btauto|]. intros x. btauto.
  - rewrite HF. destruct (hit a) eqn:Ha; cbn -[hs_contains hs_insert].
    + destruct (IH true (hs_insert s (id a))) as [H1 H2].
      split; [rewrite H1; btauto|].
      intros x. rewrite H2, BoundsFacts.hs_contains_insert. btauto.
    + destruct (IH go s) as [H1 H2].
      split; [exact H1|]. intros x. rewrite H2. btauto.
Qed.

Lemma fold_proj_inner {A} (F : list Z * list Z -> A -> list Z * list Z)
  (hit : A -> bool) (id : A -> Z) (tag : bool) (pid : Z)
  (HF : forall es ps a,
     F (es, ps) a = if hit a
                    then (hs_insert es (id a), if tag then hs_insert ps pid else ps)
                    else (es, ps)) :
  forall l es ps x,
    hs_contains (fst (fold_left F l (es, ps))) x =
      hs_contains es x || existsb (fun a => hit a && Z.eqb x (id a)) l /\
    hs_contains (snd (fold_left F l (es, ps))) x =
      hs_contains ps x || (tag && existsb hit l && Z.eqb x pid).
Proof.
  induction l as [|a l IH]; intros es ps x; cbn -[hs_contains hs_insert].
  - split; btauto.
  - rewrite HF. destruct (hit a) eqn:Ha; cbn -[hs_contains hs_insert].
    + destruct (IH (hs_insert es (id a)) (if tag then hs_insert ps pid else ps) x)
        as [H1 H2].
      rewrite H1, H2, BoundsFacts.hs_contains_insert.
      destruct tag; [rewrite BoundsFacts.hs_contains_insert|]; split; btauto.
    + destruct (IH es ps x) as [H1 H2]. rewrite H1, H2. split; btauto.
Qed.

Lemma fold_proj_outer {B} (Fo : list Z * list Z -> B -> list Z * list Z)
  (E P : B -> Z -> bool)
  (HF : forall acc b x,
     hs_contains (fst (Fo acc b)) x = hs_contains (fst acc) x || E b x /\
     hs_contains (snd (Fo acc b)) x = hs_contains (snd acc) x || P b x) :
  forall l acc x,
    hs_contains (fst (fold_left Fo l acc)) x =
      hs_contains (fst acc) x || existsb (fun b => E b x) l /\
    hs_contains (snd (fold_left Fo l acc)) x =
      hs_contains (snd acc) x || existsb (fun b => P b x) l.
Proof.
  induction l as [|b l IH]; intros acc x; cbn -[hs_contains hs_insert].
  - split; btauto.
  - destruct (IH (Fo acc b) x) as [H1 H2]. destruct (HF acc b x) as [H3 H4].
    rewrite H1, H2, H3, H4. split; btauto.
Qed.

Lemma player_pass_spec (gs : GameState) :
  let gs' := check_player_enemy_collisions gs in
  let hit e := collided (check_collision (Player.collider (player gs))
                 (Player.pos (player gs)) (enemy.collider e) (e_pos e)) in
  next_state gs' =
    (if existsb hit (enemies gs) then Some GameOver else next_state gs) /\
  (forall x, hs_contains (enemies_to_despawn gs') x =
     hs_contains (enemies_to_despawn gs) x ||
     existsb (fun e => hit e && Z.eqb x (e_id e)) (enemies gs)) /\
  projectiles_to_despawn gs' = projectiles_to_despawn gs /\
  projectiles gs' = projectiles gs /\ enemies gs' = enemies gs /\
  player gs' = player gs.
Proof.
  cbv zeta. unfold check_player_enemy_collisions. cbv zeta.
  match goal with
  | |- context [fold_left ?F ?l (false, ?s)] =>
      pose proof (fold_player_pass F
        (fun e => collided (check_collision (Player.collider (player gs))
                 (Player.pos (player gs)) (enemy.collider e) (e_pos e))) e_id
        (fun _ _ _ => eq_refl) l false s) as [H1 H2];
      destruct (fold_left F l (false, s)) as [go s']
  end.
  cbn in H1, H2. subst go.
  destruct gs; cbn in *.
  destruct (existsb _ _); cbn; repeat split; auto.
Qed.

Lemma projectile_pass_spec (gs : GameState) :
  let gs' := check_projectile_enemy_collisions gs in
  let hit p e := collided (check_collision (projectile.collider p) (p_pos p)
                   (enemy.collider e) (e_pos e)) in
  (forall x, hs_contains (enemies_to_despawn gs') x =
     hs_contains (enemies_to_despawn gs) x ||
     existsb (fun p => existsb (fun e => hit p e && Z.eqb x (e_id e))
                         (enemies gs)) (projectiles gs)) /\
  (forall x, hs_contains (projectiles_to_despawn gs') x =
     hs_contains (projectiles_to_despawn gs) x ||
     existsb (fun p => match projectile_type p with PPulse => false | _ => true end
                       && existsb (hit p) (enemies gs) && Z.eqb x (p_id p))
       (projectiles gs)) /\
  next_state gs' = next_state gs /\
  projectiles gs' = projectiles gs /\ enemies gs' = enemies gs /\
  player gs' = player gs.
Proof.
  cbv zeta. unfold check_projectile_enemy_collisions.
  match goal with
  | |- context [fold_left ?Fo ?l ?acc] =>
  assert (HO' : forall x,
    hs_contains (fst (fold_left Fo l acc)) x =
      hs_contains (enemies_to_despawn gs) x ||
      existsb (fun p => existsb (fun e => collided (check_collision
        (projectile.collider p) (p_pos p) (enemy.collider e) (e_pos e))
        && Z.eqb x (e_id e)) (enemies gs)) (projectiles gs) /\
    hs_contains (snd (fold_left Fo l acc)) x =
      hs_contains (projectiles_to_despawn gs) x ||
      existsb (fun p => match projectile_type p with PPulse => false | _ => true end
        && existsb (fun e => collided (check_collision
          (projectile.collider p) (p_pos p) (enemy.collider e) (e_pos e)))
          (enemies gs) && Z.eqb x (p_id p)) (projectiles gs));
  [ intros x;
    apply (fold_proj_outer Fo
        (fun p x => existsb (fun e => collided (check_collision
            (projectile.collider p) (p_pos p) (enemy.collider e) (e_pos e))
            && Z.eqb x (e_id e)) (enemies gs))
        (fun p x => match projectile_type p with PPulse => false | _ => true end
            && existsb (fun e => collided (check_collision
            (projectile.collider p) (p_pos p) (enemy.collider e) (e_pos e)))
              (enemies gs) && Z.eqb x (p_id p)));
    intros [a1 a2] p y;
    apply (fold_proj_inner _ _ e_id
      (match projectile_type p with PPulse => false | _ => true end) (p_id p));
    intros es0 ps0 e; cbn -[hs_contains hs_insert];
    destruct (collided _); [|reflexivity];
    destruct (projectile_type p); reflexivity
  | destruct (fold_left Fo l acc) as [es ps] ]
  end.
  destruct gs; cbn in *.
  repeat split; try reflexivity; intros x; apply HO'.
Qed.

Lemma check_enemy_collisions_fields (gs : GameState) :
  let gs' := check_enemy_collisions gs in
  enemies_to_despawn gs' = enemies_to_despawn gs /\
  projectiles_to_despawn gs' = projectiles_to_despawn gs /\
  next_state gs' = next_state gs /\
  projectiles gs' = projectiles gs /\ player gs' = player gs.
Proof. destruct gs; repeat split. Qed.

Lemma check_collisions_marks_aux (gs : GameState) :
  let gs' := check_collisions gs in
  let hit_player e := collided (check_collision (Player.collider (player gs))
                        (Player.pos (player gs)) (enemy.collider e) (e_pos e)) in
  let hit p e := collided (check_collision (projectile.collider p) (p_pos p)
                   (enemy.collider e) (e_pos e)) in
  (forall x, hs_contains (enemies_to_despawn gs') x =
     hs_contains (enemies_to_despawn gs) x ||
     existsb (fun e => hit_player e && Z.eqb x (e_id e)) (enemies gs) ||
     existsb (fun p => existsb (fun e => hit p e && Z.eqb x (e_id e))
                         (enemies gs)) (projectiles gs)) /\
  (forall x, hs_contains (projectiles_to_despawn gs') x =
     hs_contains (projectiles_to_despawn gs) x ||
     existsb (fun p => match projectile_type p with PPulse => false | _ => true end
                       && existsb (hit p) (enemies gs) && Z.eqb x (p_id p))
       (projectiles gs)) /\
  next_state gs' =
    (if existsb hit_player (enemies gs) then Some GameOver else next_state gs) /\
  projectiles gs' = projectiles gs /\ player gs' = player gs.
Proof.
  cbv zeta. unfold check_collisions.
  destruct (check_enemy_collisions_fields
    (check_projectile_enemy_collisions (check_player_enemy_collisions gs)))
    as (E1 & E2 & E3 & E4 & E5).
  cbv zeta in E1, E2, E3, E4, E5. rewrite E1, E2, E3, E4, E5.
  destruct (projectile_pass_spec (check_player_enemy_collisions gs))
    as (P1 & P2 & P3 & P4 & P5 & P6).
  destruct (player_pass_spec gs) as (Q1 & Q2 & Q3 & Q4 & Q5 & Q6).
  cbv zeta in *.
  rewrite P3, P4, P6, Q1, Q4, Q6.
  repeat split.
  - intros x. rewrite P1, Q2, Q4, Q5. btauto.
  - intros x. rewrite P2, Q3, Q4, Q5. reflexivity.
Qed.

(** [check_collisions] marks for despawn exactly the enemies touching the
    player or touched by some projectile, and the energy balls and homing
    missiles (never the pulses) that touch some enemy; it schedules
    [GameOver] iff some enemy touches the player and otherwise leaves the
    pending state alone; it changes neither the projectiles nor the
    player. *)
Theorem check_collisions_marks (gs : GameState) :
  let gs' := check_collisions gs in
  let hit_player e := collided (check_collision (Player.collider (player gs))
                        (Player.pos (player gs)) (enemy.collider e) (e_pos e)) in
  let hit p e := collided (check_collision (projectile.collider p) (p_pos p)
                   (enemy.collider e) (e_pos e)) in
  (forall x, hs_contains (enemies_to_despawn gs') x =
     hs_contains (enemies_to_despawn gs) x ||
     existsb (fun e => hit_player e && Z.eqb x (e_id e)) (enemies gs) ||
     existsb (fun p => existsb (fun e => hit p e && Z.eqb x (e_id e))
                         (enemies gs)) (projectiles gs)) /\
  (forall x, hs_contains (projectiles_to_despawn gs') x =
     hs_contains (projectiles_to_despawn gs) x ||
     existsb (fun p => match projectile_type p with PPulse => false | _ => true end
                       && existsb (hit p) (enemies gs) && Z.eqb x (p_id p))
       (projectiles gs)) /\
  next_state gs' =
    (if existsb hit_player (enemies gs) then Some GameOver else next_state gs) /\
  projectiles gs' = projectiles gs /\ player gs' = player gs.
Proof. exact (check_collisions_marks_aux gs). Qed.

End CollisionPassFacts.

(** ** Motion: speed clamping, homing turns and volleys *)

Module MotionFacts.

Lemma vlength_vscale (v : Vec2) (k : R) : vlength (vscale v k) = Rabs k * vlength v.
Proof.
  unfold vlength, length_squared, vscale. cbn.
  replace (vx v * k * (vx v * k) + vy v * k * (vy v * k))
    with ((k * k) * (vx v * vx v + vy v * vy v)) by ring.
  rewrite sqrt_mult_alt by nra.
  change (k * k) with (Rsqr k). rewrite sqrt_Rsqr_abs. reflexivity.
Qed.

Lemma vlength_nonneg (v : Vec2) : 0 <= vlength v.
Proof. apply sqrt_pos. Qed.

Lemma vlength_normalize (v : Vec2) : 0 < vlength v -> vlength (normalize v) = 1.
Proof. intros H. unfold normalize. apply CollisionShapeFacts.vlength_vdiv_self. exact H. Qed.

Lemma vlength_scaled_unit (v : Vec2) (k : R) :
  0 < vlength v -> 0 <= k -> vlength (vscale (normalize v) k) = k.
Proof.
  intros Hv Hk. rewrite vlength_vscale, vlength_normalize by exact Hv.
  rewrite Rabs_pos_eq by exact Hk. ring.
Qed.

Lemma vscale_normalize (v : Vec2) (k : R) :
  vscale (normalize v) k = vscale v (k / vlength v).
Proof. unfold vscale, normalize, vdiv. cbn. unfold Rdiv. f_equal; ring. Qed.

Lemma vlength_rot (v : Vec2) (a : R) :
  vlength (mkVec2 (vx v * cos a - vy v * sin a) (vx v * sin a + vy v * cos a)) =
  vlength v.
Proof.
  unfold vlength, length_squared. cbn. f_equal.
  pose proof (sin2_cos2 a) as H. unfold Rsqr in H.
  transitivity ((vx v * vx v + vy v * vy v) * (sin a * sin a + cos a * cos a));
    [ring|]. rewrite H. ring.
Qed.

(** Clamping a velocity to [ms]: the result is no longer than [ms] and is
    the old velocity shrunk by a factor in [[0, 1]]. *)
Lemma clamp_vec (v : Vec2) (ms : R) : 0 <= ms ->
  let v' := if Rlt_dec ms (vlength v) then vscale (normalize v) ms else v in
  vlength v' <= ms /\ exists k, 0 <= k <= 1 /\ v' = vscale v k.
Proof.
  intros Hms. cbv zeta. destruct (Rlt_dec ms (vlength v)) as [Hlt|Hge].
  - split; [rewrite vlength_scaled_unit by lra; lra|].
    exists (ms / vlength v). split.
    + split; [unfold Rdiv; apply Rmult_le_pos; [lra | left; apply Rinv_0_lt_compat; lra]|].
      apply Rmult_le_reg_r with (vlength v); [lra|].
      unfold Rdiv. rewrite Rmult_assoc, Rinv_l by lra. lra.
    + apply vscale_normalize.
  - split; [lra|]. exists 1. split; [lra|].
    unfold vscale. destruct v; cbn. f_equal; ring.
Qed.

Lemma enemy_clamp_velocity_spec (e : Enemy) :
  0 <= max_speed (e_stats e) ->
  let e' := enemy.clamp_velocity e in
  vlength (e_vel e') <= max_speed (e_stats e) /\
  e_id e' = e_id e /\ e_pos e' = e_pos e /\ enemy_type e' = enemy_type e /\
  e_stats e' = e_stats e.
Proof.
  intros Hms. cbv zeta. unfold enemy.clamp_velocity. cbv zeta.
  pose proof (clamp_vec (e_vel e) _ Hms) as [H _]. cbv zeta in H.
  destruct (Rlt_dec _ _); cbn; repeat split; auto.
Qed.

(** An enemy's [update] leaves its speed at most its [max_speed] (for a
    non-negative [max_speed]), then moves it by exactly its new velocity;
    its id, type and stats are kept. *)
Theorem enemy_update_speed (e : Enemy) (player_pos : option Vec2)
  (Hms : 0 <= max_speed (e_stats e)) :
  let e' := enemy.update e player_pos in
  vlength (e_vel e') <= max_speed (e_stats e) /\
  e_pos e' = vadd (e_pos e) (e_vel e') /\
  e_id e' = e_id e /\ enemy_type e' = enemy_type e /\ e_stats e' = e_stats e.
Proof.
  cbv zeta. unfold enemy.update.
  assert (Hb : forall e0, 0 <= max_speed (e_stats e0) ->
    let e1 := enemy.update_basic e0 in
    vlength (e_vel e1) <= max_speed (e_stats e0) /\ e_pos e1 = e_pos e0 /\
    e_id e1 = e_id e0 /\ enemy_type e1 = enemy_type e0 /\ e_stats e1 = e_stats e0).
  { intros e0 H0. unfold enemy.update_basic. cbv zeta.
    match goal with
    | |- context [enemy.clamp_velocity ?x] =>
        destruct (enemy_clamp_velocity_spec x H0) as (A1 & A2 & A3 & A4 & A5)
    end.
    cbn in *. repeat split; congruence. }
  assert (Hc : forall e0 t, 0 <= max_speed (e_stats e0) ->
    let e1 := enemy.update_chaser e0 t in
    vlength (e_vel e1) <= max_speed (e_stats e0) /\ e_pos e1 = e_pos e0 /\
    e_id e1 = e_id e0 /\ enemy_type e1 = enemy_type e0 /\ e_stats e1 = e_stats e0).
  { intros e0 t H0. unfold enemy.update_chaser. cbv zeta.
    destruct (Rlt_dec _ _).
    - match goal with
      | |- context [enemy.clamp_velocity ?x] =>
          destruct (enemy_clamp_velocity_spec x H0) as (A1 & A2 & A3 & A4 & A5)
      end.
      cbn in *. repeat split; congruence.
    - destruct (enemy_clamp_velocity_spec e0 H0) as (A1 & A2 & A3 & A4 & A5).
      repeat split; congruence. }
  assert (Hm : forall e1, vlength (e_vel e1) <= max_speed (e_stats e) ->
    e_pos e1 = e_pos e -> e_id e1 = e_id e -> enemy_type e1 = enemy_type e ->
    e_stats e1 = e_stats e ->
    let e2 := enemy.set_pos e1 (vadd (e_pos e1) (e_vel e1)) in
    vlength (e_vel e2) <= max_speed (e_stats e) /\
    e_pos e2 = vadd (e_pos e) (e_vel e2) /\
    e_id e2 = e_id e /\ enemy_type e2 = enemy_type e /\ e_stats e2 = e_stats e).
  { intros e1 A1 A2 A3 A4 A5. cbn. rewrite A2. repeat split; assumption. }
  destruct (enemy_type e) eqn:Et; [|destruct player_pos as [t|]].
  - destruct (Hb e Hms) as (A1 & A2 & A3 & A4 & A5). apply Hm; congruence.
  - destruct (Hc e t Hms) as (A1 & A2 & A3 & A4 & A5). apply Hm; congruence.
  - destruct (Hb e Hms) as (A1 & A2 & A3 & A4 & A5). apply Hm; congruence.
Qed.

Lemma enemy_update_speed_witness :
  0 <= max_speed (e_stats (mkEnemy 0 (mkVec2 10 10) (mkVec2 3 4) Chaser
                   (mkEntityStats 12 2 (1 / 10) 1) Samples.evc0)) /\
  vlength (e_vel (enemy.update (mkEnemy 0 (mkVec2 10 10) (mkVec2 3 4) Chaser
             (mkEntityStats 12 2 (1 / 10) 1) Samples.evc0)
             (Some (mkVec2 100 100)))) <= 2.
Proof.
  split; [cbn; lra|].
  exact (proj1 (enemy_update_speed (mkEnemy 0 (mkVec2 10 10) (mkVec2 3 4) Chaser
             (mkEntityStats 12 2 (1 / 10) 1) Samples.evc0)
             (Some (mkVec2 100 100)) ltac:(cbn; lra))).
Defined.

Lemma player_clamp_velocity_spec (q : Player.Player) :
  0 <= max_speed (Player.stats q) ->
  let q' := Player.clamp_velocity q in
  vlength (Player.vel q') <= max_speed (Player.stats q) /\
  (exists k, 0 <= k <= 1 /\ Player.vel q' = vscale (Player.vel q) k) /\
  Player.facing q' = Player.facing q /\ Player.pos q' = Player.pos q /\
  Player.stats q' = Player.stats q /\ Player.weapons q' = Player.weapons q /\
  Player.xp q' = Player.xp q /\ Player.level q' = Player.level q.
Proof.
  intros Hms. cbv zeta. unfold Player.clamp_velocity. cbv zeta.
  pose proof (clamp_vec (Player.vel q) _ Hms) as [H1 H2]. cbv zeta in H1, H2.
  destruct (Rlt_dec _ _); cbn; repeat split; auto.
Qed.

(** [Player::input] leaves the player's speed at most its [max_speed] (for
    a non-negative [max_speed]); the new velocity is the old one plus the
    acceleration of the held arrow keys (opposite keys cancelling), shrunk
    by a factor in [[0, 1]], so clamping never turns it; a unit facing
    stays a unit vector; position, stats, weapons, xp and level are kept. *)
Theorem player_input_spec (p : Player.Player) (i : Player.Input)
  (Hms : 0 <= max_speed (Player.stats p)) :
  let a := acceleration (Player.stats p) in
  let acc := mkVec2
    ((if Player.key_right i then a else 0) - (if Player.key_left i then a else 0))
    ((if Player.key_down i then a else 0) - (if Player.key_up i then a else 0)) in
  let p' := Player.input p i in
  vlength (Player.vel p') <= max_speed (Player.stats p) /\
  (exists k, 0 <= k <= 1 /\ Player.vel p' = vscale (vadd (Player.vel p) acc) k) /\
  (vlength (Player.facing p) = 1 -> vlength (Player.facing p') = 1) /\
  Player.pos p' = Player.pos p /\ Player.stats p' = Player.stats p /\
  Player.weapons p' = Player.weapons p /\
  Player.xp p' = Player.xp p /\ Player.level p' = Player.level p.
Proof.
  cbv zeta. unfold Player.input. cbv zeta.
  match goal with
  | |- context [Player.clamp_velocity ?q] =>
      assert (Hq : Player.stats q = Player.stats p)
        by (destruct (Rlt_dec _ _); reflexivity);
      pose proof (player_clamp_velocity_spec q) as Hc;
      rewrite Hq in Hc; specialize (Hc Hms); cbv zeta in Hc;
      destruct Hc as (C1 & (k & Hk & C2) & C3 & C4 & C5 & C6 & C7 & C8);
      rewrite C3, C4, C5, C6, C7, C8; split; [exact C1|];
      rewrite C2; clear C1 C2 C3 C4 C5 C6 C7 C8 Hq
  end.
  destruct (Rlt_dec 1 _) as [Hm|Hm]; cbn in Hm |- *.
  - repeat split; try reflexivity.
    + exists k. split; [exact Hk|].
      destruct (Player.key_left i), (Player.key_right i), (Player.key_up i),
        (Player.key_down i); unfold vscale, vadd; cbn; f_equal; ring.
    + intros _. apply vlength_normalize. lra.
  - repeat split; try reflexivity.
    + exists k. split; [exact Hk|].
      destruct (Player.key_left i), (Player.key_right i), (Player.key_up i),
        (Player.key_down i); unfold vscale, vadd; cbn; f_equal; ring.
    + intros H; exact H.
Qed.

Lemma player_input_spec_witness :
  0 <= max_speed (Player.stats Samples.player0) /\
  vlength (Player.vel (Player.input Samples.player0
    (Player.mkInput false true false true (mkVec2 0 0)))) <= 5.
Proof.
  split; [cbn; lra|].
  exact (proj1 (player_input_spec Samples.player0
    (Player.mkInput false true false true (mkVec2 0 0)) ltac:(cbn; lra))).
Defined.

(** [update_homing] on a homing missile with a non-zero velocity and at
    least one enemy about: the new velocity is the old direction rotated by
    an angle of at most [turning_rate * dt], at exactly the missile's
    [speed] (for a non-negative speed and [turning_rate * dt]); nothing but
    the velocity changes. *)
Theorem update_homing_turn (p : Projectile) (dt : R) (es : list Enemy)
  (Ht : projectile_type p = PHomingMissile) (Hes : es <> [])
  (Hv : 0 < vlength (p_vel p)) (Hs : 0 <= speed (p_stats p))
  (Hr : 0 <= turning_rate (p_stats p) * dt) :
  let u := normalize (p_vel p) in
  exists th, Rabs th <= turning_rate (p_stats p) * dt /\
    projectile.update_homing p dt es =
      projectile.set_vel p
        (vscale (mkVec2 (vx u * cos th - vy u * sin th)
                        (vx u * sin th + vy u * cos th)) (speed (p_stats p))) /\
    vlength (p_vel (projectile.update_homing p dt es)) = speed (p_stats p).
Proof.
  cbv zeta. unfold projectile.update_homing. rewrite Ht.
  destruct (projectile.min_by_distance (p_pos p) es) as [target|] eqn:Em;
    [| destruct es; [contradiction | cbn in Em; discriminate]].
  cbv zeta.
  set (th := clamp _ _ _).
  assert (Hth : Rabs th <= turning_rate (p_stats p) * dt).
  { unfold th, clamp.
    repeat match goal with |- context [Rlt_dec ?a ?b] => destruct (Rlt_dec a b) end;
      apply Rabs_le; lra. }
  assert (Heq : projectile.set_vel p
      (vscale (normalize (mkVec2 (vx (p_vel p) * cos th - vy (p_vel p) * sin th)
         (vx (p_vel p) * sin th + vy (p_vel p) * cos th))) (speed (p_stats p))) =
    projectile.set_vel p
      (vscale (mkVec2
         (vx (normalize (p_vel p)) * cos th - vy (normalize (p_vel p)) * sin th)
         (vx (normalize (p_vel p)) * sin th + vy (normalize (p_vel p)) * cos th))
         (speed (p_stats p)))).
  { f_equal. unfold normalize at 1. rewrite vlength_rot.
    unfold normalize, vdiv, vscale. cbn. unfold Rdiv. f_equal; ring. }
  exists th. split; [exact Hth|]. split; [exact Heq|].
  cbn [p_vel projectile.set_vel].
  rewrite vlength_scaled_unit; [reflexivity| |exact Hs].
  rewrite vlength_rot. exact Hv.
Qed.

Lemma update_homing_turn_witness :
  let p := mkProjectile 0 (mkVec2 100 100) (mkVec2 250 0) PHomingMissile
             homing_missile_default 3 (mkVec2 100 100) Samples.pvc0 in
  let es := [mkEnemy 1 (mkVec2 100 300) Vec2_ZERO Basic Samples.basic_stats0
               Samples.evc0] in
  projectile_type p = PHomingMissile /\ es <> [] /\ 0 < vlength (p_vel p) /\
  vlength (p_vel (projectile.update_homing p GameState.DT es)) = 250.
Proof.
  assert (Hv : 0 < vlength (mkVec2 250 0)).
  { unfold vlength, length_squared. cbn. apply sqrt_lt_R0. lra. }
  cbv zeta. split; [reflexivity|]. split; [discriminate|]. split; [exact Hv|].
  destruct (update_homing_turn
    (mkProjectile 0 (mkVec2 100 100) (mkVec2 250 0) PHomingMissile
       homing_missile_default 3 (mkVec2 100 100) Samples.pvc0)
    GameState.DT
    [mkEnemy 1 (mkVec2 100 300) Vec2_ZERO Basic Samples.basic_stats0 Samples.evc0]
    eq_refl ltac:(discriminate) Hv ltac:(cbn; lra)
    ltac:(cbn; unfold GameState.DT; lra)) as (th & _ & _ & H).
  exact H.
Defined.

End MotionFacts.

(** ** Weapons: volleys and levelling *)

Module WeaponLevelFacts.
Import Weapon.

Lemma update_fields (w : Weapon) (dt : R) :
  weapon_type (update w dt) = weapon_type w /\ level (update w dt) = level w /\
  stats (update w dt) = stats w.
Proof. unfold update. destruct (Rlt_dec 0 _); repeat split. Qed.

Lemma fire_fields (w : Weapon) (p f : Vec2) :
  weapon_type (fst (fire w p f)) = weapon_type w /\
  level (fst (fire w p f)) = level w /\ stats (fst (fire w p f)) = stats w.
Proof. unfold fire. destruct (negb (can_fire w)); repeat split. Qed.

Ltac level_up_cases H :=
  revert H; unfold level_up, obind, add_u32; cbn;
  repeat (match goal with
          | |- context [(?a <=? ?b)%Z] => destruct (a <=? b)%Z eqn:?
          end; cbn);
  try discriminate; intros H; injection H as <-;
  repeat match goal with
         | E : (_ <=? _)%Z = true |- _ => apply Z.leb_le in E
         | E : (_ <=? _)%Z = false |- _ => apply Z.leb_gt in E
         end.

Ltac rmax_lra :=
  unfold Rmax;
  repeat match goal with |- context [Rle_dec ?a ?b] => destruct (Rle_dec a b) end;
  lra.

(** The floor [level_up] keeps the cooldown above while the level stays
    below 5. *)
Lemma reachable_inv (w : Weapon) :
  reachable_weapon w ->
  1 / 10 <= cooldown (stats w) /\
  0 <= speed (projectile_stats (stats w)) /\
  0 <= damage (projectile_stats (stats w)) /\
  0 <= turning_rate (projectile_stats (stats w)) /\
  ((level w <= 4)%Z ->
   match weapon_type w with
   | EnergyBall => 3 / 10 | Pulse => 1 | HomingMissile => 4 / 10
   end <= cooldown (stats w)) /\
  (weapon_type w = Pulse -> 1 / 2 <= cooldown (stats w)).
Proof.
  induction 1 as [t|w w' _ IH Hl|w dt _ IH|w p f _ IH].
  - destruct t; unfold new, WeaponStats_from, ProjectileStats_from,
      energy_ball_default, pulse_default, homing_missile_default;
      cbn [weapon_type level stats cooldown projectile_stats speed damage
           turning_rate];
      repeat split; intros; try discriminate; lra.
  - destruct w as [t l c [cd n sp [dm spd pr wd ht ttl tr]]].
    cbn in IH. destruct IH as (I1 & I2 & I3 & I4 & I5 & I6).
    destruct t; level_up_cases Hl; cbn;
      repeat split; intros; try discriminate; try (exfalso; lia); rmax_lra.
  - destruct (update_fields w dt) as (U1 & U2 & U3). rewrite U1, U2, U3. exact IH.
  - destruct (fire_fields w p f) as (U1 & U2 & U3). rewrite U1, U2, U3. exact IH.
Qed.

(** Levelling up a weapon of the program raises its level by one, keeps its
    type and timer, never raises its cooldown and keeps it at least 0.1 s,
    and never lowers its damage, projectile speed, turning rate or
    projectile count. *)
Theorem level_up_monotone (w w' : Weapon) (Hr : reachable_weapon w)
  (Hl : level_up w = Some w') :
  level w' = (level w + 1)%Z /\ weapon_type w' = weapon_type w /\
  cooldown_remaining w' = cooldown_remaining w /\
  1 / 10 <= cooldown (stats w') <= cooldown (stats w) /\
  damage (projectile_stats (stats w)) <= damage (projectile_stats (stats w')) /\
  speed (projectile_stats (stats w)) <= speed (projectile_stats (stats w')) /\
  turning_rate (projectile_stats (stats w)) <=
    turning_rate (projectile_stats (stats w')) /\
  (projectile_count (stats w) <= projectile_count (stats w'))%Z.
Proof.
  pose proof (reachable_inv w Hr) as (I1 & I2 & I3 & I4 & I5 & I6).
  pose proof (WeaponFacts.level_up_count w w' Hl) as Hc.
  destruct w as [t l c [cd n sp [dm spd pr wd ht ttl tr]]]. cbn in *.
  destruct t; level_up_cases Hl; cbn in *;
    repeat split; try lia; try specialize (I5 ltac:(lia));
    try specialize (I6 eq_refl); rmax_lra.
Qed.

Lemma level_up_monotone_witness :
  reachable_weapon (new Pulse) /\ level_up (new Pulse) <> None /\
  forall w', level_up (new Pulse) = Some w' ->
    cooldown (stats w') <= cooldown (stats (new Pulse)).
Proof.
  split; [apply rw_new|].
  split; [unfold level_up, obind, add_u32, new; cbn -[Rmax]; discriminate|].
  intros w' Hw'.
  exact (proj2 (proj1 (proj2 (proj2 (proj2
    (level_up_monotone (new Pulse) w' (rw_new Pulse) Hw')))))).
Defined.

Lemma vlength_zero : vlength Vec2_ZERO = 0.
Proof.
  unfold vlength, length_squared. cbn.
  replace (0 * 0 + 0 * 0) with 0 by ring. apply sqrt_0.
Qed.

(** A ready weapon of the program, fired with a non-zero facing, emits one
    projectile request for each of its [projectile_count] (a pulse weapon
    exactly one), each of the weapon's own projectile type, at the player's
    position, carrying the weapon's projectile stats, and flying at exactly
    that [speed] (a pulse standing still). *)
Theorem fire_volley (w : Weapon) (p f : Vec2) (Hr : reachable_weapon w)
  (Hcd : cooldown_remaining w <= 0) (Hf : 0 < vlength f) :
  let cmds := snd (fire w p f) in
  let ps := projectile_stats (stats w) in
  List.length cmds =
    match weapon_type w with
    | Pulse => 1%nat
    | _ => Z.to_nat (projectile_count (stats w))
    end /\
  Forall (fun c =>
    match c with
    | SpawnProjectile t q v s =>
        t = match weapon_type w with
            | EnergyBall => PEnergyBall | Pulse => PPulse
            | HomingMissile => PHomingMissile
            end /\
        q = p /\ s = ps /\
        vlength v = match weapon_type w with Pulse => 0 | _ => speed ps end
    | SpawnEnemy _ _ => False
    end) cmds.
Proof.
  pose proof (reachable_inv w Hr) as (_ & Hs & _).
  pose proof (WeaponFacts.reachable_count w Hr) as Hc.
  cbv zeta. unfold fire, can_fire.
  destruct (Rle_dec (cooldown_remaining w) 0) as [_|Hn]; [|contradiction].
  destruct w as [t l c s]; cbn in *.
  assert (Hfan : forall pt,
    Forall (fun c => match c with
      | SpawnProjectile t' q v s' =>
          t' = pt /\ q = p /\ s' = projectile_stats s /\
          vlength v = speed (projectile_stats s)
      | SpawnEnemy _ _ => False
      end) (fan pt (mkWeapon t l (cooldown s) s) p f)).
  { intros pt. apply Forall_forall. intros cm Hcm.
    unfold fan in Hcm. apply in_map_iff in Hcm. destruct Hcm as [i [<- _]].
    cbn. repeat split.
    apply MotionFacts.vlength_scaled_unit; [|exact Hs].
    unfold rotate_vector. cbv zeta.
    rewrite MotionFacts.vlength_rot. exact Hf. }
  assert (Hlen : forall pt,
    List.length (fan pt (mkWeapon t l (cooldown s) s) p f) =
    Z.to_nat (projectile_count s)).
  { intros pt. unfold fan. rewrite length_map, length_seq. reflexivity. }
  destruct t; cbn.
  - unfold fire_energy_ball. cbn.
    destruct (projectile_count s =? 1)%Z eqn:E1.
    + apply Z.eqb_eq in E1. rewrite E1. split; [reflexivity|].
      constructor; [|constructor]. repeat split.
      apply MotionFacts.vlength_scaled_unit; [exact Hf | exact Hs].
    + split; [apply Hlen | apply Hfan].
  - split; [reflexivity|]. constructor; [|constructor].
    repeat split. apply vlength_zero.
  - unfold fire_homing_missile. cbn.
    destruct (projectile_count s =? 1)%Z eqn:E1.
    + apply Z.eqb_eq in E1. rewrite E1. split; [reflexivity|].
      constructor; [|constructor]. repeat split.
      apply MotionFacts.vlength_scaled_unit; [exact Hf | exact Hs].
    + split; [apply Hlen | apply Hfan].
Qed.

Lemma fire_volley_witness :
  let w := match level_up (new EnergyBall) with Some w => w | None => new EnergyBall end in
  reachable_weapon w /\ cooldown_remaining w <= 0 /\ 0 < vlength (mkVec2 1 0) /\
  List.length (snd (fire w (mkVec2 400 300) (mkVec2 1 0))) = 2%nat.
Proof.
  assert (Hf : 0 < vlength (mkVec2 1 0)).
  { unfold vlength, length_squared. cbn. apply sqrt_lt_R0. lra. }
  assert (Hr : reachable_weapon
    (match level_up (new EnergyBall) with Some w => w | None => new EnergyBall end)).
  { destruct (level_up (new EnergyBall)) eqn:E;
      [apply (rw_level_up (new EnergyBall)); [apply rw_new | exact E] | apply rw_new]. }
  assert (Hcd : cooldown_remaining
    (match level_up (new EnergyBall) with Some w => w | None => new EnergyBall end) <= 0).
  { unfold level_up, obind, add_u32, new; cbn -[Rmax]; lra. }
  cbv zeta. split; [exact Hr|]. split; [exact Hcd|]. split; [exact Hf|].
  exact (proj1 (fire_volley _ (mkVec2 400 300) (mkVec2 1 0) Hr Hcd Hf)).
Defined.

End WeaponLevelFacts.

(** ** Spawning: entity ids and spawn positions *)

Module SpawnIdFacts.
Import GameState.

Lemma fresh_of_perm (gs gs' : GameState) :
  Permutation (entity_ids gs') (next_entity_id gs :: entity_ids gs) ->
  next_entity_id gs' = (next_entity_id gs + 1)%Z ->
  fresh_ids gs -> fresh_ids gs'.
Proof.
  intros Hp Hn [Hnd Hlt]. split.
  - apply Permutation_NoDup with (next_entity_id gs :: entity_ids gs).
    + apply Permutation_sym. exact Hp.
    + apply NoDup_cons; [|exact Hnd]. intros Hin. rewrite Forall_forall in Hlt. specialize (Hlt _ Hin). lia.
  - apply Forall_forall. intros x Hx. apply (Permutation_in _ Hp) in Hx.
    rewrite Hn. destruct Hx as [<-|Hx]; [lia|].
    rewrite Forall_forall in Hlt. specialize (Hlt _ Hx). lia.
Qed.

Lemma spawn_projectile_spec (gs : GameState) (t : ProjectileType) (p v : Vec2) :
  (spawn_projectile gs t p v = None <-> (U64_MAX < next_entity_id gs + 1)%Z) /\
  forall gs', spawn_projectile gs t p v = Some gs' ->
    next_entity_id gs' = (next_entity_id gs + 1)%Z /\
    enemies gs' = enemies gs /\
    exists q, projectiles gs' = projectiles gs ++ [q] /\
      p_id q = next_entity_id gs /\ projectile_type q = t /\ p_pos q = p.
Proof.
  unfold spawn_projectile, obind, add_u64.
  destruct (next_entity_id gs + 1 <=? U64_MAX)%Z eqn:E.
  - apply Z.leb_le in E. split; [split; [discriminate | lia]|].
    intros gs' H. injection H as <-. destruct gs.
    destruct t; cbn; (split; [reflexivity|]); (split; [reflexivity|]);
      eexists; repeat split.
  - apply Z.leb_gt in E. split; [split; [lia | reflexivity]|].
    discriminate.
Qed.

Lemma spawn_enemy_spec (env : Env) (gs : GameState) (t : EnemyType) (p : Vec2) :
  (spawn_enemy env gs t p = None <-> (U64_MAX < next_entity_id gs + 1)%Z) /\
  forall gs' r, spawn_enemy env gs t p = Some (gs', r) ->
    r = Ok tt /\
    next_entity_id gs' = (next_entity_id gs + 1)%Z /\
    projectiles gs' = projectiles gs /\
    exists e, enemies gs' = enemies gs ++ [e] /\
      e_id e = next_entity_id gs /\ enemy_type e = t /\ e_pos e = p.
Proof.
  unfold spawn_enemy, obind, add_u64.
  destruct (next_entity_id gs + 1 <=? U64_MAX)%Z eqn:E.
  - apply Z.leb_le in E. split; [split; [discriminate | lia]|].
    intros gs' r H. destruct gs. cbn in H. injection H as <- <-.
    cbn. repeat split. eexists; repeat split.
  - apply Z.leb_gt in E. split; [split; [lia | reflexivity]|].
    discriminate.
Qed.

Lemma execute_spawn_commands_none (env : Env) (cmds : list SpawnCommand) :
  fold_left (fun ogs command =>
    gs <- ogs ;;
    match command with
    | SpawnProjectile projectile_type pos vel _ =>
        spawn_projectile gs projectile_type pos vel
    | SpawnEnemy enemy_type pos =>
        r <- spawn_enemy env gs enemy_type pos ;;
        Some (fst r)
    end) cmds None = None.
Proof. induction cmds as [|c cmds IH]; [reflexivity|]. exact IH. Qed.

Lemma execute_spawn_commands_cons (env : Env) (gs : GameState)
  (c : SpawnCommand) (cmds : list SpawnCommand) :
  execute_spawn_commands env gs (c :: cmds) =
  match match c with
        | SpawnProjectile t pos vel _ => spawn_projectile gs t pos vel
        | SpawnEnemy t pos => r <- spawn_enemy env gs t pos ;; Some (fst r)
        end with
  | Some g => execute_spawn_commands env g cmds
  | None => None
  end.
Proof.
  unfold execute_spawn_commands. cbn [fold_left].
  destruct c as [t pos vel s|t pos].
  - cbn [obind]. destruct (spawn_projectile gs t pos vel); [reflexivity|].
    apply execute_spawn_commands_none.
  - cbn [obind]. destruct (spawn_enemy env gs t pos) as [[g r]|]; cbn [obind fst];
      [reflexivity|]. apply execute_spawn_commands_none.
Qed.

(** [execute_spawn_commands] fails (the [u64] id counter overflowing) exactly
    when the counter cannot advance once per request; otherwise each
    request appends one entity (enemy or projectile) after the existing
    ones, the counter advances by the number of requests, and ids stay
    pairwise distinct and below the counter. *)
Theorem execute_spawn_commands_spec (env : Env) (gs : GameState)
  (cmds : list SpawnCommand) (Hn : (next_entity_id gs <= U64_MAX)%Z) :
  (execute_spawn_commands env gs cmds = None <->
   (U64_MAX < next_entity_id gs + Z.of_nat (List.length cmds))%Z) /\
  forall gs', execute_spawn_commands env gs cmds = Some gs' ->
    next_entity_id gs' = (next_entity_id gs + Z.of_nat (List.length cmds))%Z /\
    (exists es ps, enemies gs' = enemies gs ++ es /\
       projectiles gs' = projectiles gs ++ ps /\
       (List.length es + List.length ps = List.length cmds)%nat) /\
    (fresh_ids gs -> fresh_ids gs').
Proof.
  revert gs Hn. induction cmds as [|c cmds IH]; intros gs Hn.
  - unfold execute_spawn_commands; cbn [fold_left List.length].
    split; [split; [discriminate | lia]|].
    intros gs' H. injection H as <-. split; [lia|]. split; [|tauto].
    exists [], []. rewrite !app_nil_r. repeat split.
  - rewrite execute_spawn_commands_cons.
    assert (Hstep : forall g,
      match c with
      | SpawnProjectile t pos vel _ => spawn_projectile gs t pos vel
      | SpawnEnemy t pos => r <- spawn_enemy env gs t pos ;; Some (fst r)
      end = Some g ->
      next_entity_id g = (next_entity_id gs + 1)%Z /\
      (exists es ps, enemies g = enemies gs ++ es /\
         projectiles g = projectiles gs ++ ps /\
         (List.length es + List.length ps = 1)%nat) /\
      (fresh_ids gs -> fresh_ids g)).
    { intros g Hg. destruct c as [t pos vel s|t pos].
      - destruct (spawn_projectile_spec gs t pos vel) as [_ Hs].
        destruct (Hs g Hg) as (G1 & G2 & q & G3 & G4 & _).
        split; [exact G1|]. split; [exists [], [q]; rewrite app_nil_r; auto|].
        apply fresh_of_perm; [|exact G1].
        unfold entity_ids. rewrite G2, G3, map_app. cbn [map]. rewrite G4.
        rewrite app_assoc. apply Permutation_sym, Permutation_cons_append.
      - destruct (spawn_enemy env gs t pos) as [[g' r]|] eqn:Eg;
          cbn [obind fst] in Hg; [|discriminate]. injection Hg as <-.
        destruct (spawn_enemy_spec env gs t pos) as [_ Hs].
        destruct (Hs g' r Eg) as (_ & G1 & G2 & e & G3 & G4 & _).
        split; [exact G1|]. split; [exists [e], []; rewrite app_nil_r; auto|].
        apply fresh_of_perm; [|exact G1].
        unfold entity_ids. rewrite G2, G3, map_app. cbn [map]. rewrite G4.
        rewrite <- app_assoc. cbn [app]. apply Permutation_sym, Permutation_middle. }
    assert (Hnone :
      match c with
      | SpawnProjectile t pos vel _ => spawn_projectile gs t pos vel
      | SpawnEnemy t pos => r <- spawn_enemy env gs t pos ;; Some (fst r)
      end = None <-> (U64_MAX < next_entity_id gs + 1)%Z).
    { destruct c as [t pos vel s|t pos].
      - apply (spawn_projectile_spec gs t pos vel).
      - destruct (spawn_enemy_spec env gs t pos) as [Hs _].
        rewrite <- Hs. destruct (spawn_enemy env gs t pos); cbn; split;
          congruence. }
    destruct (match c with
              | SpawnProjectile t pos vel _ => spawn_projectile gs t pos vel
              | SpawnEnemy t pos => r <- spawn_enemy env gs t pos ;; Some (fst r)
              end) as [g|] eqn:Eg.
    + destruct (Hstep g eq_refl) as (S1 & (es1 & ps1 & S2 & S3 & S4) & S5).
      assert (Hng : (next_entity_id g <= U64_MAX)%Z).
      { rewrite S1. destruct (Z.le_gt_cases (next_entity_id gs + 1) U64_MAX);
          [assumption|]. apply Hnone in H. discriminate. }
      destruct (IH g Hng) as [I1 I2]. cbn [List.length].
      split; [rewrite I1, S1; lia|].
      intros gs' H. destruct (I2 gs' H) as (J1 & (es2 & ps2 & J2 & J3 & J4) & J5).
      split; [rewrite J1, S1; lia|]. split.
      * exists (es1 ++ es2), (ps1 ++ ps2).
        rewrite J2, J3, S2, S3, !app_assoc, !length_app. repeat split. lia.
      * intros Hf. apply J5, S5, Hf.
    + cbn [List.length].
      split; [split; [intros _; pose proof (proj1 Hnone eq_refl); lia | reflexivity]|].
      discriminate.
Qed.

Lemma execute_spawn_commands_spec_witness :
  (next_entity_id Samples.gs0 <= U64_MAX)%Z /\
  execute_spawn_commands Samples.env0 Samples.gs0
    [SpawnEnemy Basic (mkVec2 0 0); SpawnProjectile PPulse (mkVec2 1 1) Vec2_ZERO pulse_default]
    <> None.
Proof.
  assert (Hn : (next_entity_id Samples.gs0 <= U64_MAX)%Z) by (vm_compute; discriminate).
  split; [exact Hn|]. intros H.
  apply (proj1 (execute_spawn_commands_spec Samples.env0 Samples.gs0
    [SpawnEnemy Basic (mkVec2 0 0); SpawnProjectile PPulse (mkVec2 1 1) Vec2_ZERO pulse_default]
    Hn)) in H.
  vm_compute in H. discriminate.
Defined.

Lemma get_spawn_position_spec (env : Env) (gs : GameState)
  (Hd : forall k, 0 <= rand_draw env k <= 1)
  (Hw : 0 <= screen_width env) (Hh : 0 <= screen_height env) :
  let '((x, y), gs') := playing.get_spawn_position env gs in
  (x = 0 \/ x = screen_width env \/ y = 0 \/ y = screen_height env) /\
  0 <= x <= screen_width env /\ 0 <= y <= screen_height env /\
  exists k, gs' = set_rng gs k.
Proof.
  unfold playing.get_spawn_position, gen_range_0_2, gen_range.
  destruct gs. cbn.
  repeat (first [ match goal with
                  | |- context [Req_dec_T ?a ?b] => destruct (Req_dec_T a b)
                  end
                | match goal with
                  | |- context [Rlt_dec ?a ?b] => destruct (Rlt_dec a b)
                  end ]; cbn);
  repeat match goal with
         | |- context [rand_draw env ?k] =>
             let H := fresh "D" in
             pose proof (Hd k) as H; generalize dependent (rand_draw env k); intros
         end;
  (split; [first [left; reflexivity | right; left; reflexivity
                 | right; right; left; reflexivity
                 | right; right; right; reflexivity
                 | left; assumption | right; left; assumption] |]);
  (split; [split; nra|]); (split; [split; nra|]);
  eexists; reflexivity.
Qed.

Lemma spawn_n_none (env : Env) (t : EnemyType)
  (Hd : forall k, 0 <= rand_draw env k <= 1)
  (Hw : 0 <= screen_width env) (Hh : 0 <= screen_height env) (n : nat) :
  forall gs, (next_entity_id gs <= U64_MAX)%Z ->
    (playing.spawn_n env gs t n = None <->
     (U64_MAX < next_entity_id gs + Z.of_nat n)%Z).
Proof.
  induction n as [|n IH]; intros gs Hn.
  - cbn [playing.spawn_n Z.of_nat]. split; [discriminate | lia].
  - cbn [playing.spawn_n].
    pose proof (get_spawn_position_spec env gs Hd Hw Hh) as Hp.
    destruct (playing.get_spawn_position env gs) as [[x y] g1].
    destruct Hp as (_ & _ & _ & k & ->).
    assert (Hk : next_entity_id (set_rng gs k) = next_entity_id gs)
      by (destruct gs; reflexivity).
    destruct (spawn_enemy_spec env (set_rng gs k) t (mkVec2 x y)) as [Hs1 Hs2].
    destruct (spawn_enemy env (set_rng gs k) t (mkVec2 x y)) as [[g2 r2]|] eqn:E2;
      cbn [obind].
    + destruct (Hs2 g2 r2 eq_refl) as (-> & G1 & _).
      rewrite Hk in G1.
      destruct (Z_le_gt_dec (next_entity_id gs + 1) U64_MAX) as [Hle|Hgt].
      * rewrite IH by lia. rewrite G1. lia.
      * exfalso. assert (Hc : (U64_MAX < next_entity_id (set_rng gs k) + 1)%Z)
          by (rewrite Hk; lia).
        apply (proj2 Hs1) in Hc. discriminate Hc.
    + split; [intros _ | intros _; reflexivity].
      pose proof (proj1 Hs1 eq_refl). lia.
Qed.

Lemma seq_add_shift (n m : nat) :
  map (fun k => (n + k)%nat) (seq 0 m) = seq (0 + n) m.
Proof.
  cbn. revert n. induction m as [|m IH]; intros n; [reflexivity|].
  cbn. rewrite Nat.add_0_r. f_equal.
  rewrite <- seq_shift, map_map, <- (IH (S n)).
  apply map_ext. intros a. lia.
Qed.

Lemma spawn_n_spec (env : Env) (t : EnemyType)
  (Hd : forall k, 0 <= rand_draw env k <= 1)
  (Hw : 0 <= screen_width env) (Hh : 0 <= screen_height env) (n : nat) :
  forall gs gs' r, playing.spawn_n env gs t n = Some (gs', r) ->
    r = Ok tt /\
    next_entity_id gs' = (next_entity_id gs + Z.of_nat n)%Z /\
    projectiles gs' = projectiles gs /\
    exists es, enemies gs' = enemies gs ++ es /\
      map enemy_type es = repeat t n /\
      map e_id es = map (fun k => (next_entity_id gs + Z.of_nat k)%Z) (seq 0 n) /\
      Forall (fun e =>
        (vx (e_pos e) = 0 \/ vx (e_pos e) = screen_width env \/
         vy (e_pos e) = 0 \/ vy (e_pos e) = screen_height env) /\
        0 <= vx (e_pos e) <= screen_width env /\
        0 <= vy (e_pos e) <= screen_height env) es.
Proof.
  induction n as [|n IH]; intros gs gs' r H.
  - cbn in H. injection H as <- <-. split; [reflexivity|].
    split; [lia|]. split; [reflexivity|].
    exists []. rewrite app_nil_r. repeat split; constructor.
  - cbn [playing.spawn_n] in H.
    pose proof (get_spawn_position_spec env gs Hd Hw Hh) as Hp.
    destruct (playing.get_spawn_position env gs) as [[x y] g1].
    destruct Hp as (B & Bx & By & k & ->).
    destruct (spawn_enemy env (set_rng gs k) t (mkVec2 x y)) as [[g2 r2]|] eqn:E2;
      cbn [obind] in H; [|discriminate].
    destruct (spawn_enemy_spec env (set_rng gs k) t (mkVec2 x y)) as [_ Hs].
    destruct (Hs g2 r2 E2) as (-> & G1 & G2 & e & G3 & G4 & G5 & G6).
    destruct (IH g2 gs' r H) as (-> & I1 & I2 & es & I3 & I4 & I5 & I6).
    assert (Hk : forall f : GameState -> Z, f = next_entity_id ->
      f (set_rng gs k) = next_entity_id gs) by (intros f ->; destruct gs; reflexivity).
    rewrite (Hk _ eq_refl) in G1, G4.
    split; [reflexivity|].
    split; [rewrite I1, G1; lia|].
    split; [rewrite I2, G2; destruct gs; reflexivity|].
    exists (e :: es). split.
    { rewrite I3, G3. destruct gs. cbn. rewrite <- app_assoc. reflexivity. }
    split; [cbn; rewrite G5, I4; reflexivity|].
    split.
    + cbn [map seq]. rewrite G4, I5, G1, <- seq_shift, map_map. f_equal; [lia|].
      apply map_ext. intros a. lia.
    + constructor; [rewrite G6; cbn; auto | exact I6].
Qed.

(** With random draws in [[0, 1]], a screen of non-negative size and an id
    counter within [u64], [spawn_wave] fails (the id counter overflowing)
    exactly when the counter cannot advance once per enemy of the wave, and
    never reports an error; when it returns, it has appended
    [basic_enemy_count] Basic then [chaser_enemy_count] Chaser enemies, with
    consecutive ids from the counter, each on an edge of the screen;
    projectiles are untouched. *)
Theorem spawn_wave_spec (env : Env) (gs : GameState) (config : WaveConfig)
  (Hd : forall k, 0 <= rand_draw env k <= 1)
  (Hw : 0 <= screen_width env) (Hh : 0 <= screen_height env)
  (Hn : (next_entity_id gs <= U64_MAX)%Z) :
  let nb := Z.to_nat (basic_enemy_count config) in
  let nc := Z.to_nat (chaser_enemy_count config) in
  (playing.spawn_wave env gs config = None <->
   (U64_MAX < next_entity_id gs + Z.of_nat (nb + nc))%Z) /\
  forall gs' r, playing.spawn_wave env gs config = Some (gs', r) ->
  r = Ok tt /\
  next_entity_id gs' = (next_entity_id gs + Z.of_nat (nb + nc))%Z /\
  projectiles gs' = projectiles gs /\
  exists es, enemies gs' = enemies gs ++ es /\
    map enemy_type es = repeat Basic nb ++ repeat Chaser nc /\
    map e_id es = map (fun k => (next_entity_id gs + Z.of_nat k)%Z) (seq 0 (nb + nc)) /\
    Forall (fun e =>
      (vx (e_pos e) = 0 \/ vx (e_pos e) = screen_width env \/
       vy (e_pos e) = 0 \/ vy (e_pos e) = screen_height env) /\
      0 <= vx (e_pos e) <= screen_width env /\
      0 <= vy (e_pos e) <= screen_height env) es.
Proof.
  cbv zeta. split.
  { unfold playing.spawn_wave.
    destruct (spawn_n_none env Basic Hd Hw Hh
      (Z.to_nat (basic_enemy_count config)) gs Hn) as [N1 N2].
    destruct (playing.spawn_n env gs Basic (Z.to_nat (basic_enemy_count config)))
      as [[g1 r1]|] eqn:E1; cbn [obind].
    - destruct (spawn_n_spec env Basic Hd Hw Hh _ gs g1 r1 E1) as (-> & A1 & _).
      destruct (Z_le_gt_dec (next_entity_id g1) U64_MAX) as [Hle|Hgt].
      + rewrite (spawn_n_none env Chaser Hd Hw Hh _ g1 Hle), A1. lia.
      + exfalso. assert (Hc : Some (g1, Ok tt) = None) by (apply N2; lia).
        discriminate.
    - split; [intros _ | intros _; reflexivity].
      pose proof (N1 eq_refl). lia. }
  intros gs' r H. unfold playing.spawn_wave in H.
  destruct (playing.spawn_n env gs Basic (Z.to_nat (basic_enemy_count config)))
    as [[g1 r1]|] eqn:E1; cbn [obind] in H; [|discriminate].
  destruct (spawn_n_spec env Basic Hd Hw Hh _ gs g1 r1 E1)
    as (-> & A1 & A2 & es1 & A3 & A4 & A5 & A6).
  destruct (spawn_n_spec env Chaser Hd Hw Hh _ g1 gs' r H)
    as (-> & B1 & B2 & es2 & B3 & B4 & B5 & B6).
  split; [reflexivity|].
  split; [rewrite B1, A1; lia|].
  split; [rewrite B2, A2; reflexivity|].
  exists (es1 ++ es2). split; [rewrite B3, A3, app_assoc; reflexivity|].
  split; [rewrite map_app, A4, B4; reflexivity|].
  split; [|apply Forall_app; split; assumption].
  rewrite map_app, A5, B5, A1, seq_app, map_app. f_equal.
  replace (seq (0 + Z.to_nat (basic_enemy_count config))
             (Z.to_nat (chaser_enemy_count config)))
    with (map (fun k => (Z.to_nat (basic_enemy_count config) + k)%nat)
            (seq 0 (Z.to_nat (chaser_enemy_count config)))).
  - rewrite map_map. apply map_ext. intros a. lia.
  - apply seq_add_shift.
Qed.

Lemma spawn_wave_spec_witness :
  (forall k, 0 <= rand_draw Samples.env0 k <= 1) /\
  0 <= screen_width Samples.env0 /\ 0 <= screen_height Samples.env0 /\
  (next_entity_id Samples.gs0 <= U64_MAX)%Z /\
  exists gs' r, playing.spawn_wave Samples.env0 Samples.gs0 (mkWaveConfig 2 1) =
    Some (gs', r) /\ r = Ok tt.
Proof.
  assert (Hd : forall k, 0 <= rand_draw Samples.env0 k <= 1) by (intros; cbn; lra).
  assert (Hw : 0 <= screen_width Samples.env0) by (cbn; lra).
  assert (Hh : 0 <= screen_height Samples.env0) by (cbn; lra).
  assert (Hn : (next_entity_id Samples.gs0 <= U64_MAX)%Z) by (vm_compute; discriminate).
  split; [exact Hd|]. split; [exact Hw|]. split; [exact Hh|]. split; [exact Hn|].
  destruct (spawn_wave_spec Samples.env0 Samples.gs0 (mkWaveConfig 2 1)
    Hd Hw Hh Hn) as [N S].
  destruct (playing.spawn_wave Samples.env0 Samples.gs0 (mkWaveConfig 2 1))
    as [[gs' r]|] eqn:E.
  - exists gs', r. split; [reflexivity|]. exact (proj1 (S gs' r eq_refl)).
  - exfalso. pose proof (proj1 N eq_refl) as C. vm_compute in C. discriminate.
Defined.

End SpawnIdFacts.

(** ** The frame clock and the state switch *)

Module FrameFacts.
Import GameState.

Lemma logic_steps_spec (t : R) (n : Z) (r : option (R * Z)) :
  logic_steps t n r ->
  match r with
  | Some (t', m) =>
      t' < DT /\ (n <= m)%Z /\ t = t' + IZR (m - n) * DT /\
      (0 <= t -> 0 <= t') /\ ((n <= U32_MAX)%Z -> (m <= U32_MAX)%Z)
  | None => IZR (U32_MAX - n + 1) * DT <= t
  end.
Proof.
  induction 1 as [t n Ht | t n r Ht Hn Hs IH | t n Ht Hn]; unfold DT in *.
  - replace (n - n)%Z with 0%Z by lia.
    repeat split; try lra; try lia; auto.
  - destruct r as [[t' m]|].
    + destruct IH as (A & B & C & D & E).
      split; [exact A|]. split; [lia|]. split.
      * replace (m - n)%Z with ((m - (n + 1)) + 1)%Z by lia.
        rewrite plus_IZR. lra.
      * split; [intros _; apply D; lra | intros _; apply E; exact Hn].
    + replace (U32_MAX - n + 1)%Z with ((U32_MAX - (n + 1) + 1) + 1)%Z by lia.
      rewrite plus_IZR. lra.
  - assert (IZR (U32_MAX - n + 1) <= 1) by (apply IZR_le; lia). lra.
Qed.

Lemma logic_steps_total (k : nat) :
  forall t n, t < INR k * DT -> exists r, logic_steps t n r.
Proof.
  induction k as [|k IH]; intros t n Ht.
  - exists (Some (t, n)). constructor. unfold DT in *. cbn in Ht. lra.
  - destruct (Rlt_dec t DT) as [Hlt|Hge].
    + exists (Some (t, n)). constructor. exact Hlt.
    + destruct (Z_le_gt_dec (n + 1) U32_MAX) as [Hle|Hgt].
      * destruct (IH (t - DT) (n + 1)%Z) as [r Hr].
        { rewrite S_INR in Ht. lra. }
        exists r. apply ls_step; [lra | exact Hle | exact Hr].
      * exists None. apply ls_overflow; [lra | lia].
Qed.

(** [update_time_for_logic] always terminates: with a [u32] counter it
    either overflows (only once the accumulated time reaches
    [(U32_MAX - n + 1) * DT]) or returns the number [n] of whole [DT] steps
    taken, leaves less than one [DT] of time accumulated (never negative
    when the accumulated time was not), accounts for all elapsed time, sets
    both frame timestamps to [now] and resets the counter to 0. *)
Theorem update_time_for_logic_spec (now : R) (tm : Timing)
  (Hn : (0 <= n_logic_updates tm <= U32_MAX)%Z) :
  (exists r, update_time_for_logic now tm r) /\
  forall r, update_time_for_logic now tm r ->
  let total := t_passed tm + (now - t_prev tm) in
  match r with
  | Some (tm', n) =>
      t_frame tm' = now /\ t_prev tm' = now /\ n_logic_updates tm' = 0%Z /\
      (n_logic_updates tm <= n <= U32_MAX)%Z /\
      t_passed tm' < DT /\ (0 <= total -> 0 <= t_passed tm') /\
      total = t_passed tm' + IZR (n - n_logic_updates tm) * DT
  | None => IZR (U32_MAX - n_logic_updates tm + 1) * DT <= total
  end.
Proof.
  split.
  - set (total := t_passed tm + (now - t_prev tm)).
    destruct (archimed (total / DT)) as [Hup _].
    assert (HDT : 0 < DT) by (unfold DT; lra).
    destruct (logic_steps_total (Z.to_nat (up (total / DT))) total
                (n_logic_updates tm)) as [r Hr].
    { assert (Hk : total < IZR (up (total / DT)) * DT).
      { apply (Rmult_lt_compat_r DT) in Hup; [|exact HDT].
        unfold Rdiv in Hup. rewrite Rmult_assoc, Rinv_l, Rmult_1_r in Hup; lra. }
      destruct (Z_le_gt_dec 0 (up (total / DT))) as [H0|H0].
      - rewrite INR_IZR_INZ, Z2Nat.id by exact H0. exact Hk.
      - assert (IZR (up (total / DT)) <= 0) by (apply IZR_le; lia).
        assert (Z.to_nat (up (total / DT)) = 0%nat) as -> by lia.
        cbn. nra. }
    destruct r as [[t' n]|].
    + exists (Some (mkTiming now now t' (if (0 <? n)%Z then 0%Z else n), n)).
      constructor. exact Hr.
    + exists None. constructor. exact Hr.
  - intros r Hr. cbv zeta.
    inversion Hr as [tm0 t' n Hs E1 E2 | tm0 Hs E1 E2]; subst.
    + apply logic_steps_spec in Hs. destruct Hs as (A & B & C & D & E).
      cbn [t_frame t_prev t_passed n_logic_updates].
      specialize (E (proj2 Hn)).
      replace (if (0 <? n)%Z then 0%Z else n) with 0%Z
        by (destruct (Z.ltb_spec 0 n); lia).
      repeat split; auto; lia.
    + apply logic_steps_spec in Hs. exact Hs.
Qed.

Lemma update_time_for_logic_spec_witness :
  (0 <= n_logic_updates (mkTiming 0 0 0 0) <= U32_MAX)%Z /\
  exists r, update_time_for_logic (1 / 10) (mkTiming 0 0 0 0) r.
Proof.
  assert (Hn : (0 <= n_logic_updates (mkTiming 0 0 0 0) <= U32_MAX)%Z)
    by (cbn; unfold U32_MAX; lia).
  split; [exact Hn|].
  exact (proj1 (update_time_for_logic_spec (1 / 10) (mkTiming 0 0 0 0) Hn)).
Defined.

(** [apply_next_state] does nothing without a pending transition; with one
    it consumes it and enters that state, re-anchors the frame clock only
    when entering [Playing], leaves the entities, the wave and the id
    counter alone, and touches the player only when entering [GameOver]:
    then the player is back at the screen centre, at rest, without weapons,
    at level 0 with no experience, and keeps its stats. *)
Theorem apply_next_state_spec (env : Env) (now : R) (gs : GameState) (tp : R) :
  let '(gs', tp') := apply_next_state env now gs tp in
  match next_state gs with
  | None => gs' = gs /\ tp' = tp
  | Some ns =>
      state gs' = ns /\ next_state gs' = None /\
      tp' = (match ns with Playing => now | _ => tp end) /\
      enemies gs' = enemies gs /\ projectiles gs' = projectiles gs /\
      wave gs' = wave gs /\ next_entity_id gs' = next_entity_id gs /\
      (ns <> GameOver -> player gs' = player gs) /\
      (ns = GameOver ->
         Player.pos (player gs') =
           mkVec2 (screen_width env / 2) (screen_height env / 2) /\
         Player.vel (player gs') = Vec2_ZERO /\
         Player.weapons (player gs') = [] /\
         Player.xp (player gs') = 0%Z /\ Player.level (player gs') = 0%Z /\
         Player.stats (player gs') = Player.stats (player gs))
  end.
Proof.
  destruct gs. unfold apply_next_state. cbn.
  destruct next_state0 as [[]|]; cbn; repeat split; congruence.
Qed.

End FrameFacts.

(** ** The despawn passes and one logic tick *)

Module LogicFacts.
Import GameState.

Lemma hs_contains_In (s : list Z) (x : Z) : hs_contains s x = true <-> In x s.
Proof.
  unfold hs_contains. rewrite existsb_exists. split.
  - intros [y [Hy E]]. apply Z.eqb_eq in E. subst. exact Hy.
  - intros H. exists x. split; [exact H | apply Z.eqb_refl].
Qed.

Lemma hs_insert_nodup (s : list Z) (x : Z) : NoDup s -> NoDup (hs_insert s x).
Proof.
  intros H. unfold hs_insert. destruct (hs_contains s x) eqn:E; [exact H|].
  apply (Permutation_NoDup (l := x :: s)); [apply Permutation_cons_append|].
  constructor; [|exact H]. intros Hin. apply hs_contains_In in Hin. congruence.
Qed.

Lemma existsb_false_In {A} (f : A -> bool) (l : list A) (a : A) :
  existsb f l = false -> In a l -> f a = false.
Proof.
  intros H Ha. destruct (f a) eqn:E; [|reflexivity].
  assert (existsb f l = true) by (apply existsb_exists; exists a; auto).
  congruence.
Qed.

Lemma despawn_enemies_contains (env : Env) (gs : GameState) (x : Z) :
  hs_contains (enemies_to_despawn (despawn_enemies_out_of_bounds env gs)) x
  = hs_contains (enemies_to_despawn gs) x ||
    existsb (fun e => negb (is_in_bounds env (e_pos e)
                              (out_of_bounds_margin (game_constants gs)))
                      && Z.eqb x (e_id e)) (enemies gs).
Proof.
  destruct gs. unfold despawn_enemies_out_of_bounds.
  cbn -[hs_contains hs_insert is_in_bounds].
  generalize enemies_to_despawn0 as s.
  induction enemies0 as [|e l IH]; intros s;
    cbn -[hs_contains hs_insert is_in_bounds].
  - rewrite orb_false_r. reflexivity.
  - rewrite IH. destruct (is_in_bounds _ _ _);
      cbn -[hs_contains hs_insert is_in_bounds];
      rewrite ?BoundsFacts.hs_contains_insert;
      destruct (hs_contains s x), (Z.eqb x (e_id e)); reflexivity.
Qed.

Lemma despawn_enemies_nodup (env : Env) (gs : GameState) :
  NoDup (enemies_to_despawn gs) ->
  NoDup (enemies_to_despawn (despawn_enemies_out_of_bounds env gs)).
Proof.
  destruct gs. unfold despawn_enemies_out_of_bounds.
  cbn -[hs_contains hs_insert is_in_bounds].
  generalize enemies_to_despawn0 as s.
  induction enemies0 as [|e l IH]; intros s Hs;
    cbn -[hs_contains hs_insert is_in_bounds]; [exact Hs|].
  apply IH. destruct (negb _); [apply hs_insert_nodup|]; exact Hs.
Qed.

Lemma despawn_enemies_fields (env : Env) (gs : GameState) :
  let g := despawn_enemies_out_of_bounds env gs in
  enemies g = enemies gs /\ projectiles g = projectiles gs /\
  projectiles_to_despawn g = projectiles_to_despawn gs /\
  game_constants g = game_constants gs /\ player g = player gs /\
  next_state g = next_state gs.
Proof. destruct gs; repeat split. Qed.

Lemma despawn_projectiles_fields (env : Env) (gs : GameState) :
  let g := despawn_projectiles_out_of_bounds env gs in
  enemies g = enemies gs /\ projectiles g = projectiles gs /\
  enemies_to_despawn g = enemies_to_despawn gs /\
  game_constants g = game_constants gs /\ player g = player gs /\
  next_state g = next_state gs.
Proof. destruct gs; repeat split. Qed.

Lemma mark_expired_contains (gs : GameState) (x : Z) :
  hs_contains (projectiles_to_despawn (playing.mark_expired gs)) x
  = hs_contains (projectiles_to_despawn gs) x ||
    existsb (fun p => projectile.is_expired p && Z.eqb x (p_id p)) (projectiles gs).
Proof.
  destruct gs. unfold playing.mark_expired.
  cbn -[hs_contains hs_insert projectile.is_expired].
  generalize projectiles_to_despawn0 as s.
  induction projectiles0 as [|q l IH]; intros s;
    cbn -[hs_contains hs_insert projectile.is_expired].
  - rewrite orb_false_r. reflexivity.
  - rewrite IH. destruct (projectile.is_expired q);
      cbn -[hs_contains hs_insert projectile.is_expired];
      rewrite ?BoundsFacts.hs_contains_insert;
      destruct (hs_contains s x), (Z.eqb x (p_id q)); reflexivity.
Qed.

Lemma mark_expired_fields (gs : GameState) :
  let g := playing.mark_expired gs in
  enemies g = enemies gs /\ projectiles g = projectiles gs /\
  enemies_to_despawn g = enemies_to_despawn gs /\
  game_constants g = game_constants gs /\ player g = player gs /\
  next_state g = next_state gs.
Proof. destruct gs; repeat split. Qed.

Lemma constants_check_collisions (gs : GameState) :
  game_constants (check_collisions gs) = game_constants gs.
Proof.
  unfold check_collisions, check_enemy_collisions.
  assert (H1 : game_constants (check_player_enemy_collisions gs) = game_constants gs).
  { unfold check_player_enemy_collisions.
    destruct (fold_left _ _ _) as [go s]. destruct gs, go; reflexivity. }
  assert (H2 : forall g, game_constants (check_projectile_enemy_collisions g) =
                         game_constants g).
  { intros g. unfold check_projectile_enemy_collisions.
    destruct (fold_left _ _ _) as [es ps]. destruct g; reflexivity. }
  transitivity (game_constants
    (check_projectile_enemy_collisions (check_player_enemy_collisions gs))).
  - destruct (check_projectile_enemy_collisions (check_player_enemy_collisions gs));
      reflexivity.
  - rewrite H2. exact H1.
Qed.

Lemma check_player_bounds_spec (env : Env) (gs : GameState) :
  let g := check_player_bounds env gs in
  let p := Player.pos (player gs) in
  enemies g = enemies gs /\ projectiles g = projectiles gs /\
  enemies_to_despawn g = enemies_to_despawn gs /\
  projectiles_to_despawn g = projectiles_to_despawn gs /\
  game_constants g = game_constants gs /\ player g = player gs /\
  (~ (0 <= vx p <= screen_width env /\ 0 <= vy p <= screen_height env) ->
   next_state g = Some GameOver).
Proof.
  cbv zeta. unfold check_player_bounds.
  repeat match goal with
         | |- context [Rlt_dec ?a ?b] => destruct (Rlt_dec a b)
         end;
    destruct gs; cbn; repeat split; intros Ho; try reflexivity;
    exfalso; apply Ho; cbn in *; lra.
Qed.

Lemma add_xp_pos_stats (p p' : Player.Player) (amount : Z) (b : bool) :
  Player.add_xp p amount = Some (p', b) ->
  Player.pos p' = Player.pos p /\ Player.stats p' = Player.stats p.
Proof.
  unfold Player.add_xp, obind.
  destruct (add_u32 (Player.xp p) amount) as [x|]; [|discriminate].
  destruct (Player.xp_for_next_level _) as [th|]; [|discriminate].
  destruct (_ <=? _)%Z; [destruct (add_u32 _ 1) as [l|]; [|discriminate]|];
    intros E; injection E as <- _; split; reflexivity.
Qed.

Lemma process_despawns_spec (gs gs' : GameState) :
  process_despawns gs = Some gs' ->
  enemies gs' = filter (fun e => negb (hs_contains (enemies_to_despawn gs) (e_id e)))
                  (enemies gs) /\
  projectiles gs' = filter (fun p => negb (hs_contains (projectiles_to_despawn gs)
                                             (p_id p))) (projectiles gs) /\
  enemies_to_despawn gs' = [] /\ projectiles_to_despawn gs' = [] /\
  game_constants gs' = game_constants gs /\
  Player.pos (player gs') = Player.pos (player gs) /\
  Player.stats (player gs') = Player.stats (player gs) /\
  ((next_state gs' = next_state gs /\
    Player.level (player gs') = Player.level (player gs)) \/
   (next_state gs' = Some WeaponSelection /\
    Player.level (player gs') = (Player.level (player gs) + 1)%Z)).
Proof.
  unfold process_despawns. intros H.
  destruct (0 <? as_u32 _)%Z.
  - destruct (Player.add_xp (player gs) _) as [[p b]|] eqn:E;
      cbn [obind] in H; [|discriminate].
    destruct (add_xp_pos_stats _ _ _ _ E) as [Hp Hs].
    pose proof (PlayerFacts.add_xp_level _ _ _ _ E) as Hl.
    destruct b, gs; cbn -[hs_contains] in H, Hl; injection H as <-;
      cbn -[hs_contains]; repeat split; auto;
      first [left; split; [reflexivity | lia] | right; split; [reflexivity | lia]].
  - destruct gs; cbn -[hs_contains] in H; injection H as <-;
      cbn -[hs_contains]; repeat split; auto.
Qed.

Lemma execute_spawn_commands_constants (env : Env) (cmds : list SpawnCommand) :
  forall gs gs', execute_spawn_commands env gs cmds = Some gs' ->
  game_constants gs' = game_constants gs.
Proof.
  induction cmds as [|c cmds IH]; intros gs gs' H.
  - injection H as <-. reflexivity.
  - rewrite SpawnIdFacts.execute_spawn_commands_cons in H.
    destruct c as [t pos vel s|t pos].
    + destruct (spawn_projectile gs t pos vel) as [g|] eqn:E; [|discriminate].
      rewrite (IH g gs' H). revert E.
      unfold spawn_projectile, obind, add_u64.
      destruct (_ <=? _)%Z; [|discriminate].
      destruct gs. intros E; injection E as <-. reflexivity.
    + destruct (spawn_enemy env gs t pos) as [[g r]|] eqn:E; cbn [obind fst] in H;
        [|discriminate].
      rewrite (IH g gs' H). revert E.
      unfold spawn_enemy, obind, add_u64.
      destruct (_ <=? _)%Z; [|discriminate].
      destruct gs. cbn. intros E; injection E as <- _. reflexivity.
Qed.

Lemma after_update_passes (env : Env) (g g' : GameState)
  (H : process_despawns (check_player_bounds env (check_collisions
         (despawn_enemies_out_of_bounds env (despawn_projectiles_out_of_bounds env
           (playing.mark_expired g))))) = Some g') :
  let m := out_of_bounds_margin (game_constants g) in
  enemies_to_despawn g' = [] /\ projectiles_to_despawn g' = [] /\
  Forall (fun p => projectile.is_expired p = false /\
            (projectile_type p <> PPulse -> is_in_bounds env (p_pos p) m = true))
    (projectiles g') /\
  Forall (fun e =>
      is_in_bounds env (e_pos e) m = true /\
      Collision.collided (Collision.check_collision (Player.collider (player g'))
        (Player.pos (player g')) (enemy.collider e) (e_pos e)) = false /\
      Forall (fun p => Collision.collided (Collision.check_collision
        (projectile.collider p) (p_pos p) (enemy.collider e) (e_pos e)) = false)
        (projectiles g'))
    (enemies g') /\
  (~ (0 <= vx (Player.pos (player g')) <= screen_width env /\
      0 <= vy (Player.pos (player g')) <= screen_height env) ->
   next_state g' = Some GameOver \/
   (next_state g' = Some WeaponSelection /\
    Player.level (player g') = (Player.level (player g) + 1)%Z)).
Proof.
  cbv zeta.
  destruct (mark_expired_fields g) as (F4e & F4p & F4E & F4c & F4pl & F4n).
  pose proof (mark_expired_contains g) as M4.
  set (g4 := playing.mark_expired g) in *.
  destruct (despawn_projectiles_fields env g4) as (F5e & F5p & F5E & F5c & F5pl & F5n).
  pose proof (BoundsFacts.despawn_pass_contains env g4) as M5.
  set (g5 := despawn_projectiles_out_of_bounds env g4) in *.
  destruct (despawn_enemies_fields env g5) as (F6e & F6p & F6P & F6c & F6pl & F6n).
  pose proof (despawn_enemies_contains env g5) as M6.
  set (g6 := despawn_enemies_out_of_bounds env g5) in *.
  destruct (CollisionPassFacts.check_collisions_marks_aux g6)
    as (M7E & M7P & M7n & F7p & F7pl).
  pose proof (CollisionPassFacts.enemies_check_collisions g6) as F7e.
  pose proof (CollisionPassFacts.enemy_collision_loop_shape (enemies g6)) as Shape.
  pose proof (constants_check_collisions g6) as F7c.
  set (g7 := check_collisions g6) in *.
  destruct (check_player_bounds_spec env g7)
    as (F8e & F8p & F8E & F8P & F8c & F8pl & F8n).
  set (g8 := check_player_bounds env g7) in *.
  destruct (process_despawns_spec g8 g' H)
    as (Pe & Pp & PE & PP & Pc & Ppos & Pst & Pn).
  cbv zeta in *.
  (* margins *)
  assert (Hm5 : game_constants g4 = game_constants g) by exact F4c.
  assert (Hm6 : game_constants g5 = game_constants g) by (rewrite F5c; exact F4c).
  split; [exact PE|]. split; [exact PP|].
  split; [|split].
  - (* surviving projectiles *)
    apply Forall_forall. intros q Hq.
    rewrite Pp in Hq. apply filter_In in Hq as [Hq Hc].
    apply negb_true_iff in Hc.
    rewrite F8P, M7P, F6P, M5, M4 in Hc.
    rewrite F8p, F7p, F6p, F5p, F4p in Hq.
    rewrite F4p in Hc.
    apply orb_false_iff in Hc as [Hc _].
    apply orb_false_iff in Hc as [Hc Hb].
    apply orb_false_iff in Hc as [_ He].
    rewrite Hm5 in Hb.
    pose proof (existsb_false_In _ _ q He Hq) as He'. cbn beta in He'.
    rewrite Z.eqb_refl, andb_true_r in He'.
    pose proof (existsb_false_In _ _ q Hb Hq) as Hb'. cbn beta in Hb'.
    rewrite Z.eqb_refl in Hb'.
    split; [exact He'|]. intros Ht.
    destruct (projectile_type q); [| congruence |];
      cbn in Hb'; apply negb_false_iff; exact Hb'.
  - (* surviving enemies *)
    apply Forall_forall. intros e He.
    rewrite Pe in He. apply filter_In in He as [He Hc].
    apply negb_true_iff in Hc.
    rewrite F8e, F7e in He.
    assert (Hk : In (e_id e, e_pos e, enemy_type e, e_stats e)
      (map (fun x => (e_id x, e_pos x, enemy_type x, e_stats x))
         (enemies g6))).
    { rewrite <- Shape. apply (in_map (fun x => (e_id x, e_pos x, enemy_type x, e_stats x))).
      exact He. }
    apply in_map_iff in Hk. destruct Hk as [e0 [Hk He0]].
    injection Hk as Hid Hpos _ Hst.
    assert (Hcol : enemy.collider e = enemy.collider e0)
      by (unfold enemy.collider; rewrite Hst; reflexivity).
    rewrite F8E, M7E, F6e, M6 in Hc.
    apply orb_false_iff in Hc as [Hc Hpr].
    apply orb_false_iff in Hc as [Hc Hpl].
    apply orb_false_iff in Hc as [_ Hb].
    rewrite Hm6 in Hb.
    rewrite F6e in He0.
    pose proof (existsb_false_In _ _ e0 Hb He0) as Hb'. cbn beta in Hb'.
    rewrite Hid, Z.eqb_refl, andb_true_r in Hb'.
    pose proof (existsb_false_In _ _ e0 Hpl He0) as Hpl'. cbn beta in Hpl'.
    rewrite Hid, Z.eqb_refl, andb_true_r in Hpl'.
    split; [apply negb_false_iff; rewrite <- Hpos; exact Hb'|].
    split.
    + unfold Player.collider. rewrite Pst, Ppos, F8pl, F7pl.
      rewrite Hcol, <- Hpos. exact Hpl'.
    + apply Forall_forall. intros q Hq.
      rewrite Pp in Hq. apply filter_In in Hq as [Hq _].
      rewrite F8p, F7p in Hq.
      pose proof (existsb_false_In _ _ q Hpr Hq) as Hq'. cbn beta in Hq'.
      pose proof (existsb_false_In _ _ e0 Hq' He0) as Hq''. cbn beta in Hq''.
      rewrite Hid, Z.eqb_refl, andb_true_r in Hq''.
      rewrite Hcol, <- Hpos. exact Hq''.
  - (* the player's bounds *)
    intros Ho. rewrite Ppos, F8pl in Ho.
    destruct Pn as [[Pn _]|[Pn Pl]]; [left; rewrite Pn; apply F8n; exact Ho|].
    right. split; [exact Pn|].
    rewrite Pl, F8pl, F7pl, F6pl, F5pl, F4pl. reflexivity.
Qed.

Lemma spawn_enemy_fields (env : Env) (gs g : GameState) (t : EnemyType) (p : Vec2)
  (r : result unit) :
  spawn_enemy env gs t p = Some (g, r) ->
  wave g = wave gs /\ state g = state gs /\ error_message g = error_message gs /\
  player g = player gs.
Proof.
  unfold spawn_enemy, obind, add_u64.
  destruct (_ <=? _)%Z; [|discriminate].
  destruct gs. cbn. intros E; injection E as <- _. repeat split.
Qed.

Lemma spawn_n_fields (env : Env) (t : EnemyType)
  (Hd : forall k, 0 <= rand_draw env k <= 1)
  (Hw : 0 <= screen_width env) (Hh : 0 <= screen_height env) (n : nat) :
  forall gs gs' r, playing.spawn_n env gs t n = Some (gs', r) ->
  wave gs' = wave gs /\ state gs' = state gs /\
  error_message gs' = error_message gs /\ player gs' = player gs.
Proof.
  induction n as [|n IH]; intros gs gs' r H.
  - injection H as <- _. repeat split.
  - cbn [playing.spawn_n] in H.
    pose proof (SpawnIdFacts.get_spawn_position_spec env gs Hd Hw Hh) as Hp.
    destruct (playing.get_spawn_position env gs) as [[x y] g1].
    destruct Hp as (_ & _ & _ & k & ->).
    destruct (spawn_enemy env (set_rng gs k) t (mkVec2 x y)) as [[g2 r2]|] eqn:E2;
      cbn [obind] in H; [|discriminate].
    destruct (spawn_enemy_fields _ _ _ _ _ _ E2) as (A1 & A2 & A3 & A4).
    assert (B : wave g2 = wave gs /\ state g2 = state gs /\
                error_message g2 = error_message gs /\ player g2 = player gs)
      by (rewrite A1, A2, A3, A4; destruct gs; repeat split).
    destruct r2 as [u|err].
    + destruct (IH g2 gs' r H) as (C1 & C2 & C3 & C4).
      rewrite C1, C2, C3, C4. exact B.
    + injection H as <- _. exact B.
Qed.

Lemma player_update_level (p : Player.Player) (dt : R) :
  Player.level (fst (Player.update p dt)) = Player.level p.
Proof.
  unfold Player.update. destruct (Player.update_weapons _ _ _ _). reflexivity.
Qed.

Lemma execute_spawn_commands_player (env : Env) (cmds : list SpawnCommand) :
  forall gs gs', execute_spawn_commands env gs cmds = Some gs' ->
  player gs' = player gs.
Proof.
  induction cmds as [|c cmds IH]; intros gs gs' H.
  - injection H as <-. reflexivity.
  - rewrite SpawnIdFacts.execute_spawn_commands_cons in H.
    destruct c as [t pos vel s|t pos].
    + destruct (spawn_projectile gs t pos vel) as [g|] eqn:E; [|discriminate].
      rewrite (IH g gs' H). revert E.
      unfold spawn_projectile, obind, add_u64.
      destruct (_ <=? _)%Z; [|discriminate].
      destruct gs. intros E; injection E as <-. reflexivity.
    + destruct (spawn_enemy env gs t pos) as [[g r]|] eqn:E; cbn [obind fst] in H;
        [|discriminate].
      rewrite (IH g gs' H). revert E.
      unfold spawn_enemy, obind, add_u64.
      destruct (_ <=? _)%Z; [|discriminate].
      destruct gs. cbn. intros E; injection E as <- _. reflexivity.
Qed.

(** [despawn_enemies_out_of_bounds] adds to the enemy despawn set exactly
    the ids of the enemies lying outside the screen rectangle widened by the
    configured margin on every side, keeps the ids already there, never
    stores an id twice, and changes nothing else of the game state (the
    enemies themselves included). *)
Theorem despawn_enemies_out_of_bounds_spec (env : Env) (gs : GameState) :
  let gs' := despawn_enemies_out_of_bounds env gs in
  let m := out_of_bounds_margin (game_constants gs) in
  (forall x, In x (enemies_to_despawn gs') <->
     In x (enemies_to_despawn gs) \/
     exists e, In e (enemies gs) /\ e_id e = x /\
       ~ (- m <= vx (e_pos e) <= screen_width env + m /\
          - m <= vy (e_pos e) <= screen_height env + m)) /\
  (NoDup (enemies_to_despawn gs) -> NoDup (enemies_to_despawn gs')) /\
  gs' = set_enemies_to_despawn gs (enemies_to_despawn gs').
Proof.
  cbv zeta. split; [|split].
  - intros x. rewrite <- !hs_contains_In, despawn_enemies_contains, orb_true_iff,
      existsb_exists.
    split; intros [H|H]; auto; right.
    + destruct H as [e [He Hc]]. apply andb_prop in Hc as [Hb Hx].
      apply Z.eqb_eq in Hx. exists e. split; [exact He|]. split; [auto|].
      rewrite <- BoundsFacts.is_in_bounds_spec.
      destruct (is_in_bounds _ _ _); [discriminate | congruence].
    + destruct H as [e [He [Hx Ho]]]. exists e. split; [exact He|].
      rewrite <- BoundsFacts.is_in_bounds_spec in Ho.
      rewrite Hx, Z.eqb_refl, andb_true_r.
      destruct (is_in_bounds _ _ _); [contradiction Ho; reflexivity | reflexivity].
  - apply despawn_enemies_nodup.
  - destruct gs; reflexivity.
Qed.

(** One logic tick ([update_logic]), when it completes, leaves both despawn
    sets empty, and every entity it keeps passed this tick's checks: no
    surviving projectile has expired, every surviving energy ball or homing
    missile is inside the screen widened by the margin, and every surviving
    enemy is inside it too and overlaps neither the player nor any
    surviving projectile. A player who ends the tick outside the screen has
    a pending [GameOver], unless a level-up in the same tick replaced it by
    [WeaponSelection]: then the player's level is one above its level at
    the start of the tick. *)
Theorem update_logic_survivors (env : Env) (gs : GameState) :
  let m := out_of_bounds_margin (game_constants gs) in
  match playing.update_logic env gs with
  | Some gs' =>
      enemies_to_despawn gs' = [] /\ projectiles_to_despawn gs' = [] /\
      Forall (fun p => projectile.is_expired p = false /\
                (projectile_type p <> PPulse -> is_in_bounds env (p_pos p) m = true))
        (projectiles gs') /\
      Forall (fun e =>
          is_in_bounds env (e_pos e) m = true /\
          Collision.collided (Collision.check_collision (Player.collider (player gs'))
            (Player.pos (player gs')) (enemy.collider e) (e_pos e)) = false /\
          Forall (fun p => Collision.collided (Collision.check_collision
            (projectile.collider p) (p_pos p) (enemy.collider e) (e_pos e)) = false)
            (projectiles gs'))
        (enemies gs') /\
      (~ (0 <= vx (Player.pos (player gs')) <= screen_width env /\
          0 <= vy (Player.pos (player gs')) <= screen_height env) ->
       next_state gs' = Some GameOver \/
       (next_state gs' = Some WeaponSelection /\
        Player.level (player gs') = (Player.level (player gs) + 1)%Z))
  | None => True
  end.
Proof.
  cbv zeta. unfold playing.update_logic.
  pose proof (player_update_level (player gs) DT) as L0.
  destruct (Player.update (player gs) DT) as [p cmds]. cbn [fst] in L0.
  destruct (execute_spawn_commands env (set_player gs p) cmds) as [gs1|] eqn:E1;
    cbn [obind]; [|exact I].
  pose proof (execute_spawn_commands_constants _ _ _ _ E1) as C1.
  pose proof (execute_spawn_commands_player _ _ _ _ E1) as L1.
  cbv zeta.
  match goal with
  | |- match process_despawns (check_player_bounds env (check_collisions
        (despawn_enemies_out_of_bounds env (despawn_projectiles_out_of_bounds env
          (playing.mark_expired ?g3))))) with _ => _ end =>
      assert (C3 : game_constants g3 = game_constants gs)
        by (transitivity (game_constants gs1); [destruct gs1; reflexivity|];
            rewrite C1; destruct gs; reflexivity);
      assert (L3 : Player.level (player g3) = Player.level (player gs))
        by (transitivity (Player.level (player gs1)); [destruct gs1; reflexivity|];
            rewrite L1, <- L0; destruct gs; reflexivity);
      destruct (process_despawns (check_player_bounds env (check_collisions
        (despawn_enemies_out_of_bounds env (despawn_projectiles_out_of_bounds env
          (playing.mark_expired g3)))))) as [gs'|] eqn:E; [|exact I];
      rewrite <- C3, <- L3; exact (after_update_passes env g3 gs' E)
  end.
Qed.

(** A tick from [gs_off_kill]: the enemy moves to (-9.5, 300.5), still
    inside the margin, and touches the player, which schedules [GameOver];
    the player, left of the screen, is flagged again by the bounds check;
    the kill brings its experience to 5, the threshold of level 1, so the
    pending state becomes [WeaponSelection]. *)
Lemma update_logic_survivors_witness :
  exists gs', playing.update_logic Samples.env0 Samples.gs_off_kill = Some gs' /\
    ~ (0 <= vx (Player.pos (player gs')) <= screen_width Samples.env0 /\
       0 <= vy (Player.pos (player gs')) <= screen_height Samples.env0) /\
    next_state gs' = Some WeaponSelection /\
    Player.level (player gs') = (Player.level (player Samples.gs_off_kill) + 1)%Z /\
    enemies gs' = [].
Proof.
  assert (Hb : enemy.update_basic Samples.enemy_at_player =
    mkEnemy 0 (mkVec2 (-10) 300) (mkVec2 (1 / 2) (1 / 2)) Basic Samples.basic_stats0 Samples.evc0).
  { unfold enemy.update_basic, enemy.clamp_velocity, Samples.enemy_at_player. cbn.
    destruct (Rlt_dec 0 0); [lra|].
    destruct (Rlt_dec 3 _) as [Hc|Hc].
    - exfalso. unfold vlength, length_squared in Hc. cbn in Hc.
      assert (Hs : sqrt ((0 + 1 * (1 / 2)) * (0 + 1 * (1 / 2)) +
                         (0 + 1 * (1 / 2)) * (0 + 1 * (1 / 2))) <= sqrt (3 * 3))
        by (apply sqrt_le_1_alt; lra).
      rewrite sqrt_square in Hs by lra. lra.
    - unfold enemy.set_vel. cbn. f_equal. unfold vadd, vscale. cbn. f_equal; lra. }
  assert (Hib : is_in_bounds Samples.env0 (vadd (mkVec2 (-10) 300) (mkVec2 (1 / 2) (1 / 2))) 50
                = true).
  { unfold is_in_bounds, Samples.env0, vadd. cbn.
    repeat (destruct (Rle_dec _ _); [|lra]). reflexivity. }
  assert (Hc : Collision.collided (Collision.circle_circle
      (vadd (mkVec2 (-10) 300) Vec2_ZERO) 20
      (vadd (mkVec2 (-10) 300) (mkVec2 (1 / 2) (1 / 2))) 15) = true).
  { unfold Collision.circle_circle.
    destruct (Rlt_dec _ _) as [_|Hn]; [reflexivity|].
    exfalso. apply Hn. unfold length_squared, vsub, vadd, Vec2_ZERO. cbn. lra. }
  pose proof (update_logic_survivors Samples.env0 Samples.gs_off_kill) as T.
  destruct (playing.update_logic Samples.env0 Samples.gs_off_kill) as [gs'|] eqn:E;
    unfold playing.update_logic in E; cbn in E;
    unfold enemy.update in E; cbn [enemy_type Samples.enemy_at_player] in E;
    rewrite Hb in E; cbn in E; rewrite Hib in E; cbn in E;
    unfold check_collisions, check_player_enemy_collisions,
      check_projectile_enemy_collisions, check_enemy_collisions in E; cbn in E;
    rewrite Hc in E; cbn in E;
    unfold check_player_bounds in E; cbn in E;
    (destruct (Rlt_dec _ 0) as [_|Hn];
       [|exfalso; apply Hn; unfold vadd, Vec2_ZERO; cbn; lra]);
    cbn in E; [|discriminate E].
  injection E as Eg. exists gs'.
  assert (Ho : ~ (0 <= vx (Player.pos (player gs')) <= screen_width Samples.env0 /\
                  0 <= vy (Player.pos (player gs')) <= screen_height Samples.env0))
    by (rewrite <- Eg; unfold vadd, Vec2_ZERO; cbn; lra).
  destruct T as (_ & _ & _ & _ & T). destruct (T Ho) as [Hg|[Hw Hl]].
  - rewrite <- Eg in Hg. cbn in Hg. discriminate Hg.
  - split; [reflexivity|]. split; [exact Ho|]. split; [exact Hw|].
    split; [exact Hl|]. rewrite <- Eg. reflexivity.
Defined.

(** [process_wave] leaves a wave in progress alone (some enemy alive).
    Once the last enemy is gone and the script gives the next wave's
    configuration, a completed call has spawned exactly that many enemies,
    advanced the wave counter and the id counter accordingly, and changed
    neither the game state, the error message nor the player; with random
    draws in [[0, 1]] and a screen of non-negative size. *)
Theorem process_wave_spec (env : Env) (gs : GameState)
  (Hd : forall k, 0 <= rand_draw env k <= 1)
  (Hw : 0 <= screen_width env) (Hh : 0 <= screen_height env) :
  (enemies gs <> [] -> playing.process_wave env gs = Some gs) /\
  forall config gs',
    enemies gs = [] ->
    get_wave_config (roto_manager gs) (wave gs) = Ok config ->
    playing.process_wave env gs = Some gs' ->
    let n := (Z.to_nat (basic_enemy_count config) +
              Z.to_nat (chaser_enemy_count config))%nat in
    wave gs' = (wave gs + 1)%Z /\ List.length (enemies gs') = n /\
    next_entity_id gs' = (next_entity_id gs + Z.of_nat n)%Z /\
    state gs' = state gs /\ error_message gs' = error_message gs /\
    player gs' = player gs.
Proof.
  split.
  - intros Hne. unfold playing.process_wave.
    destruct (enemies gs); [contradiction Hne|]; reflexivity.
  - intros config gs' He Hc H. cbv zeta.
    unfold playing.process_wave in H. rewrite He, Hc in H.
    unfold playing.spawn_wave in H.
    destruct (playing.spawn_n env gs Basic (Z.to_nat (basic_enemy_count config)))
      as [[g1 r1]|] eqn:E1; cbn [obind] in H; [|discriminate].
    destruct (SpawnIdFacts.spawn_n_spec env Basic Hd Hw Hh _ gs g1 r1 E1)
      as (-> & A1 & _ & es1 & A3 & A4 & _).
    destruct (spawn_n_fields env Basic Hd Hw Hh _ gs g1 _ E1) as (B1 & B2 & B3 & B4).
    destruct (playing.spawn_n env g1 Chaser (Z.to_nat (chaser_enemy_count config)))
      as [[g2 r2]|] eqn:E2; cbn [obind] in H; [|discriminate].
    destruct (SpawnIdFacts.spawn_n_spec env Chaser Hd Hw Hh _ g1 g2 r2 E2)
      as (-> & C1 & _ & es2 & C3 & C4 & _).
    destruct (spawn_n_fields env Chaser Hd Hw Hh _ g1 g2 _ E2) as (D1 & D2 & D3 & D4).
    destruct (add_u32 (wave g2) 1) as [w|] eqn:Ew; cbn [obind] in H; [|discriminate].
    injection H as <-.
    unfold add_u32 in Ew. destruct (_ <=? _)%Z; [|discriminate].
    injection Ew as <-.
    assert (L1 : List.length es1 = Z.to_nat (basic_enemy_count config))
      by (rewrite <- (repeat_length Basic (Z.to_nat (basic_enemy_count config))),
            <- A4, length_map; reflexivity).
    assert (L2 : List.length es2 = Z.to_nat (chaser_enemy_count config))
      by (rewrite <- (repeat_length Chaser (Z.to_nat (chaser_enemy_count config))),
            <- C4, length_map; reflexivity).
    destruct g2; cbn in *.
    rewrite D1, B1. split; [reflexivity|].
    rewrite C3, A3, He. cbn. rewrite length_app, L1, L2. split; [reflexivity|].
    rewrite C1, A1. split; [lia|].
    rewrite D2, B2, D3, B3, D4, B4. repeat split.
Qed.

Lemma process_wave_spec_witness :
  (forall k, 0 <= rand_draw Samples.env0 k <= 1) /\
  0 <= screen_width Samples.env0 /\ 0 <= screen_height Samples.env0 /\
  forall gs', playing.process_wave Samples.env0 Samples.gs0 = Some gs' ->
    wave gs' = 1%Z /\ List.length (enemies gs') = 3%nat.
Proof.
  assert (Hd : forall k, 0 <= rand_draw Samples.env0 k <= 1) by (intros; cbn; lra).
  assert (Hw : 0 <= screen_width Samples.env0) by (cbn; lra).
  assert (Hh : 0 <= screen_height Samples.env0) by (cbn; lra).
  split; [exact Hd|]. split; [exact Hw|]. split; [exact Hh|].
  intros gs' H.
  destruct (proj2 (process_wave_spec Samples.env0 Samples.gs0 Hd Hw Hh)
    (mkWaveConfig 2 1) gs' eq_refl eq_refl H) as (A & B & _).
  split; [exact A | exact B].
Defined.

End LogicFacts.

(** ** The player's tick *)

Module PlayerUpdateFacts.
Import Weapon.

Lemma fire_at (w : Weapon) (p f : Vec2) :
  Forall (fun c => match c with
    | SpawnProjectile _ q _ s => q = p /\ s = projectile_stats (stats w)
    | SpawnEnemy _ _ => False
    end) (snd (fire w p f)).
Proof.
  unfold fire. destruct (negb (can_fire w)); [constructor|].
  destruct w as [t l c s]. cbn [snd weapon_type set_cooldown_remaining].
  assert (Hfan : forall pt w', stats w' = s ->
    Forall (fun c => match c with
      | SpawnProjectile _ q _ s' => q = p /\ s' = projectile_stats s
      | SpawnEnemy _ _ => False
      end) (fan pt w' p f)).
  { intros pt w' Hw. apply Forall_forall. intros cm Hcm.
    unfold fan in Hcm. apply in_map_iff in Hcm. destruct Hcm as [i [<- _]].
    rewrite Hw. split; reflexivity. }
  destruct t.
  - unfold fire_energy_ball. destruct (_ =? 1)%Z;
      [repeat constructor | apply Hfan; reflexivity].
  - unfold fire_pulse. repeat constructor.
  - unfold fire_homing_missile. destruct (_ =? 1)%Z;
      [repeat constructor | apply Hfan; reflexivity].
Qed.

Lemma update_weapons_spec (ws : list Weapon) (dt : R) (pos f : Vec2) :
  let '(ws', cmds) := Player.update_weapons ws dt pos f in
  map weapon_type ws' = map weapon_type ws /\ map level ws' = map level ws /\
  map stats ws' = map stats ws /\
  Forall (fun c => match c with
    | SpawnProjectile _ q _ s =>
        q = pos /\ In s (map (fun w => projectile_stats (stats w)) ws)
    | SpawnEnemy _ _ => False
    end) cmds.
Proof.
  induction ws as [|w ws IH]; cbn [Player.update_weapons]; [repeat constructor|].
  pose proof (WeaponLevelFacts.update_fields w dt) as (U1 & U2 & U3).
  pose proof (WeaponLevelFacts.fire_fields (update w dt) pos f) as (F1 & F2 & F3).
  pose proof (fire_at (update w dt) pos f) as Hat.
  destruct (fire (update w dt) pos f) as [w' cmds] eqn:Ef.
  destruct (Player.update_weapons ws dt pos f) as [ws' rest].
  destruct IH as (I1 & I2 & I3 & I4).
  cbn [fst snd] in F1, F2, F3, Hat. cbn [map].
  rewrite F1, F2, F3, U1, U2, U3, I1, I2, I3.
  repeat split. apply Forall_app. split.
  - eapply Forall_impl; [|exact Hat].
    intros [t q v s|t q]; [|tauto]. intros [-> ->].
    split; [reflexivity|]. left. rewrite U3. reflexivity.
  - eapply Forall_impl; [|exact I4].
    intros [t q v s|t q]; [|tauto]. intros [-> Hs].
    split; [reflexivity|]. right. exact Hs.
Qed.

(** [Player::update] moves the player by its velocity, then scales the
    velocity by the friction factor; every weapon is ticked and fired in
    place, so the list keeps each weapon's type, level and stats in order;
    every spawn request it returns is a projectile request at the player's
    new position, carrying the projectile stats of one of its weapons.
    Facing, stats, xp and level are kept. *)
Theorem player_update_spec (p : Player.Player) (dt : R) :
  let '(p', cmds) := Player.update p dt in
  Player.pos p' = vadd (Player.pos p) (Player.vel p) /\
  Player.vel p' = vscale (Player.vel p) (friction (Player.stats p)) /\
  Player.facing p' = Player.facing p /\ Player.stats p' = Player.stats p /\
  Player.xp p' = Player.xp p /\ Player.level p' = Player.level p /\
  map weapon_type (Player.weapons p') = map weapon_type (Player.weapons p) /\
  map level (Player.weapons p') = map level (Player.weapons p) /\
  map stats (Player.weapons p') = map stats (Player.weapons p) /\
  Forall (fun c => match c with
    | SpawnProjectile _ q _ s =>
        q = Player.pos p' /\
        In s (map (fun w => projectile_stats (stats w)) (Player.weapons p))
    | SpawnEnemy _ _ => False
    end) cmds.
Proof.
  unfold Player.update.
  destruct p as [pos vel facing st ws vc x l]. cbn.
  pose proof (update_weapons_spec ws dt (vadd pos vel) facing) as Hw.
  destruct (Player.update_weapons ws dt (vadd pos vel) facing) as [ws' cmds].
  destruct Hw as (W1 & W2 & W3 & W4).
  cbn. repeat split; assumption.
Qed.

End PlayerUpdateFacts.
